(** * openapi-sdk: the [generate] command

    A shallow embedding of [src/commands/generate.ts].  The generator builds a
    TypeScript syntax tree with [ts.factory]; the tree is embedded as the
    inductive types of section "Syntax tree", the generator functions as Rocq
    functions that return such trees.  JavaScript strings are modelled as
    [string] (sequences of 8-bit characters), a character standing for the
    code unit of its number: the strings covered are those of code units
    below 256.  The characters the generator inspects ([{], [}], [.]) are
    ASCII. *)

From Equations Require Import Equations.
From Stdlib Require Import String Ascii List Bool Arith Lia ZArith NArith DecimalString.
Import ListNotations.
Open Scope string_scope.

Set Warnings "-register-all".
Unset Elimination Schemes.

(* ===================================================================== *)
(** * Syntax tree *)
(* ===================================================================== *)

Inductive KeywordTypeSyntaxKind :=
| StringKeyword | NumberKeyword | BooleanKeyword | UnknownKeyword.

(** Type nodes.  An identifier is represented by its text.  [typeArguments]
    is [None] where the source passes [undefined]. *)
Inductive TypeNode :=
| KeywordTypeNode (kind : KeywordTypeSyntaxKind)
| TypeLiteralNode (members : list TypeElement)
| ArrayTypeNode (elementType : TypeNode)
| TypeReferenceNode (typeName : string) (typeArguments : option (list TypeNode))
| UnionTypeNode (types : list TypeNode)
| IntersectionTypeNode (types : list TypeNode)
| LiteralTypeNode (literal : string)
with TypeElement :=
| PropertySignature (name : string) (questionToken : bool) (type : TypeNode)
| MethodSignature (name : string) (type : TypeNode).

Inductive BindingName :=
| Identifier (text : string)
| ObjectBindingPattern (elements : list string)
| ArrayBindingPattern (elements : list string).

Inductive ParameterDeclaration :=
| Parameter_ (name : BindingName) (questionToken : bool) (type : option TypeNode).

Inductive BinaryOperator := EqualsToken | InstanceOfKeyword.

(** A literal text is [None] when the source hands [undefined] to the
    factory (an array read out of range). *)
Inductive TemplateLiteralPart :=
| TemplateMiddle (text : option string)
| TemplateTail (text : option string).

Inductive PropertyName :=
| NameIdentifier (text : string)
| NameStringLiteral (text : string).

Inductive Expression :=
| EIdentifier (text : string)
| StringLiteral (text : string)
| PropertyAccessExpression (expression : Expression) (name : string)
| TemplateExpression (head : option string)
                     (templateSpans : list (Expression * TemplateLiteralPart))
| NewExpression (expression : Expression) (arguments : list Expression)
| CallExpression (expression : Expression) (arguments : list Expression)
| ObjectLiteralExpression (properties : list ObjectLiteralElement) (multiLine : bool)
| BinaryExpression (left : Expression) (operator : BinaryOperator) (right : Expression)
| ArrowFunction (parameters : list ParameterDeclaration) (body : Statement)
with ObjectLiteralElement :=
| PropertyAssignment (name : PropertyName) (initializer : Expression)
| SpreadAssignment (expression : Expression)
with Statement :=
| VariableStatement (name : string) (initializer : Expression)   (* const *)
| IfStatement (expression : Expression) (thenStatement : Statement)
              (elseStatement : option Statement)
| ExpressionStatement (expression : Expression)
| ReturnStatement (expression : Expression)
| Block (statements : list Statement) (multiLine : bool).

Inductive Declaration :=
| FunctionDeclaration (exported : bool) (name : string)
                      (parameters : list ParameterDeclaration)
                      (type : TypeNode) (body : Statement)
| TypeAliasDeclaration (name : string) (typeParameters : list (string * TypeNode))
                       (type : TypeNode)
| JSDocComment (comment : string).

Set Elimination Schemes.

(* ===================================================================== *)
(** * Path Template Builder *)
(* ===================================================================== *)

Module PathTemplate.

(** The longest prefix of characters other than [}] and what follows it:
    the greedy [[^}]+] of the pattern. *)
Fixpoint take_name (s : string) : string * string :=
  match s with
  | EmptyString => ("", "")
  | String c s' =>
      if (c =? "}")%char then ("", s)
      else let (n, r) := take_name s' in (String c n, r)
  end.

(** [\{([^}]+)\}] matched at the start of [s]: the captured name and the rest
    after the closing brace.  The characters of the run are all different from
    [}], so giving some of them back cannot make the closing brace match:
    the attempt fails when the run is empty or reaches the end of [s]. *)
Definition match_here (s : string) : option (string * string) :=
  match s with
  | String c s' =>
      if (c =? "{")%char then
        match take_name s' with
        | (String c1 n, String c2 rest) =>
            if (c2 =? "}")%char then Some (String c1 n, rest) else None
        | _ => None
        end
      else None
  | EmptyString => None
  end.

(** [RegExp.prototype.exec] from the current [lastIndex]: the leftmost match
    in the remaining text [s], as (text before the match, capture group 1,
    text after the match). *)
Fixpoint regex_exec (s : string) : option (string * string * string) :=
  match match_here s with
  | Some (name, rest) => Some ("", name, rest)
  | None =>
      match s with
      | EmptyString => None
      | String c s' =>
          match regex_exec s' with
          | Some (pre, name, rest) => Some (String c pre, name, rest)
          | None => None
          end
      end
  end.

Definition inspect {A} (a : A) : {b | a = b} := exist _ a eq_refl.

Lemma take_name_length s n r :
  take_name s = (n, r) -> String.length s = String.length n + String.length r.
Proof.
  revert n r; induction s as [|c s IH]; intros n r; simpl.
  - intros [= <- <-]; reflexivity.
  - destruct (c =? "}")%char.
    + intros [= <- <-]; reflexivity.
    + destruct (take_name s) as [n' r']. intros [= <- <-].
      simpl. rewrite (IH n' r' eq_refl). reflexivity.
Qed.

Lemma match_here_length s name rest :
  match_here s = Some (name, rest) ->
  String.length s = 2 + String.length name + String.length rest.
Proof.
  unfold match_here. destruct s as [|c s]; [discriminate|].
  destruct (c =? "{")%char; [|discriminate].
  destruct (take_name s) as [n r] eqn:E.
  destruct n as [|c1 n]; [discriminate|].
  destruct r as [|c2 r]; [discriminate|].
  destruct (c2 =? "}")%char; [|discriminate].
  intros [= <- <-]. simpl. rewrite (take_name_length _ _ _ E). simpl. lia.
Qed.

Lemma regex_exec_length s pre name rest :
  regex_exec s = Some (pre, name, rest) ->
  String.length s = String.length pre + 2 + String.length name + String.length rest.
Proof.
  revert pre; induction s as [|c s IH]; intros pre.
  - simpl. discriminate.
  - cbn [regex_exec]. destruct (match_here (String c s)) as [[n r]|] eqn:E.
    + intros [= <- <- <-]. rewrite (match_here_length _ _ _ E). simpl. lia.
    + destruct (regex_exec s) as [[[p n] r]|]; [|discriminate].
      intros [= <- <- <-]. simpl. rewrite (IH p eq_refl). lia.
Qed.

(** [extractParams]: the [while ((match = paramRegex.exec(path)) !== null)]
    loop; the argument is the text from [lastIndex] on. *)
Equations? extractParams_loop (rest : string) : list string
  by wf (String.length rest) lt :=
  extractParams_loop rest with inspect (regex_exec rest) => {
    | exist _ None _ => [];
    | exist _ (Some (_, name, rest')) e => name :: extractParams_loop rest' }.
Proof. rewrite (regex_exec_length _ _ _ _ e). lia. Qed.

Definition extractParams (path : string) : list string :=
  extractParams_loop path.

(** [path.split(/\{[^}]+\}/)]: the pieces between successive matches and the
    piece after the last one; the pattern never matches the empty string, so
    every match ends a piece, and the empty path splits into one empty
    piece. *)
Equations? split_loop (rest : string) : list string
  by wf (String.length rest) lt :=
  split_loop rest with inspect (regex_exec rest) => {
    | exist _ None _ => [rest];
    | exist _ (Some (pre, _, rest')) e => pre :: split_loop rest' }.
Proof. rewrite (regex_exec_length _ _ _ _ e). lia. Qed.

Definition split_path (path : string) : list string := split_loop path.

(** [params.forEach((param, index) => ...)] of [makeTemplateExpressionFromPath];
    [pathSegments[index + 1]] is [nth_error], [undefined] out of range. *)
Fixpoint template_spans (pathSegments : list string) (length_params : nat)
         (index : nat) (params : list string)
  : list (Expression * TemplateLiteralPart) :=
  match params with
  | [] => []
  | param :: params' =>
      let isLast := Nat.eqb index (length_params - 1) in
      let literalText := nth_error pathSegments (index + 1) in
      let literal := if isLast then TemplateTail literalText
                     else TemplateMiddle literalText in
      (PropertyAccessExpression (EIdentifier "params") param, literal)
        :: template_spans pathSegments length_params (S index) params'
  end.

Definition makeTemplateExpressionFromPath (path : string) : Expression :=
  let params := extractParams path in
  let pathSegments := split_path path in
  if Nat.eqb (length params) 0 then StringLiteral path
  else TemplateExpression (nth_error pathSegments 0)
         (template_spans pathSegments (length params) 0 params).

(** Occurrence of a character in a string. *)
Fixpoint has_char (c : ascii) (s : string) : bool :=
  match s with
  | EmptyString => false
  | String d s' => (d =? c)%char || has_char c s'
  end.

(** A placeholder name as the pattern captures it: one or more characters,
    none of them a closing brace. *)
Definition placeholder_name (n : string) : Prop :=
  n <> "" /\ has_char "}" n = false.

(** [s0 {n1} s1 ... {nN} sN] *)
Fixpoint interleave (segments names : list string) : string :=
  match segments, names with
  | s :: segments', n :: names' =>
      s ++ "{" ++ n ++ "}" ++ interleave segments' names'
  | s :: _, [] => s
  | [], _ => ""
  end.

(** The spans the specification describes for names [n1 .. nN] and the
    literal segments [s1 .. sN] that follow them: a reference to
    [params.ni] before each [si], the last literal being the tail. *)
Fixpoint interleaved_spans (names segments : list string)
  : list (Expression * TemplateLiteralPart) :=
  match names, segments with
  | [n], s :: _ =>
      [(PropertyAccessExpression (EIdentifier "params") n, TemplateTail (Some s))]
  | n :: names', s :: segments' =>
      (PropertyAccessExpression (EIdentifier "params") n, TemplateMiddle (Some s))
        :: interleaved_spans names' segments'
  | _, _ => []
  end.

End PathTemplate.

(* ===================================================================== *)
(** * JavaScript values the generator reads *)
(* ===================================================================== *)

Module JS.

(** What runs may throw. *)
Inductive error :=
| Error (message : string)
| TypeError
| RangeError.

Inductive result (A : Type) :=
| Ok (a : A)
| Throw (e : error).
Arguments Ok {A} a.
Arguments Throw {A} e.

(** ** Ordinary objects

    An object is the list of its own enumerable properties in the order
    [OrdinaryOwnPropertyKeys] lists them: array-index keys in ascending
    numeric order first, then the other string keys in creation order.  Keys
    are pairwise distinct. *)
Definition obj (A : Type) := list (string * A).

(** The canonical numeric strings below [2^32 - 1]. *)
Definition array_index (k : string) : option N :=
  match NilEmpty.uint_of_string k with
  | Some u =>
      let n := N.of_uint u in
      if (NilEmpty.string_of_uint (N.to_uint n) =? k) && (n <? 4294967295)%N
      then Some n else None
  | None => None
  end.

Definition index_key (i : nat) : string :=
  NilEmpty.string_of_uint (Nat.to_uint i).

Section Objects.
Context {A : Type}.

Fixpoint obj_get (k : string) (o : obj A) : option A :=
  match o with
  | [] => None
  | (k', v) :: o' => if k' =? k then Some v else obj_get k o'
  end.

Definition obj_has (k : string) (o : obj A) : bool :=
  match obj_get k o with Some _ => true | None => false end.

Fixpoint obj_replace (k : string) (v : A) (o : obj A) : obj A :=
  match o with
  | [] => []
  | (k', v') :: o' =>
      if k' =? k then (k', v) :: o' else (k', v') :: obj_replace k v o'
  end.

(** A new array-index key goes after the smaller index keys. *)
Fixpoint obj_insert_index (i : N) (k : string) (v : A) (o : obj A) : obj A :=
  match o with
  | [] => [(k, v)]
  | (k', v') :: o' =>
      match array_index k' with
      | Some j => if (j <? i)%N then (k', v') :: obj_insert_index i k v o'
                  else (k, v) :: o
      | None => (k, v) :: o
      end
  end.

(** [CreateDataProperty]: an existing key keeps its place and gets the new
    value, a new key is added in enumeration order. *)
Definition obj_set (k : string) (v : A) (o : obj A) : obj A :=
  if obj_has k o then obj_replace k v o
  else match array_index k with
       | Some i => obj_insert_index i k v o
       | None => (o ++ [(k, v)])%list
       end.

(** [Object.fromEntries], and the copy a spread makes into a literal. *)
Definition obj_assign (entries : list (string * A)) (o : obj A) : obj A :=
  fold_left (fun acc kv => obj_set (fst kv) (snd kv) acc) entries o.

Definition fromEntries (entries : list (string * A)) : obj A :=
  obj_assign entries [].

(** The value of the last entry with key [k]. *)
Definition last_value (k : string) (entries : list (string * A)) : option A :=
  obj_get k (rev entries).

(** The elements of an array as its index properties. *)
Fixpoint indexed_from (i : nat) (l : list A) : list (string * A) :=
  match l with
  | [] => []
  | x :: l' => (index_key i, x) :: indexed_from (S i) l'
  end.

Definition indexed (l : list A) : list (string * A) := indexed_from 0 l.
End Objects.

(** ** Documents *)

(** A value of a parsed document, or [undefined]; numbers are kept as
    integers, the generator only tests their type and truthiness. *)
Inductive json :=
| JUndefined
| JNull
| JBool (b : bool)
| JNum (n : Z)
| JStr (s : string)
| JArr (elements : list json)
| JObj (members : obj json).

Fixpoint depth (j : json) : nat :=
  match j with
  | JArr l => S (fold_right (fun x m => Nat.max (depth x) m) 0 l)
  | JObj o => S (fold_right (fun kv m => Nat.max (depth (snd kv)) m) 0 o)
  | _ => 0
  end.

(** The deepest nesting among the values of a list. *)
Definition max_depth (l : list json) : nat :=
  fold_right (fun x m => Nat.max (depth x) m) 0 l.

(** The one-character strings of a string, as [Object.entries] of a string
    lists them. *)
Fixpoint chars (s : string) : list json :=
  match s with
  | EmptyString => []
  | String c s' => JStr (String c "") :: chars s'
  end.

(** [typeof j === 'object' && j !== null] *)
Definition is_object (j : json) : bool :=
  match j with JObj _ | JArr _ => true | _ => false end.

(** [undefined] and [null], whose properties cannot be read. *)
Definition nullish (j : json) : bool :=
  match j with JUndefined | JNull => true | _ => false end.

Definition is_array (j : json) : bool :=
  match j with JArr _ => true | _ => false end.

Definition truthy (j : json) : bool :=
  match j with
  | JUndefined | JNull => false
  | JBool b => b
  | JNum n => negb (n =? 0)%Z
  | JStr s => negb (s =? "")
  | JArr _ | JObj _ => true
  end.

(** [Object.entries(j)]; [undefined] and [null] cannot be converted to an
    object. *)
Definition entries (j : json) : result (list (string * json)) :=
  match j with
  | JUndefined | JNull => Throw TypeError
  | JObj o => Ok o
  | JArr l => Ok (indexed l)
  | JStr s => Ok (indexed (chars s))
  | JBool _ | JNum _ => Ok []
  end.

(** [l.map(f)] for a callback that may throw. *)
Fixpoint mapR {A B} (f : A -> result B) (l : list A) : result (list B) :=
  match l with
  | [] => Ok []
  | x :: l' =>
      match f x with
      | Ok y => match mapR f l' with
                | Ok ys => Ok (y :: ys)
                | Throw e => Throw e
                end
      | Throw e => Throw e
      end
  end.

Definition keys (j : json) : result (list string) :=
  match entries j with
  | Ok es => Ok (map fst es)
  | Throw e => Throw e
  end.

Definition values (j : json) : result (list json) :=
  match entries j with
  | Ok es => Ok (map snd es)
  | Throw e => Throw e
  end.

(** [Object.getOwnPropertyNames(j)]: arrays and strings also own the
    non-enumerable [length]. *)
Definition getOwnPropertyNames (j : json) : result (list string) :=
  match j with
  | JUndefined | JNull => Throw TypeError
  | JObj o => Ok (map fst o)
  | JArr l => Ok (map fst (indexed l) ++ ["length"])%list
  | JStr s => Ok (map fst (indexed (chars s)) ++ ["length"])%list
  | JBool _ | JNum _ => Ok []
  end.

(** The own property [k] of [j], if there is one.  The keys the generator
    reads are never members of a prototype, so this decides [k in j] for an
    object and [j[k]] is [undefined] without it. *)
Definition get (j : json) (k : string) : option json :=
  match j with
  | JObj o => obj_get k o
  | JArr l =>
      if k =? "length" then Some (JNum (Z.of_nat (length l)))
      else obj_get k (indexed l)
  | JStr s =>
      if k =? "length" then Some (JNum (Z.of_nat (String.length s)))
      else obj_get k (indexed (chars s))
  | _ => None
  end.

(** [j[k]] *)
Definition read (j : json) (k : string) : json :=
  match get j k with Some v => v | None => JUndefined end.

(** [k in j]; the right operand must be an object. *)
Definition js_in (k : string) (j : json) : result bool :=
  match j with
  | JObj _ | JArr _ =>
      Ok match get j k with Some _ => true | None => false end
  | _ => Throw TypeError
  end.

Definition json_eqb_str (s : string) (j : json) : bool :=
  match j with JStr s' => s' =? s | _ => false end.

(** [a.includes(s)] for a string [s]. *)
Definition includes (a : list json) (s : string) : bool :=
  existsb (json_eqb_str s) a.

(** [String.prototype.toUpperCase], on the ASCII letters: the keys of a path
    item that name a method are ASCII; a letter outside ASCII is kept as it
    is here, where the platform may map it. *)
Definition upper_char (c : ascii) : ascii :=
  let n := nat_of_ascii c in
  if Nat.leb 97 n && Nat.leb n 122 then ascii_of_nat (n - 32) else c.

Fixpoint toUpperCase (s : string) : string :=
  match s with
  | EmptyString => EmptyString
  | String c s' => String (upper_char c) (toUpperCase s')
  end.

(** [s.split(sep)] for a one-character separator: the first piece and the
    pieces after it (there is always a first piece). *)
Fixpoint split_on (sep : ascii) (s : string) : string * list string :=
  match s with
  | EmptyString => (EmptyString, [])
  | String c s' =>
      let (piece, pieces) := split_on sep s' in
      if (c =? sep)%char then (EmptyString, piece :: pieces)
      else (String c piece, pieces)
  end.

End JS.

(* ===================================================================== *)
(** * Type Mapper *)
(* ===================================================================== *)

Module TypeMapper.
Import JS.

(** A generator computation: its outcome and the values it handed to
    [console.warn], oldest first. *)
Definition gen (A : Type) : Type := (result A * list json)%type.

Definition ret {A} (a : A) : gen A := (Ok a, []).
Definition throw {A} (e : error) : gen A := (Throw e, []).
Definition lift {A} (r : result A) : gen A := (r, []).
Definition warn (schema : json) : gen unit := (Ok tt, [schema]).

Definition bind {A B} (m : gen A) (f : A -> gen B) : gen B :=
  match m with
  | (Ok a, w) => let (r, w') := f a in (r, (w ++ w')%list)
  | (Throw e, w) => (Throw e, w)
  end.

Definition fmap {A B} (f : A -> B) (m : gen A) : gen B :=
  bind m (fun a => ret (f a)).

(** [l.map(f)] for a callback with effects: elements in order, the first
    throw ends the loop. *)
Fixpoint mapM {A B} (f : A -> gen B) (l : list A) : gen (list B) :=
  match l with
  | [] => ret []
  | x :: l' => bind (f x) (fun y => bind (mapM f l') (fun ys => ret (y :: ys)))
  end.

(** ['k' in schema && typeof schema.k === 'object' && schema.k !== null] *)
Definition object_member (schema : json) (k : string) : option json :=
  match get schema k with
  | Some v => if is_object v then Some v else None
  | None => None
  end.

(** ['required' in schema && Array.isArray(schema.required) &&
     schema.required?.includes(propertyName)] *)
Definition is_required (schema : json) (propertyName : string) : bool :=
  match get schema "required" with
  | Some (JArr required) => includes required propertyName
  | _ => false
  end.

(** The last two statements of [makeTypeFromSchema]. *)
Definition unknown_fallback (schema : json) : gen TypeNode :=
  bind (warn schema) (fun _ => ret (KeywordTypeNode UnknownKeyword)).

Definition record_of_unknown : TypeNode :=
  TypeReferenceNode "Record"
    (Some [UnionTypeNode [KeywordTypeNode StringKeyword;
                          KeywordTypeNode NumberKeyword];
           KeywordTypeNode UnknownKeyword]).

(** [Object.fromEntries(schema.allOf.map((schema) => Object.entries(schema)).flat())] *)
Definition merge_allOf (allOf : list json) : result json :=
  match mapR entries allOf with
  | Ok parts => Ok (JObj (fromEntries (concat parts)))
  | Throw e => Throw e
  end.

(** The body of [makeTypeFromSchema]; [self] stands for the function in its
    recursive calls. *)
Definition makeTypeFromSchema_body (self : json -> gen TypeNode) (schema : json)
  : gen TypeNode :=
  if is_object schema then
    match object_member schema "properties" with
    | Some properties =>
        bind (lift (getOwnPropertyNames properties)) (fun names =>
        fmap TypeLiteralNode
          (mapM (fun propertyName =>
                   let questionToken := negb (is_required schema propertyName) in
                   fmap (PropertySignature propertyName questionToken)
                        (self (read properties propertyName)))
                names))
    | None =>
        match get schema "type" with
        | Some type =>
            if json_eqb_str "object" type then ret record_of_unknown
            else if json_eqb_str "array" type then
              match object_member schema "items" with
              | Some items => fmap ArrayTypeNode (self items)
              | None => ret (ArrayTypeNode (KeywordTypeNode UnknownKeyword))
              end
            else if json_eqb_str "integer" type || json_eqb_str "number" type
            then ret (KeywordTypeNode NumberKeyword)
            else if json_eqb_str "string" type
            then ret (KeywordTypeNode StringKeyword)
            else if json_eqb_str "boolean" type
            then ret (KeywordTypeNode BooleanKeyword)
            else unknown_fallback schema
        | None =>
            match get schema "allOf" with
            | Some (JArr allOf) => bind (lift (merge_allOf allOf)) self
            | _ => unknown_fallback schema
            end
        end
    end
  else unknown_fallback schema.

(** The source recurses on values nested in the document; [fuel] bounds the
    depth of the calls, and running out of it is the engine's [RangeError]
    for an exhausted call stack. *)
Fixpoint makeTypeFromSchema_rec (fuel : nat) (schema : json) : gen TypeNode :=
  match fuel with
  | O => throw RangeError
  | S fuel => makeTypeFromSchema_body (makeTypeFromSchema_rec fuel) schema
  end.

(** A [json] value is a finite tree, what the parser returns for a document
    in which no schema refers back to a schema that encloses it; on such a
    value the calls nest no deeper than the value, and the stack is taken to
    hold them.  A reference back to an enclosing schema resolves to an
    object that contains itself: it is not a [json] value, and on it the
    calls of the source nest until the stack is exhausted, the outcome of
    [makeTypeFromSchema_rec] at a [fuel] the nesting exceeds. *)
Definition makeTypeFromSchema (schema : json) : gen TypeNode :=
  makeTypeFromSchema_rec (S (depth schema)) schema.

(** An outcome that is a value or a [TypeError]. *)
Definition value_or_TypeError {A} (m : gen A) : Prop :=
  match fst m with
  | Ok _ | Throw TypeError => True
  | Throw _ => False
  end.

Definition field_name (member : TypeElement) : string :=
  match member with
  | PropertySignature name _ _ | MethodSignature name _ => name
  end.

(** Whether the member carries the question token. *)
Definition field_optional (member : TypeElement) : bool :=
  match member with
  | PropertySignature _ questionToken _ => questionToken
  | MethodSignature _ _ => false
  end.

End TypeMapper.

(* ===================================================================== *)
(** * Operation Synthesizer *)
(* ===================================================================== *)

Module Synthesizer.
Import JS TypeMapper PathTemplate.

(** The argument of [makeOperationFunction], with the types the source
    declares; an absent optional field is [None]. *)
Record OperationConfig := {
  operationId : string;
  path : string;
  method : string;
  baseUrl : option string;
  summary : option string;
  description : option string;
  responses : json
}.

Definition methodHasBody (method : string) : bool :=
  existsb (String.eqb method) ["POST"; "PUT"; "PATCH"].

(** The schema [isJSONResponse] finds at
    [response.content['application/json'].schema], each level being a
    non-null object. *)
Definition json_response_schema (response : json) : option json :=
  if is_object response then
    match object_member response "content" with
    | Some content =>
        match object_member content "application/json" with
        | Some media => object_member media "schema"
        | None => None
        end
    | None => None
    end
  else None.

Definition isJSONResponse (response : json) : bool :=
  match json_response_schema response with Some _ => true | None => false end.

(** The entry declares an [application/json] body, in the words of the
    specification: its [content] lists that media type. *)
Definition declares_json_body (response : json) : bool :=
  match get response "content" with
  | Some content =>
      match get content "application/json" with
      | Some _ => true
      | None => false
      end
  | None => false
  end.

(** [response.content['application/json'].schema] *)
Definition response_schema (response : json) : json :=
  read (read (read response "content") "application/json") "schema".

Definition makeDynamicBaseUrl (value : string) : Expression :=
  let (part0, parts) := split_on "." value in
  match parts with
  | [] => EIdentifier part0
  | part1 :: parts' =>
      fold_left PropertyAccessExpression parts'
                (PropertyAccessExpression (EIdentifier part0) part1)
  end.

(** The root identifier and the member names of a chain [root.n1.n2...]. *)
Fixpoint access_chain (e : Expression) : option (string * list string) :=
  match e with
  | EIdentifier root => Some (root, [])
  | PropertyAccessExpression e' name =>
      match access_chain e' with
      | Some (root, names) => Some (root, (names ++ [name])%list)
      | None => None
      end
  | _ => None
  end.

Definition makeOperationFunctionReturnType (responses : json) : gen TypeNode :=
  bind (lift (values responses)) (fun all =>
  let jsonResponses := filter isJSONResponse all in
  bind (mapM (fun response => makeTypeFromSchema (response_schema response))
             jsonResponses) (fun types =>
  ret (TypeReferenceNode "Promise"
         (Some [TypeReferenceNode "TypedResponse" (Some [UnionTypeNode types])])))).

Definition search_signature : TypeElement :=
  PropertySignature "search" true (KeywordTypeNode StringKeyword).

Definition json_accept : ObjectLiteralElement :=
  PropertyAssignment (NameStringLiteral "Accept") (StringLiteral "application/json").

Definition json_content_type : ObjectLiteralElement :=
  PropertyAssignment (NameStringLiteral "Content-Type")
                     (StringLiteral "application/json").

Section WithURL.
(** Whether [new URL(str)] returns rather than throws: the platform's
    parser of absolute URLs. *)
Variable URL_parses : string -> bool.

Definition isValidURL (str : string) : bool := URL_parses str.

(** The second argument of [new URL(...)] in the emitted body;
    [config.baseUrl ? ... : ...] tests truthiness, which the empty string
    fails like [undefined]. *)
Definition base_argument (baseUrl : option string) : Expression :=
  match baseUrl with
  | Some value =>
      if negb (value =? "") then
        if isValidURL value then StringLiteral value
        else makeDynamicBaseUrl value
      else EIdentifier "undefined"
  | None => EIdentifier "undefined"
  end.

Definition operation_parameters (params : list string)
  : list ParameterDeclaration :=
  [ Parameter_
      (ObjectBindingPattern
         (if negb (Nat.eqb (length params) 0) then ["search"; "params"]
          else ["search"]))
      false
      (Some (TypeLiteralNode
         (if negb (Nat.eqb (length params) 0) then
            [ search_signature;
              PropertySignature "params" false
                (TypeReferenceNode "Record"
                   (Some [UnionTypeNode (map LiteralTypeNode params);
                          KeywordTypeNode StringKeyword])) ]
          else [ search_signature ])));
    Parameter_ (Identifier "requestInit") false
      (Some (TypeReferenceNode "Omit"
         (Some [TypeReferenceNode "RequestInit" None;
                LiteralTypeNode "method"]))) ].

(** The [fetch(url, {...})] expression of the emitted body. *)
Definition fetch_call (method : string) : Expression :=
  CallExpression (EIdentifier "fetch")
    [ EIdentifier "url";
      ObjectLiteralExpression
        [ PropertyAssignment (NameIdentifier "method") (StringLiteral method);
          PropertyAssignment (NameIdentifier "headers")
            (CallExpression (EIdentifier "combineHeaders")
               [ ObjectLiteralExpression
                   (if methodHasBody method
                    then [json_accept; json_content_type]
                    else [json_accept])
                   false;
                 PropertyAccessExpression (EIdentifier "requestInit") "headers" ]);
          SpreadAssignment (EIdentifier "requestInit") ]
        true ].

Definition operation_body (config : OperationConfig) : Statement :=
  Block
    [ VariableStatement "url"
        (NewExpression (EIdentifier "URL")
           [ makeTemplateExpressionFromPath (path config);
             base_argument (baseUrl config) ]);
      IfStatement (EIdentifier "search")
        (Block
           [ ExpressionStatement
               (BinaryExpression
                  (PropertyAccessExpression (EIdentifier "url") "search")
                  EqualsToken
                  (EIdentifier "search")) ]
           true)
        None;
      ReturnStatement (fetch_call (method config)) ]
    true.

Definition makeOperationFunction (config : OperationConfig) : gen Declaration :=
  let params := extractParams (path config) in
  bind (makeOperationFunctionReturnType (responses config)) (fun returnType =>
  ret (FunctionDeclaration true (operationId config)
         (operation_parameters params) returnType (operation_body config))).
End WithURL.

(** ** The signature the specification prescribes *)

(** The first parameter the policy prescribes for the extracted names. *)
Definition policy_first_parameter (names : list string) : ParameterDeclaration :=
  match names with
  | [] =>
      Parameter_ (ObjectBindingPattern ["search"]) false
        (Some (TypeLiteralNode
           [PropertySignature "search" true (KeywordTypeNode StringKeyword)]))
  | _ :: _ =>
      Parameter_ (ObjectBindingPattern ["search"; "params"]) false
        (Some (TypeLiteralNode
           [ PropertySignature "search" true (KeywordTypeNode StringKeyword);
             PropertySignature "params" false
               (TypeReferenceNode "Record"
                  (Some [UnionTypeNode (map LiteralTypeNode names);
                         KeywordTypeNode StringKeyword])) ]))
  end.

Definition request_options_parameter : ParameterDeclaration :=
  Parameter_ (Identifier "requestInit") false
    (Some (TypeReferenceNode "Omit"
       (Some [TypeReferenceNode "RequestInit" None; LiteralTypeNode "method"]))).

(** [TypedResponse<T = unknown> = Omit<Response, 'json'> & { json(): Promise<T> }] *)
Definition makeTypedResponseType : Declaration :=
  TypeAliasDeclaration "TypedResponse"
    [("T", KeywordTypeNode UnknownKeyword)]
    (IntersectionTypeNode
       [ TypeReferenceNode "Omit"
           (Some [TypeReferenceNode "Response" None; LiteralTypeNode "json"]);
         TypeLiteralNode
           [ MethodSignature "json"
               (TypeReferenceNode "Promise" (Some [TypeReferenceNode "T" None])) ] ]).

(** [combinedHeaders.set(key, value);] in a block *)
Definition set_combined : Statement :=
  Block
    [ ExpressionStatement
        (CallExpression
           (PropertyAccessExpression (EIdentifier "combinedHeaders") "set")
           [EIdentifier "key"; EIdentifier "value"]) ]
    true.

Definition plain_parameter (name : string) : ParameterDeclaration :=
  Parameter_ (Identifier name) false None.

Definition pair_parameter : ParameterDeclaration :=
  Parameter_ (ArrayBindingPattern ["key"; "value"]) false None.

Definition makeCombineHeadersFunction : Declaration :=
  FunctionDeclaration true "combineHeaders"
    [ Parameter_ (Identifier "defaultHeaders") false
        (Some (TypeReferenceNode "HeadersInit" None));
      Parameter_ (Identifier "headers") true
        (Some (TypeReferenceNode "HeadersInit" None)) ]
    (TypeReferenceNode "Headers" None)
    (Block
       [ VariableStatement "combinedHeaders"
           (NewExpression (EIdentifier "Headers") [EIdentifier "defaultHeaders"]);
         IfStatement (EIdentifier "headers")
           (Block
              [ IfStatement
                  (BinaryExpression (EIdentifier "headers") InstanceOfKeyword
                                    (EIdentifier "Headers"))
                  (Block
                     [ ExpressionStatement
                         (CallExpression
                            (PropertyAccessExpression (EIdentifier "headers") "forEach")
                            [ArrowFunction
                               [plain_parameter "value"; plain_parameter "key"]
                               set_combined]) ]
                     true)
                  (Some
                     (IfStatement
                        (CallExpression
                           (PropertyAccessExpression (EIdentifier "Array") "isArray")
                           [EIdentifier "headers"])
                        (Block
                           [ ExpressionStatement
                               (CallExpression
                                  (PropertyAccessExpression (EIdentifier "headers")
                                                            "forEach")
                                  [ArrowFunction [pair_parameter] set_combined]) ]
                           true)
                        (Some
                           (Block
                              [ ExpressionStatement
                                  (CallExpression
                                     (PropertyAccessExpression
                                        (CallExpression
                                           (PropertyAccessExpression
                                              (EIdentifier "Object") "entries")
                                           [EIdentifier "headers"])
                                        "forEach")
                                     [ArrowFunction [pair_parameter] set_combined]) ]
                              true)))) ]
              true)
           None;
         ReturnStatement (EIdentifier "combinedHeaders") ]
       true).

End Synthesizer.

(* ===================================================================== *)
(** * Document Walker: [getOptions] and [execute] *)
(* ===================================================================== *)

Module Walker.
Import JS TypeMapper Synthesizer.

Record Options := {
  input : option string;
  output : option string;
  base_url : option string      (* [baseUrl] *)
}.

(** The flag/value pairs the [for (i = 0; i < args.length; i += 2)] loop
    visits. *)
Fixpoint flag_pairs (args : list string) : list (string * string) :=
  match args with
  | flag :: value :: args' => (flag, value) :: flag_pairs args'
  | _ => []
  end.

(** [parsedArgs[flag] = value]: an assignment, so the key [__proto__] reaches
    the prototype setter, which ignores a string, and creates no property. *)
Definition assign_flag (parsedArgs : obj string) (kv : string * string)
  : obj string :=
  if fst kv =? "__proto__" then parsedArgs
  else obj_set (fst kv) (snd kv) parsedArgs.

Definition getOptions (args : list string) : result Options :=
  if negb (Nat.eqb (Nat.modulo (length args) 2) 0) then
    Throw (Error "Invalid number of arguments")
  else
    let parsedArgs := fold_left assign_flag (flag_pairs args) [] in
    Ok {| input := obj_get "--input" parsedArgs;
          output := obj_get "--output" parsedArgs;
          base_url := obj_get "--base-url" parsedArgs |}.

(** ** Walking the paths *)

(** The three checks on [pathItem[method]]. *)
Definition check_operation (operation : json) : result unit :=
  if is_array operation then Throw (Error "Operation is an array")
  else match operation with
       | JStr _ => Throw (Error "Operation is a string")
       | _ =>
           match js_in "operationId" operation with
           | Ok true => Ok tt
           | Ok false => Throw (Error "No operationId")
           | Throw e => Throw e
           end
       end.

(** [{ path, method: method.toUpperCase(), ...operation }] *)
Definition operation_config (path method : string) (operation : json)
  : result (obj json) :=
  match check_operation operation with
  | Ok _ =>
      match entries operation with
      | Ok members =>
          Ok (obj_assign members
                [("path", JStr path); ("method", JStr (toUpperCase method))])
      | Throw e => Throw e
      end
  | Throw e => Throw e
  end.

(** The inner [Object.keys(pathItem).map(...)]. *)
Definition path_configs (paths : json) (path : string)
  : result (list (obj json)) :=
  let pathItem := read paths path in
  match keys pathItem with
  | Ok methods =>
      mapR (fun method => operation_config path method (read pathItem method))
           methods
  | Throw e => Throw e
  end.

(** [operationConfigs] *)
Definition collect_configs (paths : json) : result (list (obj json)) :=
  match getOwnPropertyNames paths with
  | Ok names =>
      match mapR (path_configs paths) names with
      | Ok nested => Ok (concat nested)
      | Throw e => Throw e
      end
  | Throw e => Throw e
  end.

(** [operation] is the entry the walk reaches under [paths[path][method]]. *)
Definition walked (paths : json) (path method : string) (operation : json)
  : Prop :=
  exists names methods,
    getOwnPropertyNames paths = Ok names /\ In path names /\
    keys (read paths path) = Ok methods /\ In method methods /\
    operation = read (read paths path) method.

(** The malformed entries of the taxonomy: an array, a bare string, an
    object without [operationId]. *)
Definition fatal_entry (operation : json) : Prop :=
  (exists elements, operation = JArr elements) \/
  (exists s, operation = JStr s) \/
  (exists members, operation = JObj members /\
                   obj_get "operationId" members = None).

(** [e] is thrown at some entry of the walk: by the checks on it, or by
    listing the keys of a path item that is [null]. *)
Definition raised_by_walk (paths : json) (e : error) : Prop :=
  (exists names path,
      getOwnPropertyNames paths = Ok names /\ In path names /\
      keys (read paths path) = Throw e) \/
  (exists path method operation,
      walked paths path method operation /\ check_operation operation = Throw e).

(** ** Synthesizing the declarations *)

(** A member read at the type [string | undefined]. *)
Definition optional_string (raw : obj json) (k : string)
  : option (option string) :=
  match obj_get k raw with
  | None | Some JUndefined => Some None
  | Some (JStr s) => Some (Some s)
  | Some _ => None
  end.

Definition required_string (raw : obj json) (k : string) : option string :=
  match obj_get k raw with
  | Some (JStr s) => Some s
  | _ => None
  end.

(** [{ baseUrl: options.baseUrl, ...config }] read at the type the source
    asserts for it ([operation as { operationId: string; ... }]); [None] when
    the document does not have that type. *)
Definition typed_config (options : Options) (raw : obj json)
  : option OperationConfig :=
  let merged :=
      obj_assign raw
        [("baseUrl", match base_url options with
                     | Some s => JStr s
                     | None => JUndefined
                     end)] in
  match required_string merged "operationId",
        required_string merged "path",
        required_string merged "method",
        optional_string merged "baseUrl",
        optional_string merged "summary",
        optional_string merged "description" with
  | Some operationId, Some path, Some method,
    Some baseUrl, Some summary, Some description =>
      Some {| operationId := operationId; path := path; method := method;
              baseUrl := baseUrl; summary := summary; description := description;
              responses := match obj_get "responses" merged with
                           | Some r => r
                           | None => JUndefined
                           end |}
  | _, _, _, _, _, _ => None
  end.

Fixpoint all_typed (options : Options) (raws : list (obj json))
  : option (list OperationConfig) :=
  match raws with
  | [] => Some []
  | raw :: raws' =>
      match typed_config options raw, all_typed options raws' with
      | Some config, Some configs => Some (config :: configs)
      | _, _ => None
      end
  end.

Definition newline : string := String (ascii_of_nat 10) "".

(** [if (config.summary) ...]: the empty string is falsy. *)
Definition doc_tag (tag : string) (text : option string) : list string :=
  match text with
  | Some s => if negb (s =? "") then [tag ++ " " ++ s] else []
  | None => []
  end.

Section WithPlatform.
Variable URL_parses : string -> bool.
(** [resolve(process.cwd(), p)] and [dirname] of [path]. *)
Variable resolve_cwd : string -> string.
Variable dirname : string -> string.
(** [SwaggerParser.dereference]: the resolved document, or a rejection. *)
Variable dereference : string -> result json.
(** [printer.printFile] on the statements of the result file. *)
Variable printFile : list Declaration -> string.
(** What the factory and the printer make of configurations that do not
    have the type the source asserts for them (a [summary] that is a number,
    say): the text printed for them, or the error thrown on the way, and
    what was handed to [console.warn].  The source runs the same statements
    on them, without a test of the type; what these do on such values is
    the library's affair and is left open. *)
Variable untyped_output : Options -> list (obj json) -> result string * list json.

(** The callback of [operationConfigs.map(...)] in the statement list. *)
Definition operation_nodes (config : OperationConfig) : gen (list Declaration) :=
  let jsDocNodes :=
      (doc_tag "@summary" (summary config)
         ++ doc_tag "@description" (description config))%list in
  let doc := if negb (Nat.eqb (length jsDocNodes) 0)
             then [JSDocComment (String.concat newline jsDocNodes)]
             else [] in
  bind (makeOperationFunction URL_parses config) (fun declaration =>
  ret (doc ++ [declaration])%list).

Definition statements (configs : list OperationConfig)
  : gen (list Declaration) :=
  bind (mapM operation_nodes configs) (fun nested =>
  ret (makeTypedResponseType :: makeCombineHeadersFunction :: concat nested)).

(** What a run leaves behind: created directories and written files,
    latest first.  Failures of [mkdir] and [writeFile] themselves are not
    modelled. *)
Record FileSystem := {
  directories : list string;
  files : list (string * string)
}.

Inductive Outcome :=
| Completed
| Aborted (e : error).

Definition require_path (p : option string) : result string :=
  match p with
  | Some s => Ok (resolve_cwd s)
  | None => Throw TypeError          (* [resolve] wants strings *)
  end.

(** The end of a run: the text is written, or the error ends the run
    before [mkdir] and [writeFile] are reached. *)
Definition write_result (outputPath : string) (fs : FileSystem)
           (output : result string * list json)
  : Outcome * FileSystem * list json :=
  match output with
  | (Throw e, console) => (Aborted e, fs, console)
  | (Ok result, console) =>
      (Completed,
       {| directories := dirname outputPath :: directories fs;
          files := (outputPath, result) :: files fs |},
       console)
  end.

Definition execute (args : list string) (fs : FileSystem)
  : Outcome * FileSystem * list json :=
  match getOptions args with
  | Throw e => (Aborted e, fs, [])
  | Ok options =>
      match require_path (input options) with
      | Throw e => (Aborted e, fs, [])
      | Ok inputPath =>
      match require_path (output options) with
      | Throw e => (Aborted e, fs, [])
      | Ok outputPath =>
      match dereference inputPath with
      | Throw e => (Aborted e, fs, [])
      | Ok inputDocument =>
      if nullish inputDocument then (Aborted TypeError, fs, [])
      else if negb (truthy (read inputDocument "paths")) then
        (Aborted (Error "No paths"), fs, [])
      else
        match collect_configs (read inputDocument "paths") with
        | Throw e => (Aborted e, fs, [])
        | Ok operationConfigs =>
            write_result outputPath fs
              match all_typed options operationConfigs with
              | Some configs =>
                  match statements configs with
                  | (Throw e, console) => (Throw e, console)
                  | (Ok nodes, console) => (Ok (printFile nodes), console)
                  end
              | None => untyped_output options operationConfigs
              end
        end
      end end end
  end.
End WithPlatform.

End Walker.

(* ===================================================================== *)
(** * The platform the emitted code runs on *)
(* ===================================================================== *)

(** ** The [Headers] class

    A header list as the Fetch standard specifies it, seen through the
    methods of [Headers]: every method compares names without regard to case
    and shows them in lower case, so names are kept in lower case. *)
Module Headers.
Import JS.

Definition lower_char (c : ascii) : ascii :=
  let n := nat_of_ascii c in
  if Nat.leb 65 n && Nat.leb n 90 then ascii_of_nat (n + 32) else c.

Fixpoint toLowerCase (s : string) : string :=
  match s with
  | EmptyString => EmptyString
  | String c s' => String (lower_char c) (toLowerCase s')
  end.

Fixpoint forallb_string (p : ascii -> bool) (s : string) : bool :=
  match s with
  | EmptyString => true
  | String c s' => p c && forallb_string p s'
  end.

(** The characters of a token: letters, digits and
    [! # $ % & ' * + - . ^ _ ` | ~]. *)
Definition is_tchar (c : ascii) : bool :=
  let n := nat_of_ascii c in
  (Nat.leb 48 n && Nat.leb n 57) || (Nat.leb 65 n && Nat.leb n 90)
  || (Nat.leb 97 n && Nat.leb n 122)
  || existsb (Nat.eqb n) [33; 35; 36; 37; 38; 39; 42; 43; 45; 46; 94; 95; 96; 124; 126].

Definition valid_name (name : string) : bool :=
  negb (name =? "") && forallb_string is_tchar name.

(** Tab, line feed, carriage return and space. *)
Definition is_http_whitespace (c : ascii) : bool :=
  existsb (Nat.eqb (nat_of_ascii c)) [9; 10; 13; 32].

Fixpoint strip_leading (s : string) : string :=
  match s with
  | EmptyString => EmptyString
  | String c s' => if is_http_whitespace c then strip_leading s' else s
  end.

Fixpoint strip_trailing (s : string) : string :=
  match s with
  | EmptyString => EmptyString
  | String c s' =>
      match strip_trailing s' with
      | EmptyString => if is_http_whitespace c then EmptyString
                       else String c EmptyString
      | rest => String c rest
      end
  end.

Definition normalize (value : string) : string :=
  strip_trailing (strip_leading value).

(** No NUL, line feed or carriage return.  The platform converts a value
    to a byte string first and throws its [TypeError] on a code unit above
    255; the strings here have none. *)
Definition valid_value (value : string) : bool :=
  forallb_string
    (fun c => negb (existsb (Nat.eqb (nat_of_ascii c)) [0; 10; 13])) value.

Definition header_list := list (string * string).

Definition contains (name : string) (h : header_list) : bool :=
  existsb (fun kv => fst kv =? toLowerCase name) h.

(** The values of [name], in order. *)
Definition values_of (name : string) (h : header_list) : list string :=
  map snd (filter (fun kv => fst kv =? toLowerCase name) h).

(** [get]: the values of the name joined by a comma and a space. *)
Definition get (name : string) (h : header_list) : option string :=
  match values_of name h with
  | [] => None
  | vs => Some (String.concat ", " vs)
  end.

Definition checked (name value : string) (k : string -> string -> header_list)
  : result header_list :=
  let value := normalize value in
  if valid_name name && valid_value value then Ok (k (toLowerCase name) value)
  else Throw TypeError.

(** [append] *)
Definition append (name value : string) (h : header_list) : result header_list :=
  checked name value (fun name value => (h ++ [(name, value)])%list).

(** Set the first header of the name to the value and remove the others. *)
Fixpoint replace_first (name value : string) (h : header_list) : header_list :=
  match h with
  | [] => []
  | (k, v) :: h' =>
      if k =? name then (k, value) :: filter (fun kv => negb (fst kv =? name)) h'
      else (k, v) :: replace_first name value h'
  end.

(** [set] *)
Definition set (name value : string) (h : header_list) : result header_list :=
  checked name value (fun name value =>
    if existsb (fun kv => fst kv =? name) h then replace_first name value h
    else (h ++ [(name, value)])%list).

(** The names of the list in ascending order, each once. *)
Fixpoint insert_name (name : string) (sorted : list string) : list string :=
  match sorted with
  | [] => [name]
  | n :: sorted' =>
      if name =? n then sorted
      else if String.ltb name n then name :: sorted
      else n :: insert_name name sorted'
  end.

Definition sorted_names (h : header_list) : list string :=
  fold_right insert_name [] (map fst h).

(** The iteration order of a [Headers] object ("sort and combine"): names
    ascending, the values of a name combined, those of [set-cookie] kept
    apart. *)
Definition iterate (h : header_list) : list (string * string) :=
  flat_map
    (fun name =>
       if name =? "set-cookie" then map (fun v => (name, v)) (values_of name h)
       else match get name h with
            | Some v => [(name, v)]
            | None => []
            end)
    (sorted_names h).

(** The fill of a new object from name/value pairs. *)
Fixpoint fill (pairs : list (string * string)) (h : header_list)
  : result header_list :=
  match pairs with
  | [] => Ok h
  | (name, value) :: pairs' =>
      match append name value h with
      | Ok h' => fill pairs' h'
      | Throw e => Throw e
      end
  end.

(** Setting entries one after the other, as the loops of the helper do. *)
Fixpoint set_all (pairs : list (string * string)) (h : header_list)
  : result header_list :=
  match pairs with
  | [] => Ok h
  | (name, value) :: pairs' =>
      match set name value h with
      | Ok h' => set_all pairs' h'
      | Throw e => Throw e
      end
  end.

End Headers.
(** ** Running the emitted code

    A definitional interpreter for the statements and expressions the
    generator emits.  Objects are values: the emitted code mutates only
    objects it has created itself with [new] and holds in one variable
    ([combinedHeaders], [url]), so no alias is lost.

    What runs is the text the printer writes for the tree.  The printer
    writes an identifier, a member name and the text of a template part as
    they are, without a check, so a node is run only when its text reads
    back as the node: a name has to be an identifier, and the text of a
    template part has to be free of what a template reads otherwise
    (a backslash, a backtick, a carriage return, the opening of a
    substitution).  On any other node the interpreter gives no answer. *)
Module Runtime.
Import JS.

Inductive value :=
| VUndefined
| VBool (b : bool)
| VString (s : string)
| VArray (elements : list value)
| VObject (members : obj value)
| VHeaders (list : Headers.header_list)
| VURL (url : string) (base : value) (search : option value)
| VFetch (input : value) (init : value).   (* the promise of a [fetch] call *)

Definition Env := list (string * value).

(** The interpreter answers [None] when it runs out of fuel or meets a
    construct outside the emitted subset. *)
Definition M (A : Type) := option (result A).

Definition mret {A} (a : A) : M A := Some (Ok a).
Definition mthrow {A} (e : error) : M A := Some (Throw e).
Definition mlift {A} (r : result A) : M A := Some r.

Definition mbind {A B} (m : M A) (f : A -> M B) : M B :=
  match m with
  | Some (Ok a) => f a
  | Some (Throw e) => Some (Throw e)
  | None => None
  end.

Notation "x <- m ;; k" := (mbind m (fun x => k))
  (at level 61, m at next level, right associativity).
Notation "' p <- m ;; k" := (mbind m (fun x => let 'p := x in k))
  (at level 61, p pattern, m at next level, right associativity).

(** ** Text that reads back

    The ASCII identifier names: a letter, [$] or [_], then letters, digits,
    [$] and [_].  Names with other characters are left to the nodes the
    interpreter does not answer on. *)
Definition identifier_start (c : ascii) : bool :=
  PathTemplate.has_char c "abcdefghijklmnopqrstuvwxyzABCDEFGHIJKLMNOPQRSTUVWXYZ$_".

Definition identifier_part (c : ascii) : bool :=
  identifier_start c || PathTemplate.has_char c "0123456789".

Definition identifier_name (s : string) : bool :=
  match s with
  | EmptyString => false
  | String c s' => identifier_start c && Headers.forallb_string identifier_part s'
  end.

(** Words that cannot name a function or a variable of a module. *)
Definition reserved_words : list string :=
  ["arguments"; "await"; "break"; "case"; "catch"; "class"; "const"; "continue";
   "debugger"; "default"; "delete"; "do"; "else"; "enum"; "eval"; "export";
   "extends"; "false"; "finally"; "for"; "function"; "if"; "implements";
   "import"; "in"; "instanceof"; "interface"; "let"; "new"; "null"; "package";
   "private"; "protected"; "public"; "return"; "static"; "super"; "switch";
   "this"; "throw"; "true"; "try"; "typeof"; "var"; "void"; "while"; "with";
   "yield"].

Definition binding_identifier (s : string) : bool :=
  identifier_name s && negb (existsb (String.eqb s) reserved_words).

(** The text of a template part that reads as itself: no backslash (an
    escape), no backtick (the end of the template), no carriage return (read
    as a line feed), and no [$] before [{] (a substitution). *)
Fixpoint template_text (s : string) : bool :=
  match s with
  | EmptyString => true
  | String c s' =>
      negb (PathTemplate.has_char c (String "013" (String "092" (String "096" ""))))
      && negb ((c =? "$")%char
               && match s' with
                  | String d _ => (d =? "{")%char
                  | EmptyString => false
                  end)
      && template_text s'
  end.

(** A property name written as an identifier has to be one; one written as
    a string literal is escaped by the printer. *)
Definition property_name_reads_back (name : PropertyName) : bool :=
  match name with
  | NameIdentifier s => identifier_name s
  | NameStringLiteral _ => true
  end.

(** ** A file that reads back

    The emitted file runs only if it reads back as a module.  The checks
    below are those of the texts the printer writes as they are: the names
    (of functions, variables, members of a type literal, members read), the
    texts of template parts and of comments; a union or an intersection has
    to list a type, because nothing is printed for an empty one. *)
Fixpoint type_reads_back (t : TypeNode) : bool :=
  match t with
  | KeywordTypeNode _ => true
  | TypeLiteralNode members => forallb member_reads_back members
  | ArrayTypeNode elementType => type_reads_back elementType
  | TypeReferenceNode typeName typeArguments =>
      identifier_name typeName
      && match typeArguments with
         | Some types => forallb type_reads_back types
         | None => true
         end
  | UnionTypeNode types | IntersectionTypeNode types =>
      negb (Nat.eqb (length types) 0) && forallb type_reads_back types
  | LiteralTypeNode _ => true
  end
with member_reads_back (member : TypeElement) : bool :=
  match member with
  | PropertySignature name _ type | MethodSignature name type =>
      identifier_name name && type_reads_back type
  end.

Definition parameter_reads_back (p : ParameterDeclaration) : bool :=
  match p with
  | Parameter_ name _ type =>
      match name with
      | Identifier x => binding_identifier x
      | ObjectBindingPattern names | ArrayBindingPattern names =>
          forallb binding_identifier names
      end
      && match type with
         | Some t => type_reads_back t
         | None => true
         end
  end.

Fixpoint expression_reads_back (e : Expression) : bool :=
  match e with
  | EIdentifier x => binding_identifier x
  | StringLiteral _ => true
  | PropertyAccessExpression e1 name =>
      expression_reads_back e1 && identifier_name name
  | TemplateExpression head spans =>
      match head with
      | Some h => template_text h
      | None => false
      end
      && forallb (fun span =>
                    match span with
                    | (e1, TemplateMiddle (Some literal))
                    | (e1, TemplateTail (Some literal)) =>
                        expression_reads_back e1 && template_text literal
                    | _ => false
                    end) spans
  | NewExpression e1 args | CallExpression e1 args =>
      expression_reads_back e1 && forallb expression_reads_back args
  | ObjectLiteralExpression properties _ =>
      forallb element_reads_back properties
  | BinaryExpression l _ r => expression_reads_back l && expression_reads_back r
  | ArrowFunction parameters body =>
      forallb parameter_reads_back parameters && statement_reads_back body
  end
with element_reads_back (element : ObjectLiteralElement) : bool :=
  match element with
  | PropertyAssignment name e1 =>
      property_name_reads_back name && expression_reads_back e1
  | SpreadAssignment e1 => expression_reads_back e1
  end
with statement_reads_back (s : Statement) : bool :=
  match s with
  | VariableStatement x e => binding_identifier x && expression_reads_back e
  | IfStatement e thenStatement elseStatement =>
      expression_reads_back e && statement_reads_back thenStatement
      && match elseStatement with
         | Some s' => statement_reads_back s'
         | None => true
         end
  | ExpressionStatement e | ReturnStatement e => expression_reads_back e
  | Block statements _ => forallb statement_reads_back statements
  end.

(** The text of a comment does not end the comment. *)
Fixpoint comment_text (s : string) : bool :=
  match s with
  | EmptyString => true
  | String c s' =>
      negb ((c =? "*")%char
            && match s' with
               | String d _ => (d =? "/")%char
               | EmptyString => false
               end)
      && comment_text s'
  end.

Definition declaration_reads_back (d : Declaration) : bool :=
  match d with
  | FunctionDeclaration _ name parameters type body =>
      binding_identifier name && forallb parameter_reads_back parameters
      && type_reads_back type && statement_reads_back body
  | TypeAliasDeclaration name typeParameters type =>
      binding_identifier name
      && forallb (fun p => binding_identifier (fst p) && type_reads_back (snd p))
                 typeParameters
      && type_reads_back type
  | JSDocComment comment => comment_text comment
  end.

(** The names of the functions a file declares, all of them exported. *)
Definition declared_functions (program : list Declaration) : list string :=
  flat_map (fun d => match d with
                     | FunctionDeclaration _ name _ _ _ => [name]
                     | _ => []
                     end) program.

Fixpoint distinct (names : list string) : bool :=
  match names with
  | [] => true
  | name :: names' => negb (existsb (String.eqb name) names') && distinct names'
  end.

(** Every declaration reads back, and no name is exported twice. *)
Definition file_reads_back (program : list Declaration) : bool :=
  forallb declaration_reads_back program && distinct (declared_functions program).

Definition truthy (v : value) : bool :=
  match v with
  | VUndefined => false
  | VBool b => b
  | VString s => negb (s =? "")
  | _ => true
  end.

Fixpoint char_values (s : string) : list value :=
  match s with
  | EmptyString => []
  | String c s' => VString (String c "") :: char_values s'
  end.

(** The own enumerable properties of a value. *)
Definition own_entries (v : value) : result (list (string * value)) :=
  match v with
  | VUndefined => Throw TypeError
  | VObject o => Ok o
  | VArray l => Ok (indexed l)
  | VString s => Ok (indexed (char_values s))
  | _ => Ok []
  end.

(** The names every object inherits from [Object.prototype]. *)
Definition inherited_name (name : string) : bool :=
  existsb (String.eqb name)
    ["constructor"; "hasOwnProperty"; "isPrototypeOf"; "propertyIsEnumerable";
     "toLocaleString"; "toString"; "valueOf"; "__proto__";
     "__defineGetter__"; "__defineSetter__"; "__lookupGetter__";
     "__lookupSetter__"].

(** [o.name] for an object [o], which stands for its own members: a name
    it does not hold reads as [undefined] unless it is inherited, where the
    interpreter gives no answer. *)
Definition own_member (o : obj value) (name : string) : M value :=
  match obj_get name o with
  | Some x => mret x
  | None => if inherited_name name then None else mret VUndefined
  end.

(** [v.name] *)
Definition get_member (v : value) (name : string) : M value :=
  match v with
  | VUndefined => mthrow TypeError
  | VObject o => own_member o name
  | VURL _ _ search =>
      if name =? "search"
      then mret match search with Some s => s | None => VString "" end
      else None
  | _ => None
  end.

(** [x.name = v] for the object held by a variable. *)
Definition set_member (target : value) (name : string) (v : value) : M value :=
  match target with
  | VUndefined => mthrow TypeError
  | VObject o => mret (VObject (obj_set name v o))
  | VURL url base _ =>
      if name =? "search" then mret (VURL url base (Some v)) else None
  | _ => None
  end.

Fixpoint update (x : string) (v : value) (env : Env) : Env :=
  match env with
  | [] => []
  | (y, w) :: env' => if y =? x then (y, v) :: env' else (y, w) :: update x v env'
  end.

(** A name/value pair handed to [Headers]: two strings. *)
Definition string_pair (v : value) : M (string * string) :=
  match v with
  | VArray [VString name; VString value] => mret (name, value)
  | VArray [_; _] => None                   (* conversion to strings *)
  | _ => mthrow TypeError
  end.

Fixpoint mapM {A B} (f : A -> M B) (l : list A) : M (list B) :=
  match l with
  | [] => mret []
  | x :: l' => y <- f x ;; ys <- mapM f l' ;; mret (y :: ys)
  end.

Definition string_member (kv : string * value) : M (string * string) :=
  match snd kv with
  | VString value => mret (fst kv, value)
  | _ => None                               (* conversion to a string *)
  end.

(** The name/value pairs of a [HeadersInit]. *)
Definition init_pairs (init : value) : M (list (string * string)) :=
  match init with
  | VUndefined => mret []
  | VHeaders h => mret (Headers.iterate h)
  | VArray pairs => mapM string_pair pairs
  | VObject o => mapM string_member o
  | _ => mthrow TypeError
  end.

(** [new Headers(init)] *)
Definition new_Headers (init : value) : M value :=
  pairs <- init_pairs init ;;
  h <- mlift (Headers.fill pairs []) ;;
  mret (VHeaders h).

(** What [forEach] hands to its callback, call after call. *)
Definition forEach_calls (receiver : value) : M (list (list value)) :=
  match receiver with
  | VHeaders h =>
      mret (map (fun kv => [VString (snd kv); VString (fst kv)])
                (Headers.iterate h))
  | VArray l => mret (map (fun x => [x]) l)
  | VUndefined => mthrow TypeError
  | _ => None
  end.

Fixpoint foreach {S A} (step : S -> A -> M S) (items : list A) (s : S) : M S :=
  match items with
  | [] => mret s
  | item :: items' => s' <- step s item ;; foreach step items' s'
  end.

Definition nth_value (l : list value) (i : nat) : value :=
  nth i l VUndefined.

Fixpoint bind_elements (names : list string) (i : nat) (l : list value) : Env :=
  match names with
  | [] => []
  | name :: names' => (name, nth_value l i) :: bind_elements names' (S i) l
  end.

(** The variables a parameter receives from its argument. *)
Definition bind_parameter (p : ParameterDeclaration) (v : value) : M Env :=
  match p with
  | Parameter_ (Identifier x) _ _ => mret [(x, v)]
  | Parameter_ (ObjectBindingPattern names) _ _ =>
      match v with
      | VUndefined => mthrow TypeError
      | VObject o =>
          mapM (fun name => x <- own_member o name ;; mret (name, x)) names
      | _ => None
      end
  | Parameter_ (ArrayBindingPattern names) _ _ =>
      match v with
      | VUndefined => mthrow TypeError
      | VArray l => mret (bind_elements names 0 l)
      | _ => None
      end
  end.

Fixpoint bind_parameters (ps : list ParameterDeclaration) (args : list value)
  : M Env :=
  match ps with
  | [] => mret []
  | p :: ps' =>
      b <- bind_parameter p (hd VUndefined args) ;;
      bs <- bind_parameters ps' (tl args) ;;
      mret (bs ++ b)%list
  end.

Fixpoint find_function (name : string) (program : list Declaration)
  : option (list ParameterDeclaration * Statement) :=
  match program with
  | [] => None
  | FunctionDeclaration _ f parameters _ body :: program' =>
      match find_function name program' with
      | Some later => Some later
      | None => if f =? name then Some (parameters, body) else None
      end
  | _ :: program' => find_function name program'
  end.

Inductive Completion :=
| Normal
| Returned (v : value).

Definition property_key (name : PropertyName) : string :=
  match name with NameIdentifier s | NameStringLiteral s => s end.

(** The text a template span contributes. *)
Definition to_text (v : value) : M string :=
  match v with
  | VString s => mret s
  | VUndefined => mret "undefined"
  | _ => None
  end.

(** The value of a template whose head has given [text]: each span adds the
    text of its expression and its literal part. *)
Fixpoint template_value (evaluate : Env -> Expression -> M (value * Env))
         (env : Env) (spans : list (Expression * TemplateLiteralPart))
         (text : string) : M (value * Env) :=
  match spans with
  | [] => mret (VString text, env)
  | (e1, TemplateMiddle (Some literal)) :: spans'
  | (e1, TemplateTail (Some literal)) :: spans' =>
      if template_text literal then
        '(v, env1) <- evaluate env e1 ;;
        s <- to_text v ;;
        template_value evaluate env1 spans' (text ++ s ++ literal)
      else None
  | _ => None
  end.

Section Program.
(** Whether [new URL(url, base)] returns rather than throws: the parser of
    the platform the emitted code runs on. *)
Variable URL_accepts : string -> value -> bool.
(** The declarations of the emitted file. *)
Variable program : list Declaration.

(** A name of the platform ([URL], [Headers], [Object], [Array],
    [undefined]) refers to the platform's where the file declares no
    function of that name; a function the file declares (an operation may
    be named so) takes its place, and the interpreter gives no answer. *)
Definition platform_name (name : string) : bool :=
  match find_function name program with
  | Some _ => false
  | None => true
  end.

(** A call of the function [f] that the program declares; [run] executes
    its body. *)
Definition invoke (run : Env -> Statement -> M (Completion * Env))
           (f : string) (args : list value) : M value :=
  match find_function f program with
  | Some (parameters, body) =>
      if binding_identifier f then
        locals <- bind_parameters parameters args ;;
        '(c, _) <- run locals body ;;
        mret match c with Returned v => v | Normal => VUndefined end
      else None
  | None => None
  end.

Fixpoint eval (fuel : nat) (env : Env) (e : Expression) {struct fuel}
  : M (value * Env) :=
  match fuel with
  | O => None
  | S fuel =>
      let eval_list :=
          fix eval_list (env : Env) (es : list Expression) : M (list value * Env) :=
            match es with
            | [] => mret ([], env)
            | e :: es' =>
                '(v, env1) <- eval fuel env e ;;
                '(vs, env2) <- eval_list env1 es' ;;
                mret (v :: vs, env2)
            end in
      (* a call of [parameters => body] in the scope [env] *)
      let call_arrow parameters body (env : Env) (args : list value) : M Env :=
          locals <- bind_parameters parameters args ;;
          '(_, env') <- exec fuel (locals ++ env)%list body ;;
          mret (skipn (length locals) env') in
      match e with
      | EIdentifier x =>
          if identifier_name x then
            match obj_get x env with
            | Some v => mret (v, env)
            | None =>
                if (x =? "undefined") && platform_name x
                then mret (VUndefined, env) else None
            end
          else None
      | StringLiteral s => mret (VString s, env)
      | PropertyAccessExpression e1 name =>
          if identifier_name name then
            '(v, env1) <- eval fuel env e1 ;;
            v' <- get_member v name ;;
            mret (v', env1)
          else None
      | TemplateExpression head spans =>
          match head with
          | Some h =>
              if template_text h then template_value (eval fuel) env spans h
              else None
          | None => None
          end
      | NewExpression (EIdentifier c) args =>
          match obj_get c env with
          | Some _ => None
          | None =>
              if platform_name c then
                '(vs, env1) <- eval_list env args ;;
                if c =? "Headers" then
                  v <- new_Headers (hd VUndefined vs) ;; mret (v, env1)
                else if c =? "URL" then
                  match vs with
                  | VString url :: base :: _ =>
                      if URL_accepts url base then mret (VURL url base None, env1)
                      else mthrow TypeError
                  | _ => None
                  end
                else None
              else None
          end
      | NewExpression _ _ => None
      | CallExpression (PropertyAccessExpression receiver name) args =>
          if name =? "forEach" then
            match args with
            | [ArrowFunction parameters body] =>
                '(r, env1) <- eval fuel env receiver ;;
                calls <- forEach_calls r ;;
                env2 <- foreach (call_arrow parameters body) calls env1 ;;
                mret (VUndefined, env2)
            | _ => None
            end
          else
            match receiver with
            | EIdentifier x =>
                match obj_get x env with
                | Some (VHeaders h) =>
                    if name =? "set" then
                      '(vs, env1) <- eval_list env args ;;
                      match vs with
                      | VString k :: VString v :: _ =>
                          h' <- mlift (Headers.set k v h) ;;
                          mret (VUndefined, update x (VHeaders h') env1)
                      | _ => None
                      end
                    else None
                | Some _ => None
                | None =>
                    '(vs, env1) <- eval_list env args ;;
                    if negb (platform_name x) then None
                    else if (x =? "Array") && (name =? "isArray") then
                      mret (VBool match hd VUndefined vs with
                                  | VArray _ => true
                                  | _ => false
                                  end, env1)
                    else if (x =? "Object") && (name =? "entries") then
                      es <- mlift (own_entries (hd VUndefined vs)) ;;
                      mret (VArray (map (fun kv => VArray [VString (fst kv); snd kv]) es),
                            env1)
                    else None
                end
            | _ => None
            end
      | CallExpression (EIdentifier f) args =>
          match obj_get f env with
          | Some _ => None
          | None =>
              '(vs, env1) <- eval_list env args ;;
              match find_function f program with
              | Some _ =>
                  v <- invoke (exec fuel) f vs ;;
                  mret (v, env1)
              | None =>
                  if f =? "fetch" then
                    mret (VFetch (hd VUndefined vs) (hd VUndefined (tl vs)), env1)
                  else None
              end
          end
      | CallExpression _ _ => None
      | ObjectLiteralExpression properties _ =>
          (fix go (env : Env) (properties : list ObjectLiteralElement)
               (o : obj value) : M (value * Env) :=
             match properties with
             | [] => mret (VObject o, env)
             | PropertyAssignment name e1 :: properties' =>
                 if property_name_reads_back name then
                   '(v, env1) <- eval fuel env e1 ;;
                   go env1 properties' (obj_set (property_key name) v o)
                 else None
             | SpreadAssignment e1 :: properties' =>
                 '(v, env1) <- eval fuel env e1 ;;
                 let copied := match own_entries v with
                               | Ok es => es
                               | Throw _ => []     (* [...undefined] adds nothing *)
                               end in
                 go env1 properties' (obj_assign copied o)
             end) env properties []
      | BinaryExpression l InstanceOfKeyword (EIdentifier c) =>
          match obj_get c env with
          | Some _ => None
          | None =>
              if (c =? "Headers") && platform_name c then
                '(v, env1) <- eval fuel env l ;;
                mret (VBool match v with VHeaders _ => true | _ => false end, env1)
              else None
          end
      | BinaryExpression (PropertyAccessExpression (EIdentifier x) name)
                         EqualsToken r =>
          if identifier_name x && identifier_name name then
            match obj_get x env with
            | Some target =>
                '(v, env1) <- eval fuel env r ;;
                target' <- set_member target name v ;;
                mret (v, update x target' env1)
            | None => None
            end
          else None
      | BinaryExpression _ _ _ => None
      | ArrowFunction _ _ => None
      end
  end
with exec (fuel : nat) (env : Env) (s : Statement) {struct fuel}
  : M (Completion * Env) :=
  match fuel with
  | O => None
  | S fuel =>
      match s with
      | VariableStatement x e =>
          '(v, env1) <- eval fuel env e ;;
          mret (Normal, (x, v) :: env1)
      | IfStatement e thenStatement elseStatement =>
          '(v, env1) <- eval fuel env e ;;
          if truthy v then exec fuel env1 thenStatement
          else match elseStatement with
               | Some s' => exec fuel env1 s'
               | None => mret (Normal, env1)
               end
      | ExpressionStatement e =>
          '(_, env1) <- eval fuel env e ;;
          mret (Normal, env1)
      | ReturnStatement e =>
          '(v, env1) <- eval fuel env e ;;
          mret (Returned v, env1)
      | Block statements _ =>
          '(c, env') <-
            (fix go (env : Env) (statements : list Statement)
               : M (Completion * Env) :=
               match statements with
               | [] => mret (Normal, env)
               | s1 :: statements' =>
                   '(c, env1) <- exec fuel env s1 ;;
                   match c with
                   | Normal => go env1 statements'
                   | Returned _ => mret (c, env1)
                   end
               end) env statements ;;
          mret (c, skipn (length env' - length env) env')
      end
  end.

(** A call, from outside, of a function of the file: there is an answer
    only where the file reads back. *)
Definition call (fuel : nat) (f : string) (args : list value) : M value :=
  if file_reads_back program then invoke (exec fuel) f args else None.
End Program.

(** ** Header collections as the helper's signature types them *)

Inductive HeadersInit :=
| InitHeaders (h : Headers.header_list)        (* a [Headers] object *)
| InitPairs (pairs : list (string * string))   (* [[string, string][]] *)
| InitRecord (record : obj string).            (* [Record<string, string>] *)

Definition init_value (init : HeadersInit) : value :=
  match init with
  | InitHeaders h => VHeaders h
  | InitPairs pairs =>
      VArray (map (fun kv => VArray [VString (fst kv); VString (snd kv)]) pairs)
  | InitRecord record => VObject (map (fun kv => (fst kv, VString (snd kv))) record)
  end.

Definition optional_init (init : option HeadersInit) : value :=
  match init with
  | Some i => init_value i
  | None => VUndefined
  end.

(** The entries of a collection in its natural order: iteration order of
    the container, array order, enumeration order of the mapping. *)
Definition natural_entries (init : HeadersInit) : list (string * string) :=
  match init with
  | InitHeaders h => Headers.iterate h
  | InitPairs pairs => pairs
  | InitRecord record => record
  end.

(** The default header set of an operation, by [methodHasBody]. *)
Definition default_headers (method : string) : HeadersInit :=
  InitRecord (if Synthesizer.methodHasBody method
              then [("Accept", "application/json");
                    ("Content-Type", "application/json")]
              else [("Accept", "application/json")]).

(** Names are the same header name when they differ in case only. *)
Definition same_name (a b : string) : bool :=
  Headers.toLowerCase a =? Headers.toLowerCase b.

(** The last entry for the header [name]. *)
Definition last_entry (name : string) (entries : list (string * string))
  : option (string * string) :=
  find (fun kv => same_name (fst kv) name) (rev entries).

(** The file that holds the helper alone. *)
Definition helper_program : list Declaration :=
  [Synthesizer.makeCombineHeadersFunction].

(** The variables of the helper once [combinedHeaders] is declared. *)
Definition helper_env (defaults overrides : value) (h : Headers.header_list) : Env :=
  [("combinedHeaders", VHeaders h); ("headers", overrides);
   ("defaultHeaders", defaults)].

(** An entry the [Headers] class accepts. *)
Definition acceptable (kv : string * string) : Prop :=
  Headers.valid_name (fst kv) && Headers.valid_value (Headers.normalize (snd kv))
  = true.

End Runtime.

(* ===================================================================== *)
(** * Sample documents and operations *)
(* ===================================================================== *)

Module Samples.
Import JS Synthesizer Walker Runtime.

(** The schema [{properties: {a: {type: string}, b: {type: string}},
    required: [a]}]. *)
Definition schema_ab : json :=
  JObj [("properties", JObj [("a", JObj [("type", JStr "string")]);
                             ("b", JObj [("type", JStr "string")])]);
        ("required", JArr [JStr "a"])].

(** The operation [GET /items/{id}] with one JSON response of two fields. *)
Definition get_item : OperationConfig :=
  {| operationId := "getItem"; path := "/items/{id}"; method := "GET";
     baseUrl := None; summary := None; description := None;
     responses :=
       JObj [("200",
              JObj [("content",
                     JObj [("application/json",
                            JObj [("schema",
                                   JObj [("properties",
                                          JObj [("id", JObj [("type", JStr "string")]);
                                                ("n", JObj [("type", JStr "integer")])]);
                                         ("required", JArr [JStr "id"])])])])]);
             ("204", JObj [("description", JStr "no body")])] |}.

Definition item_struct : TypeNode :=
  TypeLiteralNode [PropertySignature "id" false (KeywordTypeNode StringKeyword);
                   PropertySignature "n" true (KeywordTypeNode NumberKeyword)].

(** A document whose second operation has no [operationId]. *)
Definition missing_id_document : json :=
  JObj [("paths",
         JObj [("/a", JObj [("get", JObj [("operationId", JStr "getA");
                                          ("responses", JObj [])])]);
               ("/b", JObj [("post", JObj [("responses", JObj [])])])])].

Definition sample_args : list string :=
  ["--input"; "api.json"; "--output"; "out/sdk.ts"].

Definition empty_fs : FileSystem := {| directories := []; files := [] |}.

(** A well-formed document with a path-level [parameters] list. *)
Definition path_parameters_document : json :=
  JObj [("paths",
         JObj [("/items/{id}",
                JObj [("get", JObj [("operationId", JStr "getItem");
                                    ("responses", JObj [])]);
                      ("parameters",
                       JArr [JObj [("name", JStr "id"); ("in", JStr "path")]])])])].

(** The statements emitted for the one operation [GET /items/{id}]. *)
Definition get_item_file : list Declaration :=
  match Walker.statements (fun _ => false) [get_item] with
  | (Ok nodes, _) => nodes
  | (Throw _, _) => []
  end.

(** The same operation with the base URL [https://api.example.com], and the
    statements emitted for it where that URL parses. *)
Definition get_item_based : OperationConfig :=
  {| operationId := "getItem"; path := "/items/{id}"; method := "GET";
     baseUrl := Some "https://api.example.com";
     summary := None; description := None;
     responses := responses get_item |}.

Definition get_item_based_file : list Declaration :=
  match Walker.statements (fun _ => true) [get_item_based] with
  | (Ok nodes, _) => nodes
  | (Throw _, _) => []
  end.

End Samples.
(* ===================================================================== *)
(** * Notions for the properties of the generator and of the emitted code *)
(* ===================================================================== *)

Module Vocabulary.
Import JS PathTemplate TypeMapper Synthesizer Walker Runtime.

(** ** Path templates at run time *)

(** [s0 v1 s1 ... vN sN]: the segments with a text after each but the last. *)
Fixpoint fill_placeholders (segments texts : list string) : string :=
  match segments, texts with
  | s :: segments', t :: texts' => s ++ t ++ fill_placeholders segments' texts'
  | s :: _, [] => s
  | [], _ => ""
  end.

(** The text [params.name] contributes to a template: the string it holds,
    or [undefined] spelled out when it holds [undefined] or the key is
    absent and names nothing that objects inherit. *)
Definition param_text (params : obj value) (name : string) : option string :=
  match obj_get name params with
  | Some (VString s) => Some s
  | Some VUndefined => Some "undefined"
  | Some _ => None
  | None => if inherited_name name then None else Some "undefined"
  end.

(** The template of the path reads back from the printed file as it was
    built: a path without placeholders is printed as an escaped string
    literal; otherwise every name has to be an identifier and every segment
    text that a template part reads as itself. *)
Definition template_reads_back (path : string) : bool :=
  match extractParams path with
  | [] => true
  | names => forallb identifier_name names && forallb template_text (split_path path)
  end.

(** The keys of the [params] member a parameter list declares:
    the literals of [Record<'k1' | ... | 'kN', string>]. *)
Definition declared_param_keys (parameters : list ParameterDeclaration)
  : list string :=
  match parameters with
  | Parameter_ _ _ (Some (TypeLiteralNode members)) :: _ =>
      flat_map (fun member =>
                  match member with
                  | PropertySignature name _
                      (TypeReferenceNode _ (Some (UnionTypeNode keys :: _))) =>
                      if name =? "params" then
                        flat_map (fun key => match key with
                                             | LiteralTypeNode k => [k]
                                             | _ => []
                                             end) keys
                      else []
                  | _ => []
                  end) members
  | _ => []
  end.

(** ** Schemas and types *)

(** No array, at any depth, has [null] or [undefined] for an element. *)
Fixpoint arrays_null_free (j : json) : bool :=
  match j with
  | JArr l => forallb (fun x => negb (nullish x) && arrays_null_free x) l
  | JObj o => forallb (fun kv => arrays_null_free (snd kv)) o
  | _ => true
  end.

(** The schemas of the fragment
    {object with properties, array with items, string, number, integer,
    boolean}. *)
Inductive Recognised : json -> Prop :=
| Recognised_struct schema properties :
    is_object schema = true ->
    object_member schema "properties" = Some (JObj properties) ->
    (forall name value, In (name, value) properties -> Recognised value) ->
    Recognised schema
| Recognised_array schema items :
    is_object schema = true ->
    object_member schema "properties" = None ->
    get schema "type" = Some (JStr "array") ->
    object_member schema "items" = Some items ->
    Recognised items ->
    Recognised schema
| Recognised_primitive schema type :
    is_object schema = true ->
    object_member schema "properties" = None ->
    get schema "type" = Some (JStr type) ->
    In type ["integer"; "number"; "string"; "boolean"] ->
    Recognised schema.

(** The type has no [unknown] in it. *)
Fixpoint unknown_free (t : TypeNode) : bool :=
  match t with
  | KeywordTypeNode UnknownKeyword => false
  | KeywordTypeNode _ => true
  | TypeLiteralNode members => forallb unknown_free_member members
  | ArrayTypeNode elementType => unknown_free elementType
  | TypeReferenceNode _ (Some arguments) => forallb unknown_free arguments
  | TypeReferenceNode _ None => true
  | UnionTypeNode types | IntersectionTypeNode types => forallb unknown_free types
  | LiteralTypeNode _ => true
  end
with unknown_free_member (m : TypeElement) : bool :=
  match m with
  | PropertySignature _ _ type | MethodSignature _ type => unknown_free type
  end.

(** ** The declarations of a file *)

(** Whether the operation gets a documentation block. *)
Definition has_doc (config : OperationConfig) : bool :=
  match summary config, description config with
  | Some s, Some d => negb (s =? "") || negb (d =? "")
  | Some s, None => negb (s =? "")
  | None, Some d => negb (d =? "")
  | None, None => false
  end.

Definition function_name (d : Declaration) : option string :=
  match d with
  | FunctionDeclaration _ name _ _ _ => Some name
  | _ => None
  end.

(** The names of the functions a file declares, in order. *)
Definition function_names (nodes : list Declaration) : list string :=
  flat_map (fun d => match function_name d with
                     | Some name => [name]
                     | None => []
                     end) nodes.

(** The group of declarations of an operation: its documentation block, if
    it has one, and its function. *)
Definition operation_group (URL_parses : string -> bool)
           (config : OperationConfig) (group : list Declaration) : Prop :=
  exists declaration w,
    makeOperationFunction URL_parses config = (Ok declaration, w) /\
    group =
    if has_doc config
    then [JSDocComment
            (String.concat newline
               (doc_tag "@summary" (summary config)
                  ++ doc_tag "@description" (description config))%list);
          declaration]
    else [declaration].

(** The parameters and the body of a function declaration. *)
Definition function_parts (d : Declaration)
  : option (list ParameterDeclaration * Statement) :=
  match d with
  | FunctionDeclaration _ _ parameters _ body => Some (parameters, body)
  | _ => None
  end.

(** The base a literal or absent [baseUrl] gives [new URL] at run time; a
    dotted reference reads the ambient configuration instead. *)
Definition static_base (URL_parses : string -> bool) (baseUrl : option string)
  : option value :=
  match baseUrl with
  | Some value =>
      if value =? "" then Some VUndefined
      else if URL_parses value then Some (VString value)
      else None
  | None => Some VUndefined
  end.

(** [o.name] for an object [o]. *)
Definition member (name : string) (o : obj value) : value :=
  match obj_get name o with
  | Some v => v
  | None => VUndefined
  end.

(** ** Documents *)

(** A member that is absent or a string. *)
Definition optional_text (v : option json) : bool :=
  match v with
  | None | Some (JStr _) => true
  | Some _ => false
  end.

(** An operation entry of the type the generator asserts for it: an object
    with a string [operationId]; [summary], [description] and the members
    the configuration adds ([path], [method], [baseUrl]) strings when
    present. *)
Definition typed_operation (operation : json) : Prop :=
  exists members,
    operation = JObj members /\ NoDup (map fst members) /\
    (exists id, obj_get "operationId" members = Some (JStr id)) /\
    Forall (fun k => optional_text (obj_get k members) = true)
           ["summary"; "description"; "path"; "method"; "baseUrl"].

(** A typed operation whose [responses] is present and has no [null] among
    the elements of its arrays. *)
Definition well_formed_operation (operation : json) : Prop :=
  typed_operation operation /\
  nullish (read operation "responses") = false /\
  arrays_null_free (read operation "responses") = true.

(** A [paths] object whose items are objects of operations that satisfy
    [P]. *)
Definition paths_of (P : json -> Prop) (paths : obj json) : Prop :=
  NoDup (map fst paths) /\
  Forall (fun item =>
            exists operations,
              snd item = JObj operations /\ NoDup (map fst operations) /\
              Forall (fun entry => P (snd entry)) operations)
         paths.

(** The entries [paths[path][method]] in the order the document lists them. *)
Definition declared_operations (paths : obj json)
  : list (string * string * json) :=
  flat_map (fun item =>
              match snd item with
              | JObj operations =>
                  map (fun entry => (fst item, fst entry, snd entry)) operations
              | _ => []
              end) paths.

Definition operation_ids (paths : obj json) : list string :=
  flat_map (fun entry => match read (snd entry) "operationId" with
                         | JStr id => [id]
                         | _ => []
                         end) (declared_operations paths).

(** A string member, or the fallback. *)
Definition own_text (members : obj json) (k : string) (fallback : option string)
  : option string :=
  match obj_get k members with
  | Some (JStr s) => Some s
  | _ => fallback
  end.

Definition own_or (members : obj json) (k : string) (fallback : string) : string :=
  match own_text members k None with
  | Some s => s
  | None => fallback
  end.

(** The configuration of an operation: what the walk and the command line
    give, each member overridden by an own member of the operation. *)
Definition config_of (options : Options) (path method : string) (operation : json)
  : OperationConfig :=
  let members := match operation with JObj members => members | _ => [] end in
  {| operationId := own_or members "operationId" "";
     Synthesizer.path := own_or members "path" path;
     Synthesizer.method := own_or members "method" (toUpperCase method);
     baseUrl := own_text members "baseUrl" (base_url options);
     summary := own_text members "summary" None;
     description := own_text members "description" None;
     responses := read operation "responses" |}.

End Vocabulary.


Module PathTemplateFacts.
Import PathTemplate.

Lemma extractParams_loop_unfold rest :
  extractParams_loop rest =
  match regex_exec rest with
  | None => []
  | Some (_, name, rest') => name :: extractParams_loop rest'
  end.
Proof.
  funelim (extractParams_loop rest);
    match goal with e : regex_exec _ = _ |- _ => rewrite e end; reflexivity.
Qed.

Lemma split_loop_unfold rest :
  split_loop rest =
  match regex_exec rest with
  | None => [rest]
  | Some (pre, _, rest') => pre :: split_loop rest'
  end.
Proof.
  funelim (split_loop rest);
    match goal with e : regex_exec _ = _ |- _ => rewrite e end; reflexivity.
Qed.

Lemma take_name_sound s n r :
  take_name s = (n, r) ->
  s = n ++ r /\ has_char "}" n = false.
Proof.
  revert n r; induction s as [|c s IH]; intros n r; simpl.
  - intros [= <- <-]; split; reflexivity.
  - destruct (c =? "}")%char eqn:Ec.
    + intros [= <- <-]; split; reflexivity.
    + destruct (take_name s) as [n' r']. intros [= <- <-].
      destruct (IH n' r' eq_refl) as [-> Hn]. simpl. rewrite Ec. auto.
Qed.

Lemma match_here_sound s name rest :
  match_here s = Some (name, rest) ->
  s = "{" ++ name ++ "}" ++ rest /\ placeholder_name name.
Proof.
  unfold match_here. destruct s as [|c s]; [discriminate|].
  destruct (Ascii.eqb_spec c "{"%char) as [->|]; [|discriminate].
  destruct (take_name s) as [n r] eqn:E.
  destruct n as [|c1 n]; [discriminate|].
  destruct r as [|c2 r]; [discriminate|].
  destruct (Ascii.eqb_spec c2 "}"%char) as [->|]; [|discriminate].
  intros [= <- <-]. destruct (take_name_sound _ _ _ E) as [-> Hn].
  split; [reflexivity|]. split; [discriminate|assumption].
Qed.

Lemma regex_exec_sound s pre name rest :
  regex_exec s = Some (pre, name, rest) ->
  s = pre ++ "{" ++ name ++ "}" ++ rest /\ placeholder_name name.
Proof.
  revert pre; induction s as [|c s IH]; intros pre.
  - simpl. discriminate.
  - cbn [regex_exec]. destruct (match_here (String c s)) as [[n r]|] eqn:E.
    + intros [= <- <- <-]. apply (match_here_sound _ _ _ E).
    + destruct (regex_exec s) as [[[p n] r]|]; [|discriminate].
      intros [= <- <- <-]. destruct (IH p eq_refl) as [-> Hn].
      split; [reflexivity|assumption].
Qed.

(** The two loops walk the same matches. *)
Lemma loops_agree path :
  length (split_loop path) = S (length (extractParams_loop path)) /\
  interleave (split_loop path) (extractParams_loop path) = path /\
  Forall placeholder_name (extractParams_loop path).
Proof.
  remember (String.length path) as k eqn:Hk.
  revert path Hk. induction k as [k IH] using lt_wf_ind. intros path ->.
  rewrite split_loop_unfold, extractParams_loop_unfold.
  destruct (regex_exec path) as [[[pre name] rest]|] eqn:E.
  - pose proof (regex_exec_length _ _ _ _ E) as HL.
    destruct (regex_exec_sound _ _ _ _ E) as [Hp Hn].
    destruct (IH (String.length rest) ltac:(lia) rest eq_refl) as (H1 & H2 & H3).
    repeat split.
    + simpl. rewrite H1. reflexivity.
    + simpl. rewrite H2. symmetry. exact Hp.
    + constructor; assumption.
  - repeat split. constructor.
Qed.

Lemma take_name_complete n rest :
  has_char "}" n = false ->
  take_name (n ++ String "}" rest) = (n, String "}" rest).
Proof.
  induction n as [|c n IH]; [reflexivity|].
  simpl has_char. intros H. apply orb_false_iff in H as [Hc Hn].
  cbn [append take_name]. rewrite Hc, (IH Hn). reflexivity.
Qed.

Lemma regex_exec_none s :
  has_char "{" s = false -> regex_exec s = None.
Proof.
  induction s as [|c s IH]; [reflexivity|].
  simpl has_char. intros H. apply orb_false_iff in H as [Hc Hs].
  cbn [regex_exec match_here]. rewrite Hc, (IH Hs). reflexivity.
Qed.

Lemma regex_exec_complete seg name rest :
  has_char "{" seg = false -> placeholder_name name ->
  regex_exec (seg ++ "{" ++ name ++ "}" ++ rest) = Some (seg, name, rest).
Proof.
  intros Hseg [Hne Hn]. induction seg as [|c seg IH].
  - cbn [append regex_exec match_here]. rewrite Ascii.eqb_refl.
    rewrite (take_name_complete _ rest Hn).
    destruct name as [|c1 n]; [contradiction Hne; reflexivity|].
    cbn [append]. rewrite Ascii.eqb_refl. reflexivity.
  - simpl has_char in Hseg. apply orb_false_iff in Hseg as [Hc Hs].
    change (String c seg ++ "{" ++ name ++ "}" ++ rest)
      with (String c (seg ++ "{" ++ name ++ "}" ++ rest)).
    cbn [regex_exec match_here]. rewrite Hc, (IH Hs). reflexivity.
Qed.

Lemma loops_complete segments names :
  length segments = S (length names) ->
  Forall placeholder_name names ->
  Forall (fun s => has_char "{" s = false) segments ->
  extractParams_loop (interleave segments names) = names /\
  split_loop (interleave segments names) = segments.
Proof.
  revert segments. induction names as [|n names IH]; intros segments HL Hn Hs.
  - destruct segments as [|s [|? ?]]; try discriminate HL.
    simpl. rewrite extractParams_loop_unfold, split_loop_unfold.
    inversion Hs; subst. rewrite regex_exec_none by assumption. auto.
  - destruct segments as [|s segments]; [discriminate HL|].
    inversion Hs; subst. inversion Hn; subst.
    cbn [interleave]. rewrite extractParams_loop_unfold, split_loop_unfold.
    rewrite regex_exec_complete by assumption.
    destruct (IH segments) as [-> ->]; auto.
Qed.

Lemma template_spans_spec segments names (seen : list string) :
  length segments = S (length seen + length names) ->
  template_spans segments (length seen + length names) (length seen) names =
  interleaved_spans names (skipn (S (length seen)) segments).
Proof.
  revert seen. induction names as [|n names IH]; intros seen HL; [reflexivity|].
  cbn [template_spans length] in *.
  specialize (IH (seen ++ [n])%list).
  rewrite length_app in IH. cbn [length] in IH.
  replace (length seen + 1 + length names) with (length seen + S (length names)) in IH by lia.
  replace (length seen + 1) with (S (length seen)) in * by lia.
  rewrite IH by lia. clear IH.
  destruct (nth_error segments (S (length seen))) as [s|] eqn:E.
  2:{ apply nth_error_None in E. lia. }
  destruct (nth_error_split segments _ E) as (l1 & l2 & -> & Hl1).
  rewrite length_app in HL. cbn [length] in HL.
  rewrite <- Hl1.
  rewrite (skipn_app (length l1)), skipn_all, Nat.sub_diag.
  rewrite (skipn_app (S (length l1))), skipn_all2 by lia.
  replace (S (length l1) - length l1) with 1 by lia. cbn [skipn app].
  destruct names as [|n' names].
  - cbn [length]. replace (length seen + 1 - 1) with (length seen) by lia.
    rewrite Nat.eqb_refl. reflexivity.
  - replace (Nat.eqb (length seen) (length seen + S (length (n' :: names)) - 1))
      with false by (symmetry; apply Nat.eqb_neq; cbn [length]; lia).
    destruct l2 as [|s2 l2]; [cbn [length] in HL; lia|]. reflexivity.
Qed.

End PathTemplateFacts.

(* ===================================================================== *)
(** * Facts: objects and the Type Mapper *)
(* ===================================================================== *)

Module JSFacts.
Import JS.

Section ObjectFacts.
Context {A : Type}.
Implicit Types (o : obj A) (k : string) (v : A).

Lemma obj_get_in k o v : obj_get k o = Some v -> In (k, v) o.
Proof.
  induction o as [|[k' v'] o IH]; simpl; [discriminate|].
  destruct (String.eqb_spec k' k) as [->|_].
  - intros [= ->]. now left.
  - intros H. right. auto.
Qed.

Lemma obj_replace_in k v o kv :
  In kv (obj_replace k v o) -> kv = (k, v) \/ In kv o.
Proof.
  induction o as [|[k' v'] o IH]; simpl; [tauto|].
  destruct (String.eqb_spec k' k) as [->|_]; simpl.
  - intros [<-|H]; auto.
  - intros [<-|H]; auto. destruct (IH H); auto.
Qed.

Lemma obj_insert_index_in i k v o kv :
  In kv (obj_insert_index i k v o) -> kv = (k, v) \/ In kv o.
Proof.
  induction o as [|[k' v'] o IH]; simpl.
  - intros [<-|[]]. now left.
  - destruct (array_index k') as [j|].
    + destruct (j <? i)%N; simpl.
      * intros [<-|H]; auto. destruct (IH H); auto.
      * intros [<-|H]; auto.
    + simpl. intros [<-|H]; auto.
Qed.

Lemma obj_set_in k v o kv :
  In kv (obj_set k v o) -> kv = (k, v) \/ In kv o.
Proof.
  unfold obj_set. destruct (obj_has k o).
  - apply obj_replace_in.
  - destruct (array_index k).
    + apply obj_insert_index_in.
    + intros H. apply in_app_or in H as [H|[<-|[]]]; auto.
Qed.

Lemma obj_assign_in es o kv :
  In kv (obj_assign es o) -> In kv es \/ In kv o.
Proof.
  unfold obj_assign. revert o. induction es as [|[k v] es IH]; simpl; intros o; [auto|].
  intros H. destruct (IH _ H) as [H'|H']; [auto|].
  apply obj_set_in in H' as [->|H']; auto.
Qed.

Lemma obj_get_replace k v o k' :
  obj_get k' (obj_replace k v o) =
  if k =? k' then match obj_get k o with Some _ => Some v | None => None end
  else obj_get k' o.
Proof.
  induction o as [|[k0 v0] o IH]; cbn [obj_replace obj_get].
  - now destruct (k =? k').
  - destruct (String.eqb_spec k0 k) as [->|Hk0]; cbn [obj_get].
    + destruct (String.eqb_spec k k'); reflexivity.
    + rewrite IH. destruct (String.eqb_spec k0 k') as [->|]; [|reflexivity].
      destruct (String.eqb_spec k k'); [congruence|reflexivity].
Qed.

Lemma obj_get_insert_index i k v o k' :
  obj_get k o = None ->
  obj_get k' (obj_insert_index i k v o) =
  if k =? k' then Some v else obj_get k' o.
Proof.
  induction o as [|[k0 v0] o IH]; cbn [obj_insert_index obj_get]; [reflexivity|].
  destruct (String.eqb_spec k0 k) as [->|Hk0]; [discriminate|]. intros Hk.
  assert (Hhead : obj_get k' ((k, v) :: (k0, v0) :: o) =
                  if k =? k' then Some v else obj_get k' ((k0, v0) :: o))
    by reflexivity.
  destruct (array_index k0) as [j|]; [|exact Hhead].
  destruct (j <? i)%N; [|exact Hhead]. cbn [obj_get].
  rewrite (IH Hk). destruct (String.eqb_spec k0 k') as [->|]; [|reflexivity].
  destruct (String.eqb_spec k k'); [congruence|reflexivity].
Qed.

Lemma obj_get_app k (o1 o2 : obj A) :
  obj_get k (o1 ++ o2)%list =
  match obj_get k o1 with Some v => Some v | None => obj_get k o2 end.
Proof.
  induction o1 as [|[k0 v0] o1 IH]; cbn [app obj_get]; [reflexivity|].
  now destruct (k0 =? k).
Qed.

(** Reading after [obj_set]: the key set holds the new value, the others
    are untouched. *)
Lemma obj_get_set k v o k' :
  obj_get k' (obj_set k v o) = if k =? k' then Some v else obj_get k' o.
Proof.
  unfold obj_set, obj_has. destruct (obj_get k o) as [v0|] eqn:E.
  - rewrite obj_get_replace, E. reflexivity.
  - destruct (array_index k).
    + now apply obj_get_insert_index.
    + rewrite obj_get_app. cbn [obj_get].
      destruct (String.eqb_spec k k') as [<-|]; [now rewrite E|].
      now destruct (obj_get k' o).
Qed.

(** Later entries overwrite earlier ones. *)
Lemma obj_get_assign (es : list (string * A)) o k :
  obj_get k (obj_assign es o) =
  match last_value k es with Some v => Some v | None => obj_get k o end.
Proof.
  unfold obj_assign, last_value. revert o.
  induction es as [|[k0 v0] es IH]; intros o; cbn [fold_left rev]; [reflexivity|].
  rewrite IH, obj_get_app. cbn [fst snd obj_get].
  destruct (obj_get k (rev es)); [reflexivity|].
  rewrite obj_get_set. now destruct (k0 =? k).
Qed.

Lemma obj_get_fromEntries (es : list (string * A)) k :
  obj_get k (fromEntries es) = last_value k es.
Proof.
  unfold fromEntries. rewrite obj_get_assign. now destruct (last_value k es).
Qed.

Lemma obj_get_none k o : obj_get k o = None <-> ~ In k (map fst o).
Proof.
  induction o as [|[k0 v0] o IH]; cbn [obj_get map fst In]; [tauto|].
  destruct (String.eqb_spec k0 k) as [->|Hk]; [split; [discriminate|tauto]|].
  rewrite IH. tauto.
Qed.

Lemma last_value_none k (es : list (string * A)) :
  obj_get k es = None -> last_value k es = None.
Proof.
  unfold last_value. rewrite !obj_get_none, map_rev. intros H Hin.
  apply H. now apply in_rev.
Qed.

Lemma indexed_from_in i (l : list A) k v :
  In (k, v) (indexed_from i l) -> In v l.
Proof.
  revert i. induction l as [|x l IH]; simpl; intros i; [tauto|].
  intros [[= _ <-]|H]; eauto.
Qed.
End ObjectFacts.

(** ** Nesting depth *)

Lemma depth_JArr l : depth (JArr l) = S (max_depth l).
Proof. reflexivity. Qed.

Lemma depth_JObj o : depth (JObj o) = S (max_depth (map snd o)).
Proof.
  simpl. f_equal. induction o as [|[k v] o IH]; simpl; [reflexivity|].
  now rewrite IH.
Qed.

Lemma max_depth_cons x l : max_depth (x :: l) = Nat.max (depth x) (max_depth l).
Proof. reflexivity. Qed.

Lemma max_depth_in x l : In x l -> depth x <= max_depth l.
Proof.
  induction l as [|y l IH]; [intros []|].
  rewrite max_depth_cons. intros [->|H]; [lia|]. specialize (IH H). lia.
Qed.

Lemma max_depth_bound l n :
  (forall x, In x l -> depth x <= n) -> max_depth l <= n.
Proof.
  induction l as [|y l IH]; intros H; [simpl; lia|].
  rewrite max_depth_cons.
  assert (depth y <= n) by (apply H; now left).
  assert (max_depth l <= n) by (apply IH; intros; apply H; now right).
  lia.
Qed.

Lemma chars_depth s x : In x (chars s) -> depth x = 0.
Proof.
  induction s as [|c s IH]; simpl; [tauto|]. intros [<-|H]; auto.
Qed.

(** A member lies strictly deeper than the object or array that owns it. *)
Lemma get_depth j k v :
  is_object j = true -> get j k = Some v -> depth v < depth j.
Proof.
  destruct j as [| | | | |l|o]; try discriminate; intros _; simpl get.
  - destruct (k =? "length").
    + intros [= <-]. simpl. lia.
    + intros H. apply obj_get_in, indexed_from_in in H.
      rewrite depth_JArr. apply max_depth_in in H. lia.
  - intros H. apply obj_get_in in H. rewrite depth_JObj.
    apply (in_map snd) in H. apply max_depth_in in H. simpl in H. lia.
Qed.

Lemma read_depth j k :
  is_object j = true -> depth (read j k) < depth j.
Proof.
  intros Hj. unfold read. destruct (get j k) eqn:E.
  - eapply get_depth; eauto.
  - destruct j; try discriminate; simpl; lia.
Qed.

Lemma entries_depth part es k v :
  entries part = Ok es -> In (k, v) es -> depth v <= pred (depth part).
Proof.
  destruct part as [| | | |s|l|o]; simpl; try discriminate.
  - intros [= <-] [].
  - intros [= <-] [].
  - intros [= <-] H. apply indexed_from_in, chars_depth in H. lia.
  - intros [= <-] H. apply indexed_from_in, max_depth_in in H.
    fold (max_depth l). exact H.
  - intros [= ->] H. apply (in_map snd) in H. apply max_depth_in in H.
    change (depth v <= pred (depth (JObj es))). rewrite depth_JObj. exact H.
Qed.

Lemma mapR_entries_depth parts ess k v :
  mapR entries parts = Ok ess -> In (k, v) (concat ess) ->
  depth v <= pred (max_depth parts).
Proof.
  revert ess. induction parts as [|p parts IH]; intros ess; cbn [mapR].
  - intros [= <-] [].
  - destruct (entries p) as [es|] eqn:E; [|discriminate].
    destruct (mapR entries parts) as [ess'|]; [|discriminate].
    intros [= <-]. cbn [concat]. rewrite max_depth_cons.
    intros H. apply in_app_or in H as [H|H].
    + pose proof (entries_depth _ _ _ _ E H). lia.
    + specialize (IH _ eq_refl H). lia.
Qed.

End JSFacts.

Module TypeMapperFacts.
Import JS JSFacts TypeMapper.

Lemma mapM_ext {A B} (f g : A -> gen B) l :
  (forall x, f x = g x) -> mapM f l = mapM g l.
Proof.
  intros H. induction l as [|x l IH]; simpl; [reflexivity|].
  now rewrite H, IH.
Qed.

Lemma object_member_depth schema k v :
  is_object schema = true -> object_member schema k = Some v ->
  is_object v = true /\ depth v < depth schema.
Proof.
  intros Hs. unfold object_member. destruct (get schema k) as [w|] eqn:E; [|discriminate].
  destruct (is_object w) eqn:Hw; [|discriminate]. intros [= <-].
  split; [assumption|]. eapply get_depth; eauto.
Qed.

Lemma merge_allOf_depth allOf merged :
  merge_allOf allOf = Ok merged -> depth merged <= depth (JArr allOf).
Proof.
  unfold merge_allOf. destruct (mapR entries allOf) as [ess|] eqn:E; [|discriminate].
  intros [= <-]. rewrite depth_JObj, depth_JArr.
  apply le_n_S. etransitivity; [|apply Nat.le_pred_l].
  apply max_depth_bound. intros x Hx.
  apply in_map_iff in Hx as ([k v] & <- & Hin).
  apply obj_assign_in in Hin as [Hin|[]].
  eapply mapR_entries_depth; eauto.
Qed.

Lemma bind_ext {A B} (m : gen A) (f g : A -> gen B) :
  (forall a, f a = g a) -> bind m f = bind m g.
Proof. intros H. destruct m as [[a|e] w]; simpl; [now rewrite H|reflexivity]. Qed.

(** The body only calls [self] on values nested strictly deeper. *)
Lemma makeTypeFromSchema_body_ext (f g : json -> gen TypeNode) schema :
  (forall v, depth v < depth schema -> f v = g v) ->
  makeTypeFromSchema_body f schema = makeTypeFromSchema_body g schema.
Proof.
  intros H. unfold makeTypeFromSchema_body.
  destruct (is_object schema) eqn:Hs; [|reflexivity].
  destruct (object_member schema "properties") as [properties|] eqn:Ep.
  - destruct (object_member_depth _ _ _ Hs Ep) as [Hobj Hd].
    apply bind_ext. intros names. f_equal. apply mapM_ext. intros name.
    cbv zeta. f_equal. apply H. pose proof (read_depth properties name Hobj). lia.
  - destruct (get schema "type") as [type|] eqn:Et.
    + destruct (json_eqb_str "object" type); [reflexivity|].
      destruct (json_eqb_str "array" type); [|reflexivity].
      destruct (object_member schema "items") as [items|] eqn:Ei; [|reflexivity].
      destruct (object_member_depth _ _ _ Hs Ei) as [_ Hd].
      f_equal. apply H. exact Hd.
    + destruct (get schema "allOf") as [[| | | | |allOf|]|] eqn:Ea; try reflexivity.
      pose proof (get_depth _ _ _ Hs Ea) as Hd.
      destruct (merge_allOf allOf) as [merged|e] eqn:Em; [|reflexivity].
      pose proof (merge_allOf_depth _ _ Em).
      unfold lift, bind. rewrite H by lia. reflexivity.
Qed.

Lemma makeTypeFromSchema_rec_fuel n m schema :
  depth schema < n -> depth schema < m ->
  makeTypeFromSchema_rec n schema = makeTypeFromSchema_rec m schema.
Proof.
  revert m schema. induction n as [|n IH]; intros m schema Hn Hm; [lia|].
  destruct m as [|m]; [lia|]. cbn [makeTypeFromSchema_rec].
  apply makeTypeFromSchema_body_ext. intros v Hv. apply IH; lia.
Qed.

(** The defining equation of [makeTypeFromSchema]: the bound on the calls
    is never felt. *)
Lemma makeTypeFromSchema_unfold schema :
  makeTypeFromSchema schema = makeTypeFromSchema_body makeTypeFromSchema schema.
Proof.
  unfold makeTypeFromSchema at 1. cbn [makeTypeFromSchema_rec].
  apply makeTypeFromSchema_body_ext. intros v Hv.
  unfold makeTypeFromSchema. apply makeTypeFromSchema_rec_fuel; lia.
Qed.

Lemma fmap_ok_inv {A B} (g : A -> B) (m : gen A) b w :
  fmap g m = (Ok b, w) -> exists a, m = (Ok a, w) /\ b = g a.
Proof.
  destruct m as [[a|e] w0]; unfold fmap, bind, ret; [|discriminate].
  rewrite app_nil_r. intros [= <- <-]. eauto.
Qed.

Lemma fmap_ok {A B} (g : A -> B) a w : fmap g (Ok a, w) = (Ok (g a), w).
Proof. unfold fmap, bind, ret. now rewrite app_nil_r. Qed.

Lemma mapM_ok_inv {A B} (f : A -> gen B) l ys w :
  mapM f l = (Ok ys, w) ->
  Forall2 (fun x y => exists w', f x = (Ok y, w')) l ys.
Proof.
  revert ys w. induction l as [|x l IH]; intros ys w; cbn [mapM].
  - unfold ret. intros [= <- <-]. constructor.
  - destruct (f x) as [[y|e] w1] eqn:Ex; cbn [bind]; [|discriminate].
    destruct (mapM f l) as [[ys'|e] w2] eqn:El; cbn [bind ret]; [|discriminate].
    intros [= <- <-]. constructor; eauto.
Qed.

Lemma mapM_ok_all {A B} (f : A -> gen B) l :
  (forall x, In x l -> exists y w, f x = (Ok y, w)) ->
  exists ys w, mapM f l = (Ok ys, w).
Proof.
  induction l as [|x l IH]; intros H; cbn [mapM].
  - unfold ret. eauto.
  - destruct (H x (or_introl eq_refl)) as (y & w1 & ->).
    destruct IH as (ys & w2 & ->); [intros; apply H; now right|].
    cbn [bind ret]. eauto.
Qed.

(** ** What the mapper can answer *)

Lemma bind_value_or_TypeError {A B} (m : gen A) (f : A -> gen B) :
  value_or_TypeError m -> (forall a, value_or_TypeError (f a)) ->
  value_or_TypeError (bind m f).
Proof.
  destruct m as [[a|e] w]; unfold value_or_TypeError; cbn [bind fst].
  - intros _ H. specialize (H a). destruct (f a) as [r w']. exact H.
  - auto.
Qed.

Lemma mapM_value_or_TypeError {A B} (f : A -> gen B) l :
  (forall x, value_or_TypeError (f x)) -> value_or_TypeError (mapM f l).
Proof.
  intros H. induction l as [|x l IH]; cbn [mapM]; [exact I|].
  apply bind_value_or_TypeError; [apply H|]. intros y.
  apply bind_value_or_TypeError; [exact IH|]. intros ys. exact I.
Qed.

Lemma mapR_entries_error parts e : mapR entries parts = Throw e -> e = TypeError.
Proof.
  induction parts as [|p parts IH]; cbn [mapR]; [discriminate|].
  destruct (entries p) as [es|e'] eqn:E.
  - destruct (mapR entries parts); [discriminate|]. intros [= <-]. now apply IH.
  - intros [= <-]. destruct p; cbn in E; congruence.
Qed.

Lemma makeTypeFromSchema_body_outcome (self : json -> gen TypeNode) schema :
  (forall v, depth v < depth schema -> value_or_TypeError (self v)) ->
  value_or_TypeError (makeTypeFromSchema_body self schema).
Proof.
  intros H. unfold makeTypeFromSchema_body.
  destruct (is_object schema) eqn:Hs; [|exact I].
  destruct (object_member schema "properties") as [properties|] eqn:Ep.
  - destruct (object_member_depth _ _ _ Hs Ep) as [Hobj Hd].
    apply bind_value_or_TypeError.
    + destruct properties; try discriminate Hobj; exact I.
    + intros names. apply bind_value_or_TypeError; [|intros; exact I].
      apply mapM_value_or_TypeError. intros name.
      apply bind_value_or_TypeError; [|intros; exact I].
      apply H. pose proof (read_depth properties name Hobj). lia.
  - destruct (get schema "type") as [type|] eqn:Et.
    + destruct (json_eqb_str "object" type); [exact I|].
      destruct (json_eqb_str "array" type).
      * destruct (object_member schema "items") as [items|] eqn:Ei; [|exact I].
        destruct (object_member_depth _ _ _ Hs Ei) as [_ Hd].
        apply bind_value_or_TypeError; [now apply H|intros; exact I].
      * destruct (_ || _); [exact I|].
        destruct (json_eqb_str "string" type); [exact I|].
        destruct (json_eqb_str "boolean" type); exact I.
    + destruct (get schema "allOf") as [[| | | | |allOf|]|] eqn:Ea; try exact I.
      pose proof (get_depth _ _ _ Hs Ea) as Hd.
      destruct (merge_allOf allOf) as [merged|e] eqn:Em.
      * pose proof (merge_allOf_depth _ _ Em) as Hm.
        specialize (H merged ltac:(lia)). unfold lift, bind, value_or_TypeError in *.
        destruct (self merged) as [r w]. exact H.
      * unfold merge_allOf in Em.
        destruct (mapR entries allOf) eqn:Er; [discriminate|].
        injection Em as <-. now rewrite (mapR_entries_error _ _ Er).
Qed.

(** The mapper answers with a node or with the [TypeError] of
    [Object.entries]; the bound on the nesting of its calls is never
    reached. *)
Lemma makeTypeFromSchema_outcome schema :
  value_or_TypeError (makeTypeFromSchema schema).
Proof.
  unfold makeTypeFromSchema.
  assert (forall n v, depth v < n -> value_or_TypeError (makeTypeFromSchema_rec n v)) as H.
  { induction n as [|n IH]; intros v Hv; [lia|].
    cbn [makeTypeFromSchema_rec]. apply makeTypeFromSchema_body_outcome.
    intros v' Hv'. apply IH. lia. }
  apply H. lia.
Qed.

Lemma bind_lift_ok {A B} (a : A) (f : A -> gen B) : bind (lift (Ok a)) f = f a.
Proof. unfold lift, bind. now destruct (f a). Qed.

(** [unknown] is answered only together with a diagnostic. *)
Lemma unknown_is_diagnosed schema w :
  makeTypeFromSchema schema = (Ok (KeywordTypeNode UnknownKeyword), w) ->
  w <> [].
Proof.
  unfold makeTypeFromSchema. generalize (S (depth schema)) as n. intros n.
  revert schema w. induction n as [|n IH]; intros schema w; [discriminate|].
  cbn [makeTypeFromSchema_rec]. unfold makeTypeFromSchema_body.
  destruct (is_object schema); [|now intros [= <-]].
  destruct (object_member schema "properties") as [properties|].
  - destruct (getOwnPropertyNames properties) as [names|e]; [|discriminate].
    rewrite bind_lift_ok. intros H. apply fmap_ok_inv in H as (? & _ & [=]).
  - destruct (get schema "type") as [type|].
    + destruct (json_eqb_str "object" type); [discriminate|].
      destruct (json_eqb_str "array" type).
      * destruct (object_member schema "items").
        -- intros H. apply fmap_ok_inv in H as (? & _ & [=]).
        -- discriminate.
      * destruct (_ || _); [discriminate|].
        destruct (json_eqb_str "string" type); [discriminate|].
        destruct (json_eqb_str "boolean" type); [discriminate|].
        now intros [= <-].
    + destruct (get schema "allOf") as [[| | | | |allOf|]|]; try now intros [= <-].
      destruct (merge_allOf allOf) as [merged|e]; [|discriminate].
      rewrite bind_lift_ok. apply IH.
Qed.

End TypeMapperFacts.

(* ===================================================================== *)
(** * Facts: synthesizer and walker *)
(* ===================================================================== *)

Module SynthesizerFacts.
Import JS JSFacts TypeMapper TypeMapperFacts PathTemplate Synthesizer.

Lemma split_on_join sep s :
  let (piece, pieces) := split_on sep s in
  String.concat (String sep "") (piece :: pieces) = s.
Proof.
  induction s as [|c s IH]; [reflexivity|].
  cbn [split_on]. destruct (split_on sep s) as [piece pieces].
  destruct (Ascii.eqb_spec c sep) as [->|Hc].
  - change (String.concat (String sep "") ("" :: piece :: pieces))
      with (String sep (String.concat (String sep "") (piece :: pieces))).
    now rewrite IH.
  - destruct pieces as [|p pieces]; cbn [String.concat append] in *; now rewrite IH.
Qed.

Lemma split_on_no_sep sep s :
  let (piece, pieces) := split_on sep s in
  Forall (fun p => PathTemplate.has_char sep p = false) (piece :: pieces).
Proof.
  induction s as [|c s IH]; [repeat constructor|].
  cbn [split_on]. destruct (split_on sep s) as [piece pieces].
  destruct (Ascii.eqb_spec c sep) as [->|Hc].
  - constructor; [reflexivity|exact IH].
  - inversion IH; subst. constructor; [|assumption].
    cbn [has_char]. apply Ascii.eqb_neq in Hc. now rewrite Hc.
Qed.

Lemma access_chain_fold names e root seen :
  access_chain e = Some (root, seen) ->
  access_chain (fold_left PropertyAccessExpression names e) =
  Some (root, (seen ++ names)%list).
Proof.
  revert e seen. induction names as [|n names IH]; intros e seen He; cbn [fold_left].
  - now rewrite app_nil_r.
  - erewrite IH; [|cbn [access_chain]; rewrite He; reflexivity].
    now rewrite <- app_assoc.
Qed.

Lemma makeDynamicBaseUrl_chain value :
  access_chain (makeDynamicBaseUrl value) = Some (split_on "." value).
Proof.
  unfold makeDynamicBaseUrl. destruct (split_on "." value) as [part0 parts].
  destruct parts as [|part1 parts]; [reflexivity|].
  now rewrite (access_chain_fold parts _ part0 [part1]).
Qed.

Lemma isJSONResponse_schema response schema :
  json_response_schema response = Some schema ->
  response_schema response = schema.
Proof.
  unfold json_response_schema, response_schema, object_member, read.
  destruct (is_object response); [|discriminate].
  destruct (get response "content") as [content|]; [|discriminate].
  destruct (is_object content); [|discriminate].
  destruct (get content "application/json") as [media|]; [|discriminate].
  destruct (is_object media); [|discriminate].
  destruct (get media "schema") as [s|]; [|discriminate].
  destruct (is_object s); [|discriminate]. now intros [= ->].
Qed.

End SynthesizerFacts.

Module WalkerFacts.
Import JS JSFacts Walker.

Lemma mapR_throws {A B} (f : A -> result B) l x e :
  In x l -> f x = Throw e -> exists e', mapR f l = Throw e'.
Proof.
  induction l as [|y l IH]; [intros []|]. intros [->|Hin] Hx; cbn [mapR].
  - rewrite Hx. eauto.
  - destruct (f y); [|eauto]. destruct (IH Hin Hx) as [e' ->]. eauto.
Qed.

Lemma mapR_throw_inv {A B} (f : A -> result B) l e :
  mapR f l = Throw e -> exists x, In x l /\ f x = Throw e.
Proof.
  induction l as [|y l IH]; cbn [mapR]; [discriminate|].
  destruct (f y) as [b|e'] eqn:Ey.
  - destruct (mapR f l) as [bs|e'']; [discriminate|]. intros [= ->].
    destruct (IH eq_refl) as (x & Hin & Hx). exists x. split; [now right|exact Hx].
  - intros [= ->]. exists y. split; [now left|exact Ey].
Qed.

Lemma check_fatal operation :
  fatal_entry operation -> exists e, check_operation operation = Throw e.
Proof.
  intros [(elements & ->)|[(s & ->)|(members & -> & Hid)]]; unfold check_operation.
  - cbn. eauto.
  - cbn. eauto.
  - cbn [is_array js_in get]. rewrite Hid. eauto.
Qed.

Lemma operation_config_throw path method operation e :
  operation_config path method operation = Throw e ->
  check_operation operation = Throw e.
Proof.
  unfold operation_config. destruct (check_operation operation) as [[]|e'] eqn:Ec.
  - unfold check_operation in Ec.
    destruct operation; cbn in Ec; try discriminate Ec. cbn. discriminate.
  - now intros [= ->].
Qed.

Lemma operation_config_fatal path method operation :
  fatal_entry operation ->
  exists e, operation_config path method operation = Throw e.
Proof.
  intros H. destruct (check_fatal _ H) as [e He].
  unfold operation_config. rewrite He. eauto.
Qed.

(** A malformed entry anywhere in the walk stops the collection. *)
Lemma collect_configs_fatal paths path method operation :
  walked paths path method operation -> fatal_entry operation ->
  exists e, collect_configs paths = Throw e.
Proof.
  intros (names & methods & Hn & Hpath & Hk & Hmethod & ->) Hf.
  unfold collect_configs. rewrite Hn.
  destruct (operation_config_fatal path method _ Hf) as [e He].
  assert (exists e', path_configs paths path = Throw e') as [e' He'].
  { unfold path_configs. rewrite Hk.
    destruct (mapR_throws
                (fun method => operation_config path method
                                 (read (read paths path) method))
                methods method e Hmethod He) as [e' ->]. eauto. }
  destruct (mapR_throws (path_configs paths) names path e' Hpath He') as [e'' ->].
  eauto.
Qed.

(** Whatever stops the collection was thrown at an entry of the walk. *)
Lemma collect_configs_throw paths e :
  collect_configs paths = Throw e ->
  getOwnPropertyNames paths = Throw e \/ raised_by_walk paths e.
Proof.
  unfold collect_configs. destruct (getOwnPropertyNames paths) as [names|e'] eqn:Hn.
  2:{ intros [= ->]. now left. }
  destruct (mapR (path_configs paths) names) as [nested|e'] eqn:Hm; [discriminate|].
  intros [= ->]. right.
  apply mapR_throw_inv in Hm as (path & Hpath & Hp).
  unfold path_configs in Hp.
  destruct (keys (read paths path)) as [methods|e'] eqn:Hk.
  - apply mapR_throw_inv in Hp as (method & Hmethod & Hop).
    apply operation_config_throw in Hop.
    right. exists path, method, (read (read paths path) method).
    split; [|exact Hop]. exists names, methods. auto.
  - injection Hp as ->. left. exists names, path. auto.
Qed.

Lemma truthy_names paths :
  truthy paths = true -> exists names, getOwnPropertyNames paths = Ok names.
Proof. destruct paths; cbn; try discriminate; eauto. Qed.

Lemma odd_length_rejected args :
  Nat.odd (length args) = true ->
  getOptions args = Throw (Error "Invalid number of arguments").
Proof.
  intros H. unfold getOptions.
  replace (Nat.eqb (Nat.modulo (length args) 2) 0) with false; [reflexivity|].
  symmetry. apply Nat.eqb_neq. intros Hm.
  apply Nat.Div0.mod_divides in Hm as [k Hk].
  rewrite Hk, Nat.odd_mul in H. cbn in H. discriminate.
Qed.

End WalkerFacts.

(* ===================================================================== *)
(** * Facts: the emitted helper at run time *)
(* ===================================================================== *)

Module RuntimeFacts.
Import JS Synthesizer Runtime.

Lemma init_pairs_typed init :
  init_pairs (init_value init) = mret (natural_entries init).
Proof.
  destruct init as [h|pairs|record]; cbn [init_value init_pairs natural_entries].
  - reflexivity.
  - induction pairs as [|[k v] pairs IH]; [reflexivity|].
    cbn [map mapM fst snd string_pair]. unfold mbind at 1, mret at 1.
    rewrite IH. reflexivity.
  - induction record as [|[k v] record IH]; [reflexivity|].
    cbn [map mapM fst snd string_member]. unfold mbind at 1, mret at 1.
    rewrite IH. reflexivity.
Qed.

(** A loop whose step sets one entry into the collection its state holds. *)
Lemma foreach_sets {S A} (step : S -> A -> M S)
      (state : Headers.header_list -> S) (item : string * string -> A)
      entries h :
  (forall h kv, step (state h) (item kv) =
                match Headers.set (fst kv) (snd kv) h with
                | Ok h' => mret (state h')
                | Throw e => mthrow e
                end) ->
  foreach step (map item entries) (state h) =
  match Headers.set_all entries h with
  | Ok h' => mret (state h')
  | Throw e => mthrow e
  end.
Proof.
  intros Hstep. revert h. induction entries as [|[k v] entries IH]; intros h.
  - reflexivity.
  - cbn [map foreach Headers.set_all]. rewrite Hstep. cbn [fst snd].
    destruct (Headers.set k v h) as [h'|e]; cbn [mbind mret mthrow]; [apply IH|reflexivity].
Qed.

Lemma new_Headers_typed init :
  new_Headers (init_value init) =
  match Headers.fill (natural_entries init) [] with
  | Ok h => mret (VHeaders h)
  | Throw e => mthrow e
  end.
Proof.
  unfold new_Headers. rewrite init_pairs_typed. cbn [mbind mret mlift].
  destruct (Headers.fill _ _); reflexivity.
Qed.

(** Rewrites the loop of the helper that the goal shows into [set_all]. *)
Ltac loop_sets item :=
  match goal with
  | |- context [foreach _ _ [("combinedHeaders", VHeaders ?c); ("headers", ?o);
                             ("defaultHeaders", ?d)]] =>
      change [("combinedHeaders", VHeaders c); ("headers", o); ("defaultHeaders", d)]
        with (helper_env d o c);
      rewrite (foreach_sets _ (helper_env d o) item);
      [ match goal with
        | |- context [Headers.set_all ?es ?h] =>
            destruct (Headers.set_all es h); reflexivity
        end
      | let h0 := fresh "h" in
        let kv := fresh "kv" in
        intros h0 kv; cbn;
        destruct (Headers.set (fst kv) (snd kv) h0); reflexivity ]
  end.

Ltac default_collection :=
  change (Headers.append "Accept" "application/json" [])
    with (Ok [("accept", "application/json")] : result Headers.header_list);
  cbn iota;
  try change (Headers.append "Content-Type" "application/json"
                [("accept", "application/json")])
    with (Ok [("accept", "application/json");
              ("content-type", "application/json")] : result Headers.header_list);
  cbn.

Section Platform.
Variable URL_accepts : string -> value -> bool.

Local Abbreviation call := (Runtime.call URL_accepts).
Local Abbreviation eval := (Runtime.eval URL_accepts).

Lemma run_helper fuel defaults overrides :
  call helper_program (12 + fuel) "combineHeaders"
       [init_value defaults; optional_init overrides] =
  match Headers.fill (natural_entries defaults) [] with
  | Throw e => mthrow e
  | Ok combined =>
      match overrides with
      | None => mret (VHeaders combined)
      | Some init =>
          match Headers.set_all (natural_entries init) combined with
          | Ok h => mret (VHeaders h)
          | Throw e => mthrow e
          end
      end
  end.
Proof.
  unfold call, invoke.
  destruct overrides as [[h|pairs|record]|]; cbn; rewrite new_Headers_typed;
    (destruct (Headers.fill (natural_entries defaults) []) as [combined|e];
     [|reflexivity]); cbn.
  - loop_sets (fun kv : string * string => [VString (snd kv); VString (fst kv)]).
  - rewrite map_map.
    loop_sets (fun kv : string * string => [VArray [VString (fst kv); VString (snd kv)]]).
  - rewrite !map_map. cbn [fst snd].
    loop_sets (fun kv : string * string => [VArray [VString (fst kv); VString (snd kv)]]).
  - reflexivity.
Qed.

(** The [fetch] call of an operation, run where [url] and [requestInit]
    are bound: the helper merges the defaults with [requestInit.headers],
    and the literal then copies [requestInit] over its own [method] and
    [headers]. *)
Lemma fetch_call_run fuel method url (requestInit : obj value)
      (supplied : option HeadersInit) :
  obj_get "headers" requestInit = option_map init_value supplied ->
  eval helper_program (16 + fuel)
       [("url", url); ("requestInit", VObject requestInit)] (fetch_call method) =
  merged <- call helper_program (12 + fuel) "combineHeaders"
                 [init_value (default_headers method); optional_init supplied] ;;
  mret (VFetch url
          (VObject (obj_assign requestInit
                      [("method", VString method); ("headers", merged)])),
        [("url", url); ("requestInit", VObject requestInit)]).
Proof.
  intros Hh. rewrite run_helper. unfold fetch_call, default_headers.
  destruct (methodHasBody method);
    destruct supplied as [[h|pairs|record]|]; cbn [option_map optional_init] in *;
    cbn; unfold own_member; rewrite Hh; cbn; default_collection.
  - loop_sets (fun kv : string * string => [VString (snd kv); VString (fst kv)]).
  - rewrite map_map.
    loop_sets (fun kv : string * string => [VArray [VString (fst kv); VString (snd kv)]]).
  - rewrite !map_map. cbn [fst snd].
    loop_sets (fun kv : string * string => [VArray [VString (fst kv); VString (snd kv)]]).
  - reflexivity.
  - loop_sets (fun kv : string * string => [VString (snd kv); VString (fst kv)]).
  - rewrite map_map.
    loop_sets (fun kv : string * string => [VArray [VString (fst kv); VString (snd kv)]]).
  - rewrite !map_map. cbn [fst snd].
    loop_sets (fun kv : string * string => [VArray [VString (fst kv); VString (snd kv)]]).
  - reflexivity.
Qed.
End Platform.

End RuntimeFacts.

Module HeadersFacts.
Import JS Runtime Headers.

Local Abbreviation named n := (fun kv : string * string => fst kv =? n).

Lemma filter_named_removed n h :
  filter (named n) (filter (fun kv => negb (fst kv =? n)) h) = [].
Proof.
  induction h as [|[k w] h IH]; [reflexivity|]. cbn [filter fst].
  destruct (String.eqb_spec k n) as [->|Hk]; cbn [negb]; [exact IH|].
  cbn [filter fst]. apply String.eqb_neq in Hk. now rewrite Hk.
Qed.

Lemma filter_named_kept n m h :
  n <> m ->
  filter (named m) (filter (fun kv => negb (fst kv =? n)) h) = filter (named m) h.
Proof.
  intros Hnm. induction h as [|[k w] h IH]; [reflexivity|]. cbn [filter fst].
  destruct (String.eqb_spec k n) as [->|Hk]; cbn [negb].
  - apply String.eqb_neq in Hnm. rewrite Hnm. exact IH.
  - cbn [filter fst]. now rewrite IH.
Qed.

Lemma replace_first_same n v h :
  existsb (named n) h = true ->
  map snd (filter (named n) (replace_first n v h)) = [v].
Proof.
  induction h as [|[k w] h IH]; [discriminate|]. cbn [existsb fst replace_first].
  destruct (String.eqb_spec k n) as [->|Hk].
  - intros _. cbn [filter fst]. rewrite String.eqb_refl.
    cbn [map snd]. now rewrite filter_named_removed.
  - cbn [orb]. intros H. cbn [filter fst].
    apply String.eqb_neq in Hk. rewrite Hk. now apply IH.
Qed.

Lemma replace_first_other n m v h :
  n <> m -> filter (named m) (replace_first n v h) = filter (named m) h.
Proof.
  intros Hnm. induction h as [|[k w] h IH]; [reflexivity|]. cbn [replace_first].
  destruct (String.eqb_spec k n) as [->|Hk].
  - cbn [filter fst]. apply String.eqb_neq in Hnm. rewrite Hnm.
    apply String.eqb_neq in Hnm. now apply filter_named_kept.
  - cbn [filter fst]. now rewrite IH.
Qed.

Lemma existsb_named_filter n h :
  existsb (named n) h = false -> filter (named n) h = [].
Proof.
  induction h as [|kv h IH]; [reflexivity|]. cbn [existsb filter].
  destruct (fst kv =? n); [discriminate|]. exact IH.
Qed.

(** After [set], the name holds the one new value; other names are as
    before. *)
Lemma get_set name value h h' name' :
  set name value h = Ok h' ->
  get name' h' =
  if same_name name name' then Some (normalize value) else get name' h.
Proof.
  unfold set, checked. destruct (valid_name name && valid_value (normalize value));
    [|discriminate].
  intros [= <-]. unfold get, values_of, same_name.
  destruct (String.eqb_spec (toLowerCase name) (toLowerCase name')) as [<-|Hne].
  - destruct (existsb (named (toLowerCase name)) h) eqn:Hc.
    + now rewrite replace_first_same.
    + rewrite filter_app, (existsb_named_filter _ _ Hc). cbn [filter fst app].
      now rewrite String.eqb_refl.
  - destruct (existsb (named (toLowerCase name)) h).
    + now rewrite replace_first_other.
    + rewrite filter_app. cbn [filter fst]. apply String.eqb_neq in Hne.
      rewrite Hne. now rewrite app_nil_r.
Qed.

Lemma last_entry_snoc name entries k v :
  last_entry name (entries ++ [(k, v)]) =
  if same_name k name then Some (k, v) else last_entry name entries.
Proof.
  unfold last_entry. rewrite rev_app_distr. reflexivity.
Qed.

Lemma set_all_app es1 es2 h :
  set_all (es1 ++ es2) h =
  match set_all es1 h with
  | Ok h' => set_all es2 h'
  | Throw e => Throw e
  end.
Proof.
  revert h. induction es1 as [|[k v] es1 IH]; intros h; [reflexivity|].
  cbn [app set_all]. destruct (set k v h); [apply IH|reflexivity].
Qed.

(** Later entries win over earlier ones, and set entries over what the
    collection held. *)
Lemma get_set_all entries h h' name :
  set_all entries h = Ok h' ->
  get name h' =
  match last_entry name entries with
  | Some kv => Some (normalize (snd kv))
  | None => get name h
  end.
Proof.
  revert h'. induction entries as [|[k v] entries IH] using rev_ind; intros h'.
  - intros [= <-]. reflexivity.
  - rewrite set_all_app. destruct (set_all entries h) as [h1|e] eqn:E1; [|discriminate].
    cbn [set_all]. destruct (set k v h1) as [h2|e] eqn:E2; [|discriminate].
    intros [= <-]. rewrite (get_set _ _ _ _ name E2), last_entry_snoc.
    destruct (same_name k name); [reflexivity|]. now apply IH.
Qed.

Lemma set_all_valid entries h :
  Forall (fun kv => valid_name (fst kv) && valid_value (normalize (snd kv)) = true)
         entries ->
  exists h', set_all entries h = Ok h'.
Proof.
  intros H. revert h. induction H as [|[k v] entries Hkv _ IH]; intros h.
  - now exists h.
  - cbn [set_all]. unfold set, checked. cbn [fst snd] in Hkv. rewrite Hkv. apply IH.
Qed.

Lemma same_name_refl name : same_name name name = true.
Proof. apply String.eqb_refl. Qed.

Lemma last_entry_in name value entries :
  In (name, value) entries -> exists kv, last_entry name entries = Some kv.
Proof.
  intros Hin. unfold last_entry. apply in_rev in Hin.
  destruct (find _ (rev entries)) as [kv|] eqn:E; [eauto|].
  pose proof (find_none _ _ E _ Hin) as H. cbn [fst] in H.
  now rewrite same_name_refl in H.
Qed.

Lemma get_contains name h v : get name h = Some v -> contains name h = true.
Proof.
  unfold get, values_of, contains.
  induction h as [|kv h IH]; [discriminate|]. cbn [filter existsb].
  destruct (fst kv =? toLowerCase name); [reflexivity|]. exact IH.
Qed.

(** A new collection holds the given entries in their order, names in lower
    case and values trimmed. *)
Lemma fill_entries pairs h h' :
  fill pairs h = Ok h' ->
  h' = (h ++ map (fun kv => (toLowerCase (fst kv), normalize (snd kv))) pairs)%list.
Proof.
  revert h. induction pairs as [|[k v] pairs IH]; intros h; cbn [fill map].
  - intros [= <-]. now rewrite app_nil_r.
  - unfold append, checked.
    destruct (valid_name k && valid_value (normalize v)); [|discriminate].
    intros H. apply IH in H. now rewrite <- app_assoc in H.
Qed.

End HeadersFacts.
(* ===================================================================== *)
(** * Facts: the emitted operation function at run time *)
(* ===================================================================== *)

Module OperationFacts.
Import JS JSFacts PathTemplate PathTemplateFacts Synthesizer Runtime RuntimeFacts.
Import Vocabulary.

Lemma append_nil_r s : s ++ "" = s.
Proof. induction s as [|c s IH]; [reflexivity|]. cbn. now rewrite IH. Qed.

Lemma append_assoc (a b c : string) : (a ++ b) ++ c = a ++ b ++ c.
Proof. induction a as [|x a IH]; [reflexivity|]. cbn. now rewrite IH. Qed.

Lemma fill_prefix a s segments texts :
  fill_placeholders ((a ++ s) :: segments) texts =
  a ++ fill_placeholders (s :: segments) texts.
Proof. destruct texts; cbn [fill_placeholders]; [reflexivity|]. now rewrite append_assoc. Qed.

Lemma template_shape path :
  exists s segments,
    split_path path = s :: segments /\
    length segments = length (extractParams path) /\
    makeTemplateExpressionFromPath path =
    match extractParams path with
    | [] => StringLiteral path
    | _ :: _ => TemplateExpression (Some s)
                  (interleaved_spans (extractParams path) segments)
    end.
Proof.
  unfold makeTemplateExpressionFromPath, extractParams, split_path.
  destruct (loops_agree path) as (HL & _ & _).
  destruct (split_loop path) as [|s segments] eqn:Es; [discriminate HL|].
  exists s, segments. split; [reflexivity|]. cbn [length] in HL. injection HL as HL.
  split; [exact HL|].
  destruct (extractParams_loop path) as [|n names] eqn:En; [reflexivity|].
  cbn [length Nat.eqb nth_error].
  pose proof (template_spans_spec (s :: segments) (n :: names) []) as H.
  cbn [length Nat.add skipn] in H. rewrite H; [reflexivity|].
  cbn [length]. now rewrite HL.
Qed.

Lemma own_member_plain (o : obj value) name :
  inherited_name name = false -> own_member o name = mret (member name o).
Proof.
  intros H. unfold own_member, member. rewrite H. now destruct (obj_get name o).
Qed.

(** Destructuring an object into names that objects do not inherit. *)
Lemma bind_object_pattern (o : obj value) names :
  forallb (fun name => negb (inherited_name name)) names = true ->
  mapM (fun name => x <- own_member o name ;; mret (name, x)) names =
  mret (map (fun name => (name, member name o)) names).
Proof.
  induction names as [|n names IH]; [reflexivity|].
  cbn [forallb mapM map]. intros H. apply andb_true_iff in H as [Hn H].
  apply negb_true_iff in Hn. rewrite (own_member_plain _ _ Hn). cbn [mbind mret].
  now rewrite (IH H).
Qed.

Section InProgram.
Variable URL_accepts : string -> value -> bool.
Variable program : list Declaration.

Local Abbreviation eval := (Runtime.eval URL_accepts).
Local Abbreviation exec := (Runtime.exec URL_accepts).
Local Abbreviation call := (Runtime.call URL_accepts).

Hypothesis file_read : file_reads_back program = true.

Lemma platform_name_free name :
  find_function name program = None -> platform_name program name = true.
Proof. unfold platform_name. now intros ->. Qed.

Lemma eval_identifier fuel env x v :
  identifier_name x = true -> obj_get x env = Some v ->
  eval program (S fuel) env (EIdentifier x) = mret (v, env).
Proof. intros Hx H. cbn [Runtime.eval]. now rewrite Hx, H. Qed.

Lemma eval_undefined fuel env :
  find_function "undefined" program = None ->
  obj_get "undefined" env = None ->
  eval program (S fuel) env (EIdentifier "undefined") = mret (VUndefined, env).
Proof. intros Hp H. cbn. now rewrite H, (platform_name_free _ Hp). Qed.

Lemma get_member_plain (o : obj value) name :
  obj_get name o <> None \/ inherited_name name = false ->
  get_member (VObject o) name = mret (member name o).
Proof.
  unfold get_member, own_member, member. destruct (obj_get name o); [reflexivity|].
  intros [H|H]; [now contradiction H|now rewrite H].
Qed.

Lemma eval_member fuel env x o name :
  identifier_name x = true -> identifier_name name = true ->
  obj_get x env = Some (VObject o) ->
  obj_get name o <> None \/ inherited_name name = false ->
  eval program (S (S fuel)) env (PropertyAccessExpression (EIdentifier x) name) =
  mret (member name o, env).
Proof.
  intros Hx Hn H Hm. cbn [Runtime.eval]. rewrite Hn, Hx, H. cbn [mbind mret].
  now rewrite (get_member_plain _ _ Hm).
Qed.

(** ** The template *)

Lemma eval_template_expression fuel env head spans :
  template_text head = true ->
  eval program (S fuel) env (TemplateExpression (Some head) spans) =
  template_value (eval program fuel) env spans head.
Proof. intros H. cbn [Runtime.eval]. now rewrite H. Qed.

Lemma template_value_spans fuel env params names segments texts text :
  obj_get "params" env = Some (VObject params) ->
  length segments = length names ->
  Forall (fun name => identifier_name name = true) names ->
  Forall (fun segment => template_text segment = true) segments ->
  Forall2 (fun name t => param_text params name = Some t) names texts ->
  template_value (eval program (S (S fuel))) env (interleaved_spans names segments) text =
  mret (VString (fill_placeholders (text :: segments) texts), env).
Proof.
  intros Hp HL Hnames Hsegments Ht. revert segments HL Hsegments text.
  induction Ht as [|n t names texts Hn Ht IH]; intros segments HL Hsegments text.
  - destruct segments; [|discriminate HL]. reflexivity.
  - destruct segments as [|s segments]; [discriminate HL|]. injection HL as HL.
    inversion Hnames as [|? ? Hid Hnames']; subst.
    inversion Hsegments as [|? ? Hs Hsegments']; subst.
    specialize (IH Hnames' segments HL Hsegments' (text ++ t ++ s)).
    assert (Hm : eval program (S (S fuel)) env
                   (PropertyAccessExpression (EIdentifier "params") n) =
                 mret (member n params, env)).
    { apply eval_member; [reflexivity|exact Hid|exact Hp|].
      unfold param_text in Hn. destruct (obj_get n params); [now left|right].
      now destruct (inherited_name n). }
    assert (Htext : to_text (member n params) = mret t).
    { unfold param_text in Hn. unfold member.
      destruct (obj_get n params) as [[]|]; cbn; try discriminate Hn;
        [now injection Hn as <-..|].
      destruct (inherited_name n); [discriminate Hn|now injection Hn as <-]. }
    assert (Hstep : forall part,
               part = TemplateMiddle (Some s) \/ part = TemplateTail (Some s) ->
               template_value (eval program (S (S fuel))) env
                 ((PropertyAccessExpression (EIdentifier "params") n, part)
                    :: interleaved_spans names segments) text =
               mret (VString (fill_placeholders (text :: s :: segments) (t :: texts)),
                     env)).
    { intros part [-> | ->]; cbn [template_value]; rewrite Hs, Hm; cbn [mbind mret];
        rewrite Htext; cbn [mbind mret]; rewrite IH, !fill_prefix; reflexivity. }
    destruct names as [|n' names].
    + inversion Ht; subst. destruct segments; [|discriminate HL].
      apply (Hstep (TemplateTail (Some s))). now right.
    + apply (Hstep (TemplateMiddle (Some s))). now left.
Qed.

(** Running the template of a path where [params] holds the texts. *)
Lemma eval_template fuel env params path texts :
  template_reads_back path = true ->
  (extractParams path <> [] -> obj_get "params" env = Some (VObject params)) ->
  Forall2 (fun name t => param_text params name = Some t) (extractParams path) texts ->
  eval program (S (S (S fuel))) env (makeTemplateExpressionFromPath path) =
  mret (VString (fill_placeholders (split_path path) texts), env).
Proof.
  intros Hr Hp Ht. destruct (template_shape path) as (s & segments & Hs & HL & ->).
  unfold template_reads_back in Hr. rewrite Hs in Hr |- *.
  destruct (extractParams path) as [|n names] eqn:En.
  - inversion Ht; subst. destruct segments; [|discriminate HL].
    cbn [fill_placeholders]. unfold split_path in Hs.
    pose proof (loops_agree path) as (_ & Hi & _).
    unfold extractParams in En. rewrite Hs, En in Hi. cbn in Hi. now subst s.
  - apply andb_true_iff in Hr as [Hnames Hsegments].
    rewrite forallb_forall in Hnames, Hsegments.
    rewrite eval_template_expression by (apply Hsegments; now left).
    apply template_value_spans with params.
    + apply Hp. discriminate.
    + exact HL.
    + apply Forall_forall. exact Hnames.
    + apply Forall_forall. intros x Hx. apply Hsegments. now right.
    + exact Ht.
Qed.

(** ** The statements of the body *)

Lemma eval_call_fetch fuel env a b :
  obj_get "fetch" env = None ->
  find_function "fetch" program = None ->
  eval program (S fuel) env (CallExpression (EIdentifier "fetch") [a; b]) =
  '(va, env1) <- eval program fuel env a ;;
  '(vb, env2) <- eval program fuel env1 b ;;
  mret (VFetch va vb, env2).
Proof.
  intros He Hp. cbn. rewrite He.
  destruct (Runtime.eval URL_accepts program fuel env a) as [[[va env1]|e]|];
    cbn; [|reflexivity..].
  destruct (Runtime.eval URL_accepts program fuel env1 b) as [[[vb env2]|e]|];
    cbn; [|reflexivity..].
  now rewrite Hp.
Qed.

Lemma eval_call_helper fuel env a b :
  find_function "combineHeaders" program = function_parts makeCombineHeadersFunction ->
  obj_get "combineHeaders" env = None ->
  eval program (S fuel) env (CallExpression (EIdentifier "combineHeaders") [a; b]) =
  '(va, env1) <- eval program fuel env a ;;
  '(vb, env2) <- eval program fuel env1 b ;;
  v <- call program fuel "combineHeaders" [va; vb] ;;
  mret (v, env2).
Proof.
  intros Hd He. cbn. rewrite He.
  destruct (Runtime.eval URL_accepts program fuel env a) as [[[va env1]|e]|];
    cbn; [|reflexivity..].
  destruct (Runtime.eval URL_accepts program fuel env1 b) as [[[vb env2]|e]|];
    cbn; [|reflexivity..].
  unfold Runtime.call. now rewrite file_read, Hd.
Qed.

Lemma eval_fetch_init fuel env e1 e2 e3 multiline :
  eval program (S fuel) env
       (ObjectLiteralExpression
          [PropertyAssignment (NameIdentifier "method") e1;
           PropertyAssignment (NameIdentifier "headers") e2;
           SpreadAssignment e3]
          multiline) =
  '(v1, env1) <- eval program fuel env e1 ;;
  '(v2, env2) <- eval program fuel env1 e2 ;;
  '(v3, env3) <- eval program fuel env2 e3 ;;
  mret (VObject (obj_assign match own_entries v3 with Ok es => es | Throw _ => [] end
                   [("method", v1); ("headers", v2)]),
        env3).
Proof.
  cbn.
  destruct (Runtime.eval URL_accepts program fuel env e1) as [[[v1 env1]|e]|];
    cbn; [|reflexivity..].
  destruct (Runtime.eval URL_accepts program fuel env1 e2) as [[[v2 env2]|e]|];
    cbn; [|reflexivity..].
  destruct (Runtime.eval URL_accepts program fuel env2 e3) as [[[v3 env3]|e]|];
    cbn; reflexivity.
Qed.

Lemma eval_default_headers fuel env method :
  eval program (S (S fuel)) env
       (ObjectLiteralExpression
          (if methodHasBody method then [json_accept; json_content_type]
           else [json_accept]) false) =
  mret (init_value (default_headers method), env).
Proof. unfold default_headers. destruct (methodHasBody method); reflexivity. Qed.

(** The [fetch] call where [url] and [requestInit] are the first variables
    in scope. *)
Lemma fetch_call_in fuel method url (requestInit : obj value) (rest : Env) :
  find_function "combineHeaders" program = function_parts makeCombineHeadersFunction ->
  find_function "fetch" program = None ->
  obj_get "fetch" rest = None ->
  obj_get "combineHeaders" rest = None ->
  let env := ("url", url) :: ("requestInit", VObject requestInit) :: rest in
  eval program (S (S (S (S (S fuel))))) env (fetch_call method) =
  merged <- call program (S (S fuel)) "combineHeaders"
                 [init_value (default_headers method);
                  member "headers" requestInit] ;;
  mret (VFetch url
          (VObject (obj_assign requestInit
                      [("method", VString method); ("headers", merged)])),
        env).
Proof.
  intros Hd Hp Hf Hc env. unfold fetch_call.
  rewrite eval_call_fetch; [|exact Hf|exact Hp].
  rewrite (eval_identifier _ env "url" url eq_refl eq_refl). cbn [mbind mret].
  rewrite eval_fetch_init.
  change (Runtime.eval URL_accepts program (S (S (S fuel))) env (StringLiteral method))
    with (mret (VString method, env) : M (value * Env)).
  cbn [mbind mret].
  rewrite eval_call_helper; [|exact Hd|exact Hc].
  rewrite eval_default_headers. cbn [mbind mret].
  rewrite (eval_member _ env "requestInit" requestInit "headers" eq_refl eq_refl
             eq_refl (or_intror eq_refl)).
  cbn [mbind mret].
  destruct (Runtime.call URL_accepts program (S (S fuel)) "combineHeaders" _)
    as [[merged|e]|]; cbn [mbind mret]; [|reflexivity..].
  rewrite (eval_identifier _ env "requestInit" (VObject requestInit) eq_refl eq_refl).
  reflexivity.
Qed.

(** With [requestInit] undefined, the read of its [headers] throws before
    [fetch] is called. *)
Lemma fetch_call_without_options fuel method url (rest : Env) :
  find_function "combineHeaders" program = function_parts makeCombineHeadersFunction ->
  find_function "fetch" program = None ->
  obj_get "fetch" rest = None ->
  obj_get "combineHeaders" rest = None ->
  eval program (S (S (S (S (S fuel)))))
       (("url", url) :: ("requestInit", VUndefined) :: rest) (fetch_call method) =
  mthrow TypeError.
Proof.
  intros Hd Hp Hf Hc. unfold fetch_call.
  rewrite eval_call_fetch; [|exact Hf|exact Hp].
  rewrite (eval_identifier _ (("url", url) :: ("requestInit", VUndefined) :: rest)
             "url" url eq_refl eq_refl).
  cbn [mbind mret]. rewrite eval_fetch_init.
  match goal with
  | |- context [Runtime.eval URL_accepts program ?f ?env (StringLiteral ?m)] =>
      change (Runtime.eval URL_accepts program f env (StringLiteral m))
        with (mret (VString m, env) : M (value * Env))
  end.
  cbn [mbind mret].
  rewrite eval_call_helper; [|exact Hd|exact Hc].
  rewrite eval_default_headers. cbn [mbind mret]. reflexivity.
Qed.

Lemma eval_new_URL fuel env a b :
  find_function "URL" program = None ->
  obj_get "URL" env = None ->
  eval program (S fuel) env (NewExpression (EIdentifier "URL") [a; b]) =
  '(va, env1) <- eval program fuel env a ;;
  '(vb, env2) <- eval program fuel env1 b ;;
  match va with
  | VString url =>
      if URL_accepts url vb then mret (VURL url vb None, env2) else mthrow TypeError
  | _ => None
  end.
Proof.
  intros Hp He. cbn. rewrite He, (platform_name_free _ Hp).
  destruct (Runtime.eval URL_accepts program fuel env a) as [[[va env1]|e]|];
    cbn; [|reflexivity..].
  destruct (Runtime.eval URL_accepts program fuel env1 b) as [[[vb env2]|e]|];
    cbn; [|reflexivity..].
  destruct va; reflexivity.
Qed.

Lemma exec_variable fuel env x e :
  exec program (S fuel) env (VariableStatement x e) =
  '(v, env1) <- eval program fuel env e ;; mret (Normal, (x, v) :: env1).
Proof. reflexivity. Qed.

Lemma exec_return fuel env e :
  exec program (S fuel) env (ReturnStatement e) =
  '(v, env1) <- eval program fuel env e ;; mret (Returned v, env1).
Proof. reflexivity. Qed.

Lemma exec_if fuel env e thenStatement :
  exec program (S fuel) env (IfStatement e thenStatement None) =
  '(v, env1) <- eval program fuel env e ;;
  if truthy v then exec program fuel env1 thenStatement else mret (Normal, env1).
Proof. reflexivity. Qed.

(** [url.search = search;] in a block, where [url] is the first variable. *)
Lemma exec_set_search fuel url base search v rest multiline :
  obj_get "search" rest = Some v ->
  let env u := ("url", u) :: rest in
  exec program (S (S (S (S fuel)))) (env (VURL url base search))
       (Block
          [ExpressionStatement
             (BinaryExpression
                (PropertyAccessExpression (EIdentifier "url") "search")
                EqualsToken (EIdentifier "search"))] multiline) =
  mret (Normal, env (VURL url base (Some v))).
Proof.
  intros Hs env. cbn. rewrite Hs. cbn. rewrite Nat.sub_diag. reflexivity.
Qed.

(** A block whose first statement throws. *)
Lemma exec_block_throw fuel env s1 rest e multiline :
  exec program fuel env s1 = mthrow e ->
  exec program (S fuel) env (Block (s1 :: rest) multiline) = mthrow e.
Proof. intros H. cbn. now rewrite H. Qed.

Lemma exec_body fuel env s1 s2 s3 env1 env2 c multiline :
  exec program fuel env s1 = mret (Normal, env1) ->
  exec program fuel env1 s2 = mret (Normal, env2) ->
  exec program fuel env2 s3 = c ->
  exec program (S fuel) env (Block [s1; s2; s3] multiline) =
  '(c', env') <- c ;; mret (c', skipn (length env' - length env) env').
Proof.
  intros H1 H2 <-. cbn. rewrite H1. cbn. rewrite H2. cbn.
  destruct (Runtime.exec URL_accepts program fuel env2 s3) as [[[[|v] env3]|e]|];
    reflexivity.
Qed.

Lemma eval_base fuel env URL_parses baseUrl base :
  find_function "undefined" program = None ->
  static_base URL_parses baseUrl = Some base ->
  obj_get "undefined" env = None ->
  eval program (S fuel) env (base_argument URL_parses baseUrl) = mret (base, env).
Proof.
  unfold static_base, base_argument, isValidURL. intros Hp Hb He.
  destruct baseUrl as [u|]; [|injection Hb as <-; now apply eval_undefined].
  destruct (u =? ""); cbn [negb]; [injection Hb as <-; now apply eval_undefined|].
  destruct (URL_parses u); [|discriminate]. now injection Hb as <-.
Qed.

Section Operation.
Variable URL_parses : string -> bool.
Variable config : OperationConfig.
Hypothesis operation_declared :
  find_function (operationId config) program =
  Some (operation_parameters (extractParams (path config)),
        operation_body URL_parses config).
Hypothesis operation_named : binding_identifier (operationId config) = true.
Hypothesis URL_free : find_function "URL" program = None.
Hypothesis undefined_free : find_function "undefined" program = None.

(** The variables the first parameter binds. *)
Local Abbreviation scope_of arg :=
  (map (fun name => (name, member name arg))
       (if negb (Nat.eqb (length (extractParams (path config))) 0)
        then ["search"; "params"] else ["search"])).

Lemma scope_names arg x :
  x <> "search" -> x <> "params" -> obj_get x (scope_of arg) = None.
Proof.
  intros H1 H2. apply String.eqb_neq in H1, H2.
  destruct (negb _); cbn [map obj_get]; rewrite (String.eqb_sym "search" x), H1;
    [rewrite (String.eqb_sym "params" x), H2|]; reflexivity.
Qed.

(** A call runs the body: [new URL] of the text of the template and of the
    base throws when the platform rejects them; otherwise [search] is
    assigned when truthy and the body reaches its [return fetch(...)]. *)
Lemma operation_reaches_fetch fuel (arg params : obj value) (options : value)
      (texts : list string) (base : value) :
  template_reads_back (path config) = true ->
  static_base URL_parses (baseUrl config) = Some base ->
  (extractParams (path config) <> [] ->
   obj_get "params" arg = Some (VObject params)) ->
  Forall2 (fun name t => param_text params name = Some t)
          (extractParams (path config)) texts ->
  let url := fill_placeholders (split_path (path config)) texts in
  call program (S (S (S (S (S (S (S fuel))))))) (operationId config)
       (VObject arg :: match options with VUndefined => [] | _ => [options] end) =
  if URL_accepts url base then
    '(v, _) <- eval program (S (S (S (S (S fuel)))))
                    (("url", VURL url base
                                  (if truthy (member "search" arg)
                                   then Some (member "search" arg) else None))
                       :: ("requestInit", options) :: scope_of arg)
                    (fetch_call (method config)) ;;
    mret v
  else mthrow TypeError.
Proof.
  intros Hr Hb Hp Ht url. unfold Runtime.call at 1, invoke.
  rewrite file_read, operation_declared, operation_named.
  set (scope := scope_of arg).
  assert (Hbind : bind_parameters (operation_parameters (extractParams (path config)))
                    (VObject arg :: match options with
                                    | VUndefined => []
                                    | _ => [options]
                                    end) = mret (("requestInit", options) :: scope)).
  { unfold operation_parameters. cbn [bind_parameters bind_parameter hd tl].
    rewrite bind_object_pattern by now destruct (negb _).
    destruct options; reflexivity. }
  rewrite Hbind. cbn [mbind mret].
  assert (Hsearch : obj_get "search" (("requestInit", options) :: scope)
                    = Some (member "search" arg)).
  { subst scope. now destruct (negb _). }
  assert (Hparams : extractParams (path config) <> [] ->
                    obj_get "params" (("requestInit", options) :: scope)
                    = Some (VObject params)).
  { intros Hne. subst scope. destruct (extractParams (path config)); [easy|].
    cbn. unfold member. now rewrite (Hp Hne). }
  assert (Hnone : obj_get "undefined" (("requestInit", options) :: scope) = None).
  { subst scope. now destruct (negb _). }
  set (search := member "search" arg) in *.
  unfold operation_body.
  assert (H1 : exec program (S (S (S (S (S (S fuel))))))
                 (("requestInit", options) :: scope)
                 (VariableStatement "url"
                    (NewExpression (EIdentifier "URL")
                       [makeTemplateExpressionFromPath (path config);
                        base_argument URL_parses (baseUrl config)])) =
               if URL_accepts url base
               then mret (Normal, ("url", VURL url base None)
                                    :: ("requestInit", options) :: scope)
               else mthrow TypeError).
  { rewrite exec_variable, eval_new_URL;
      [|exact URL_free|subst scope; now destruct (negb _)].
    rewrite (eval_template _ (("requestInit", options) :: scope) params
               (path config) texts Hr Hparams Ht).
    cbn [mbind mret].
    rewrite (eval_base _ (("requestInit", options) :: scope) URL_parses _ base
               undefined_free Hb Hnone).
    cbn [mbind mret]. fold url. now destruct (URL_accepts url base). }
  destruct (URL_accepts url base);
    [|now rewrite (exec_block_throw _ _ _ _ TypeError true H1)].
  assert (H2 : exec program (S (S (S (S (S (S fuel))))))
                 (("url", VURL url base None) :: ("requestInit", options) :: scope)
                 (IfStatement (EIdentifier "search")
                    (Block
                       [ExpressionStatement
                          (BinaryExpression
                             (PropertyAccessExpression (EIdentifier "url") "search")
                             EqualsToken (EIdentifier "search"))] true) None) =
               mret (Normal,
                     ("url", VURL url base (if truthy search then Some search else None))
                       :: ("requestInit", options) :: scope)).
  { rewrite exec_if.
    rewrite (eval_identifier _ _ "search" search eq_refl); [|exact Hsearch].
    cbn [mbind mret]. destruct (truthy search); [|reflexivity].
    apply (exec_set_search fuel url base None search
             (("requestInit", options) :: scope) true Hsearch). }
  rewrite (exec_body _ _ _ _ _ _ _ _ true H1 H2 eq_refl).
  rewrite exec_return.
  destruct (Runtime.eval URL_accepts program _ _ (fetch_call (method config)))
    as [[[v env]|e]|]; reflexivity.
Qed.

(** A call with an argument object and request options. *)
Lemma operation_call_run fuel (arg requestInit params : obj value)
      (texts : list string) (base : value) :
  find_function "combineHeaders" program = function_parts makeCombineHeadersFunction ->
  find_function "fetch" program = None ->
  template_reads_back (path config) = true ->
  static_base URL_parses (baseUrl config) = Some base ->
  (extractParams (path config) <> [] ->
   obj_get "params" arg = Some (VObject params)) ->
  Forall2 (fun name t => param_text params name = Some t)
          (extractParams (path config)) texts ->
  let url := fill_placeholders (split_path (path config)) texts in
  call program (17 + fuel) (operationId config)
       [VObject arg; VObject requestInit] =
  if URL_accepts url base then
    merged <- call program (12 + fuel) "combineHeaders"
                   [init_value (default_headers (method config));
                    member "headers" requestInit] ;;
    mret (VFetch
            (VURL url base
                  (if truthy (member "search" arg)
                   then Some (member "search" arg) else None))
            (VObject (obj_assign requestInit
                        [("method", VString (method config)); ("headers", merged)])))
  else mthrow TypeError.
Proof.
  intros Hd Hf Hr Hb Hp Ht url.
  change (17 + fuel) with (S (S (S (S (S (S (S (10 + fuel)))))))).
  change (12 + fuel) with (S (S (10 + fuel))).
  pose proof (operation_reaches_fetch (10 + fuel) arg params (VObject requestInit)
                texts base Hr Hb Hp Ht) as H.
  cbv zeta in H. fold url in H. rewrite H.
  destruct (URL_accepts url base); [|reflexivity].
  rewrite (fetch_call_in (10 + fuel) (method config) _ requestInit (scope_of arg) Hd Hf);
    [|apply scope_names; discriminate|apply scope_names; discriminate].
  destruct (Runtime.call URL_accepts program _ "combineHeaders" _) as [[merged|e]|];
    reflexivity.
Qed.
End Operation.
End InProgram.

End OperationFacts.


(* ===================================================================== *)
(** * Claims: Path Template Builder *)
(* ===================================================================== *)

Module PathTemplateClaims.
Import PathTemplate PathTemplateFacts.

Example extract_items : extractParams "/items/{id}" = ["id"].
Proof. reflexivity. Qed.

Example split_adjacent : split_path "{a}{b}" = [""; ""; ""].
Proof. reflexivity. Qed.

Example extract_duplicates :
  extractParams "/a/{x}/b/{x}" = ["x"; "x"] /\
  split_path "/a/{x}/b/{x}" = ["/a/"; "/b/"; ""].
Proof. split; reflexivity. Qed.

Example template_adjacent :
  makeTemplateExpressionFromPath "{a}{b}" =
  TemplateExpression (Some "")
    [(PropertyAccessExpression (EIdentifier "params") "a", TemplateMiddle (Some ""));
     (PropertyAccessExpression (EIdentifier "params") "b", TemplateTail (Some ""))].
Proof. reflexivity. Qed.

(** C2.  For every path, the names extracted by [extractParams] and the
    literal segments of [path.split] satisfy: there is one segment more than
    there are names, every name is a non-empty brace-free capture,
    interleaving segments and [{name}] placeholders gives back the path, and
    the template is the string literal of the path when there is no name and
    otherwise the interpolation of the segments with [params.name] in order.
    Conversely, a path written as N+1 literal segments (possibly empty, free
    of opening braces) around N placeholders yields exactly those N names, in
    order and with duplicates, and exactly those N+1 segments. *)
Theorem path_template_builder (path : string) :
  let names := extractParams path in
  let segments := split_path path in
  length segments = S (length names) /\
  Forall placeholder_name names /\
  interleave segments names = path /\
  makeTemplateExpressionFromPath path =
    match names with
    | [] => StringLiteral path
    | _ :: _ => TemplateExpression (Some (hd "" segments))
                  (interleaved_spans names (tl segments))
    end /\
  (forall segments' names',
      length segments' = S (length names') ->
      Forall placeholder_name names' ->
      Forall (fun s => has_char "{" s = false) segments' ->
      path = interleave segments' names' ->
      names = names' /\ segments = segments').
Proof.
  cbv zeta. unfold extractParams, split_path.
  destruct (loops_agree path) as (HL & HI & HN).
  repeat split; try assumption.
  - unfold makeTemplateExpressionFromPath, extractParams, split_path.
    destruct (extractParams_loop path) as [|n names] eqn:En; [reflexivity|].
    cbn [length Nat.eqb].
    destruct (split_loop path) as [|s segments] eqn:Es; [discriminate HL|].
    cbn [nth_error hd tl].
    pose proof (template_spans_spec (s :: segments) (n :: names) []) as H.
    cbn [length Nat.add skipn] in H. rewrite H; [reflexivity|].
    cbn [length] in HL. exact HL.
  - subst path. apply loops_complete; assumption.
  - subst path. apply loops_complete; assumption.
Qed.

Lemma path_template_builder_witness :
  extractParams "/a/{x}{y}" = ["x"; "y"] /\ split_path "/a/{x}{y}" = ["/a/"; ""; ""].
Proof.
  destruct (path_template_builder "/a/{x}{y}") as (_ & _ & _ & _ & H).
  apply (H ["/a/"; ""; ""] ["x"; "y"]).
  - reflexivity.
  - repeat constructor; discriminate.
  - repeat constructor.
  - reflexivity.
Defined.

End PathTemplateClaims.

(* ===================================================================== *)
(** * Claims: Type Mapper *)
(* ===================================================================== *)

Module TypeMapperClaims.
Import JS JSFacts TypeMapper TypeMapperFacts Samples.

Example struct_ab :
  makeTypeFromSchema schema_ab =
  (Ok (TypeLiteralNode
         [PropertySignature "a" false (KeywordTypeNode StringKeyword);
          PropertySignature "b" true (KeywordTypeNode StringKeyword)]), []).
Proof. reflexivity. Qed.

(** C6.  For a schema node whose [properties] is an object, the mapper maps
    the property values in property order and wraps them in a type literal:
    it returns exactly when every property value is mapped, the result is
    then a struct with one field per property, named and ordered as the
    properties are, and a field is free of the optional marker if and only if
    [required] is an array that contains its name. *)
Theorem struct_fields_follow_required (schema properties : json) (names : list string) :
  is_object schema = true ->
  object_member schema "properties" = Some properties ->
  getOwnPropertyNames properties = Ok names ->
  makeTypeFromSchema schema =
    fmap TypeLiteralNode
      (mapM (fun name =>
               fmap (PropertySignature name (negb (is_required schema name)))
                    (makeTypeFromSchema (read properties name)))
            names) /\
  (forall members, properties = JObj members -> names = map fst members) /\
  (forall t w, makeTypeFromSchema schema = (Ok t, w) ->
     exists fields,
       t = TypeLiteralNode fields /\
       map field_name fields = names /\
       Forall (fun field =>
                 field_optional field = false <->
                 exists required, get schema "required" = Some (JArr required) /\
                                  In (JStr (field_name field)) required) fields) /\
  ((forall name, In name names ->
      exists t w, makeTypeFromSchema (read properties name) = (Ok t, w)) ->
   exists t w, makeTypeFromSchema schema = (Ok t, w)).
Proof.
  intros Hs Hp Hn.
  assert (Heq : makeTypeFromSchema schema =
    fmap TypeLiteralNode
      (mapM (fun name =>
               fmap (PropertySignature name (negb (is_required schema name)))
                    (makeTypeFromSchema (read properties name)))
            names)).
  { rewrite makeTypeFromSchema_unfold at 1. unfold makeTypeFromSchema_body.
    rewrite Hs, Hp, Hn. unfold lift, bind at 1.
    destruct (fmap _ _) as [r w]. reflexivity. }
  split; [exact Heq|]. split; [|split].
  - intros members ->. simpl in Hn. now injection Hn as <-.
  - intros t w Ht. rewrite Heq in Ht.
    apply fmap_ok_inv in Ht as (fields & Hm & ->).
    exists fields. split; [reflexivity|].
    apply mapM_ok_inv in Hm. clear Heq Hn.
    induction Hm as [|name field names fields (w' & Hf) _ IH].
    + split; constructor.
    + apply fmap_ok_inv in Hf as (ty & _ & ->). destruct IH as [IH1 IH2].
      split; [cbn [map field_name]; now rewrite IH1|].
      constructor; [|exact IH2]. cbn [field_optional field_name].
      unfold is_required.
      destruct (get schema "required") as [[| | | | |required|]|];
        try (split; [discriminate|intros (r & [=] & _)]).
      rewrite negb_false_iff. unfold includes. rewrite existsb_exists. split.
      * intros (x & Hin & Hx). exists required. split; [reflexivity|].
        destruct x; try discriminate. simpl in Hx.
        apply String.eqb_eq in Hx. now subst.
      * intros (r & [= <-] & Hin). exists (JStr name). split; [assumption|].
        simpl. apply String.eqb_refl.
  - intros Hall. rewrite Heq.
    destruct (mapM_ok_all
                (fun name =>
                   fmap (PropertySignature name (negb (is_required schema name)))
                        (makeTypeFromSchema (read properties name))) names)
      as (fields & w & ->).
    + intros name Hin. destruct (Hall name Hin) as (t & w & ->).
      rewrite fmap_ok. eauto.
    + rewrite fmap_ok. eauto.
Qed.

Lemma struct_fields_follow_required_witness :
  exists t w, makeTypeFromSchema schema_ab = (Ok t, w).
Proof.
  apply (struct_fields_follow_required schema_ab
           (JObj [("a", JObj [("type", JStr "string")]);
                  ("b", JObj [("type", JStr "string")])])
           ["a"; "b"]); try reflexivity.
  intros name [<-|[<-|[]]]; eexists; eexists; reflexivity.
Defined.

Example allOf_overwrite :
  makeTypeFromSchema
    (JObj [("allOf", JArr [JObj [("type", JStr "string")];
                            JObj [("type", JStr "number")]])]) =
  (Ok (KeywordTypeNode NumberKeyword), []).
Proof. reflexivity. Qed.

Example allOf_properties :
  makeTypeFromSchema
    (JObj [("allOf",
            JArr [JObj [("properties", JObj [("a", JObj [("type", JStr "string")])]);
                        ("required", JArr [JStr "a"])];
                  JObj [("properties", JObj [("b", JObj [("type", JStr "number")])])]])]) =
  (Ok (TypeLiteralNode [PropertySignature "b" true (KeywordTypeNode NumberKeyword)]), []).
Proof. reflexivity. Qed.

(** C7.  For a schema node without a [properties] object and without [type]
    whose [allOf] is an array of parts that have entries (none is [null]),
    the mapper's result is its result on the synthetic object built from the
    entries of all parts in order; in that object a key holds the value of
    the last entry with that key, so a later part overwrites an earlier one,
    and nothing below the first level is merged.  The synthetic node goes
    through the mapper from its first rule, the property rule. *)
Theorem allOf_shallow_merge
        (schema : json) (allOf : list json) (parts : list (list (string * json))) :
  is_object schema = true ->
  object_member schema "properties" = None ->
  get schema "type" = None ->
  get schema "allOf" = Some (JArr allOf) ->
  mapR entries allOf = Ok parts ->
  let merged := fromEntries (concat parts) in
  makeTypeFromSchema schema = makeTypeFromSchema (JObj merged) /\
  (forall k, get (JObj merged) k = last_value k (concat parts)) /\
  (forall properties,
      object_member (JObj merged) "properties" = Some properties ->
      exists names,
        getOwnPropertyNames properties = Ok names /\
        makeTypeFromSchema schema =
          fmap TypeLiteralNode
            (mapM (fun name =>
                     fmap (PropertySignature name
                             (negb (is_required (JObj merged) name)))
                          (makeTypeFromSchema (read properties name)))
                  names)).
Proof.
  intros Hs Hp Ht Ha Hparts merged.
  assert (Heq : makeTypeFromSchema schema = makeTypeFromSchema (JObj merged)).
  { rewrite makeTypeFromSchema_unfold at 1. unfold makeTypeFromSchema_body.
    rewrite Hs, Hp, Ht, Ha. unfold merge_allOf. rewrite Hparts.
    unfold lift, bind. fold merged.
    destruct (makeTypeFromSchema (JObj merged)) as [r w]. reflexivity. }
  split; [exact Heq|]. split.
  - intros k. apply obj_get_fromEntries.
  - intros properties Hprops.
    destruct (object_member_depth (JObj merged) _ _ eq_refl Hprops) as [Hobj _].
    assert (exists names, getOwnPropertyNames properties = Ok names) as [names Hn]
      by (destruct properties; try discriminate Hobj; simpl; eauto).
    exists names. split; [exact Hn|]. rewrite Heq.
    rewrite makeTypeFromSchema_unfold at 1. unfold makeTypeFromSchema_body.
    cbn [is_object]. rewrite Hprops, Hn. unfold lift, bind at 1.
    destruct (fmap _ _) as [r w]. reflexivity.
Qed.

Lemma allOf_shallow_merge_witness :
  makeTypeFromSchema
    (JObj [("allOf", JArr [JObj [("type", JStr "string")];
                            JObj [("type", JStr "number")]])]) =
  makeTypeFromSchema (JObj [("type", JStr "number")]).
Proof.
  apply (allOf_shallow_merge
           (JObj [("allOf", JArr [JObj [("type", JStr "string")];
                                   JObj [("type", JStr "number")]])])
           [JObj [("type", JStr "string")]; JObj [("type", JStr "number")]]
           [[("type", JStr "string")]; [("type", JStr "number")]]);
    reflexivity.
Defined.

(** C5, at the input that breaks it: a composite with a [null] part makes
    [Object.entries] throw, the mapper does not return a node. *)
Theorem mapper_throws_on_null_part :
  makeTypeFromSchema (JObj [("allOf", JArr [JNull])]) = (Throw TypeError, []).
Proof. reflexivity. Qed.

End TypeMapperClaims.

(* ===================================================================== *)
(** * Claims: Operation Synthesizer *)
(* ===================================================================== *)

Module SynthesizerClaims.
Import JS JSFacts TypeMapper TypeMapperFacts PathTemplate Synthesizer SynthesizerFacts Samples.

Example dynamic_base :
  makeDynamicBaseUrl "process.env.API_BASE_URL" =
  PropertyAccessExpression
    (PropertyAccessExpression (EIdentifier "process") "env") "API_BASE_URL".
Proof. reflexivity. Qed.

(** C9 as stated fails: the claim makes every supplied string either a
    literal or a dotted path, but the empty string is neither; it is turned
    into [undefined] like an absent one. *)
Lemma empty_base_url_is_undefined :
  ~ (forall (URL_parses : string -> bool) (value : string),
        base_argument URL_parses (Some value) =
        if URL_parses value then StringLiteral value
        else makeDynamicBaseUrl value).
Proof.
  intros H. specialize (H (fun _ => false) ""). discriminate H.
Qed.

(** C9, amended.  The base URL is interpreted once: a supplied non-empty
    string that parses as an absolute URL becomes a string literal of that
    value; a non-empty string that does not parse becomes a chain of member
    accesses whose root and member names are the dot-separated segments of
    the string, one access per dot; an absent base URL and the empty string
    become the identifier [undefined]. *)
Theorem base_url_interpretation (URL_parses : string -> bool) (baseUrl : option string) :
  match baseUrl with
  | None => base_argument URL_parses baseUrl = EIdentifier "undefined"
  | Some value =>
      (value = "" -> base_argument URL_parses baseUrl = EIdentifier "undefined") /\
      (value <> "" -> URL_parses value = true ->
       base_argument URL_parses baseUrl = StringLiteral value) /\
      (value <> "" -> URL_parses value = false ->
       exists root members,
         base_argument URL_parses baseUrl = makeDynamicBaseUrl value /\
         access_chain (makeDynamicBaseUrl value) = Some (root, members) /\
         String.concat "." (root :: members) = value /\
         Forall (fun segment => has_char "." segment = false) (root :: members))
  end.
Proof.
  destruct baseUrl as [value|]; [|reflexivity].
  unfold base_argument, isValidURL. split; [|split].
  - intros ->. reflexivity.
  - intros Hv Hp. apply String.eqb_neq in Hv. now rewrite Hv, Hp.
  - intros Hv Hp. apply String.eqb_neq in Hv. rewrite Hv, Hp. cbn [negb].
    pose proof (split_on_join "." value) as Hj.
    pose proof (split_on_no_sep "." value) as Hs.
    pose proof (makeDynamicBaseUrl_chain value) as Hc.
    destruct (split_on "." value) as [root members].
    exists root, members. auto.
Qed.

Lemma base_url_interpretation_witness :
  base_argument (fun _ => false) (Some "process.env.API_BASE_URL") =
  PropertyAccessExpression
    (PropertyAccessExpression (EIdentifier "process") "env") "API_BASE_URL".
Proof.
  destruct (base_url_interpretation (fun _ => false) (Some "process.env.API_BASE_URL"))
    as (_ & _ & H).
  destruct H as (root & members & -> & _); [discriminate|reflexivity|].
  reflexivity.
Defined.

Example get_item_signature :
  exists body,
    makeOperationFunction (fun _ => false) get_item =
    (Ok (FunctionDeclaration true "getItem"
           [ Parameter_ (ObjectBindingPattern ["search"; "params"]) false
               (Some (TypeLiteralNode
                  [ PropertySignature "search" true (KeywordTypeNode StringKeyword);
                    PropertySignature "params" false
                      (TypeReferenceNode "Record"
                         (Some [UnionTypeNode [LiteralTypeNode "id"];
                                KeywordTypeNode StringKeyword])) ]));
             Parameter_ (Identifier "requestInit") false
               (Some (TypeReferenceNode "Omit"
                  (Some [TypeReferenceNode "RequestInit" None;
                         LiteralTypeNode "method"]))) ]
           (TypeReferenceNode "Promise"
              (Some [TypeReferenceNode "TypedResponse"
                       (Some [UnionTypeNode [item_struct]])]))
           body), []).
Proof. eexists. reflexivity. Qed.

(** C4 as stated fails: the claim puts in the union every entry that
    declares an [application/json] body, but an entry whose [content] lists
    that media type without a [schema] declares one and is left out. *)
Lemma json_body_without_schema_is_left_out :
  ~ (forall (URL_parses : string -> bool) (config : OperationConfig) declaration w,
        makeOperationFunction URL_parses config = (Ok declaration, w) ->
        exists all types parameters body,
          declaration =
            FunctionDeclaration true (operationId config) parameters
              (TypeReferenceNode "Promise"
                 (Some [TypeReferenceNode "TypedResponse"
                          (Some [UnionTypeNode types])]))
              body /\
          values (responses config) = Ok all /\
          Forall2 (fun response type =>
                     exists w', makeTypeFromSchema (response_schema response)
                                = (Ok type, w'))
                  (filter declares_json_body all) types).
Proof.
  intros H.
  destruct (H (fun _ => false)
              {| operationId := "ping"; path := "/ping"; method := "GET";
                 baseUrl := None; summary := None; description := None;
                 responses :=
                   JObj [("200",
                          JObj [("content", JObj [("application/json", JObj [])])])] |}
              _ _ eq_refl)
    as (all & types & parameters & body & Hd & Hall & Htypes).
  inversion Hd; subst. cbn in Hall. injection Hall as <-.
  cbn in Htypes. inversion Htypes.
Qed.

(** C4, amended.  Whenever [makeOperationFunction] returns, the declaration
    is the exported function named by [operationId] with two parameters: the first
    destructures [search] (and [params] when the path has names) from an
    object typed [{search?: string}], extended for a path with names by a
    required [params: Record<'n1' | ... | 'nN', string>] over exactly the
    extracted names; the second is [requestInit: Omit<RequestInit,
    'method'>].  Its return type is [Promise<TypedResponse<U>>] with [U] the
    union, in the order of [Object.values(responses)], of the mapper's
    results on the schemas of exactly the entries that [isJSONResponse]
    accepts, that is the entries holding an object at
    [content['application/json'].schema].  It returns whenever the responses
    can be listed and each of those schemas is mapped. *)
Theorem operation_signature (URL_parses : string -> bool) (config : OperationConfig) :
  let names := extractParams (path config) in
  (forall response,
      isJSONResponse response = true <->
      exists content media schema,
        is_object response = true /\
        get response "content" = Some content /\ is_object content = true /\
        get content "application/json" = Some media /\ is_object media = true /\
        get media "schema" = Some schema /\ is_object schema = true /\
        response_schema response = schema) /\
  (forall declaration w,
      makeOperationFunction URL_parses config = (Ok declaration, w) ->
      exists all types body,
        declaration =
          FunctionDeclaration true (operationId config)
            [policy_first_parameter names; request_options_parameter]
            (TypeReferenceNode "Promise"
               (Some [TypeReferenceNode "TypedResponse"
                        (Some [UnionTypeNode types])]))
            body /\
        values (responses config) = Ok all /\
        Forall2 (fun response type =>
                   exists w', makeTypeFromSchema (response_schema response)
                              = (Ok type, w'))
                (filter isJSONResponse all) types) /\
  (forall all,
      values (responses config) = Ok all ->
      (forall response, In response all -> isJSONResponse response = true ->
         exists type w', makeTypeFromSchema (response_schema response)
                         = (Ok type, w')) ->
      exists declaration w,
        makeOperationFunction URL_parses config = (Ok declaration, w)).
Proof.
  cbv zeta. split; [|split].
  - intros response. unfold isJSONResponse, json_response_schema, response_schema,
      object_member, read. split.
    + destruct (is_object response) eqn:Hr; [|discriminate].
      destruct (get response "content") as [content|] eqn:E1; [|discriminate].
      destruct (is_object content) eqn:Hc; [|discriminate].
      destruct (get content "application/json") as [media|] eqn:E2; [|discriminate].
      destruct (is_object media) eqn:Hm; [|discriminate].
      destruct (get media "schema") as [schema|] eqn:E3; [|discriminate].
      destruct (is_object schema) eqn:Hs; [|discriminate].
      intros _. exists content, media, schema.
      rewrite E2, E3. repeat split; assumption.
    + intros (content & media & schema & -> & -> & -> & -> & -> & -> & -> & _).
      reflexivity.
  - intros declaration w. unfold makeOperationFunction, makeOperationFunctionReturnType.
    destruct (values (responses config)) as [all|e]; [|discriminate].
    unfold lift. cbn [bind].
    destruct (mapM _ (filter isJSONResponse all)) as [[types|e] w1] eqn:Em;
      cbn [bind ret]; [|discriminate].
    intros [= <- <-]. exists all, types, (operation_body URL_parses config).
    split; [|split; [reflexivity|]].
    + unfold operation_parameters, policy_first_parameter, request_options_parameter,
        search_signature.
      destruct (extractParams (path config)); reflexivity.
    + apply mapM_ok_inv in Em. exact Em.
  - intros all Hall Hmap. unfold makeOperationFunction, makeOperationFunctionReturnType.
    rewrite Hall. unfold lift. cbn [bind].
    destruct (mapM_ok_all
                (fun response => makeTypeFromSchema (response_schema response))
                (filter isJSONResponse all)) as (types & w & ->).
    + intros response Hin. apply filter_In in Hin as [Hin Hj]. auto.
    + cbn [bind ret]. eauto.
Qed.

Lemma operation_signature_witness :
  exists declaration w,
    makeOperationFunction (fun _ => false) get_item = (Ok declaration, w).
Proof.
  apply (operation_signature (fun _ => false) get_item)
    with (all := match values (responses get_item) with Ok l => l | Throw _ => [] end).
  - reflexivity.
  - intros response [<-|[<-|[]]]; [|discriminate].
    intros _. eexists; eexists; reflexivity.
Defined.

End SynthesizerClaims.

(* ===================================================================== *)
(** * Claims: Document Walker *)
(* ===================================================================== *)

Module WalkerClaims.
Import JS JSFacts TypeMapper Synthesizer Walker WalkerFacts Samples.

Section Run.
Variable URL_parses : string -> bool.
Variable resolve_cwd : string -> string.
Variable dirname : string -> string.
Variable dereference : string -> result json.
Variable printFile : list Declaration -> string.
Variable untyped_output : Options -> list (obj json) -> result string * list json.

Local Abbreviation run :=
  (execute URL_parses resolve_cwd dirname dereference printFile untyped_output).

(** A run that does not complete leaves the file system as it found it. *)
Lemma run_writes_on_completion args fs outcome fs' console :
  run args fs = (outcome, fs', console) ->
  outcome <> Completed -> fs' = fs.
Proof.
  unfold execute.
  destruct (getOptions args) as [options|e]; [|now intros [= <- <- <-]].
  destruct (require_path resolve_cwd (input options)); [|now intros [= <- <- <-]].
  destruct (require_path resolve_cwd (output options)); [|now intros [= <- <- <-]].
  destruct (dereference a) as [inputDocument|e]; [|now intros [= <- <- <-]].
  destruct (nullish inputDocument); [now intros [= <- <- <-]|].
  destruct (negb (truthy (read inputDocument "paths"))); [now intros [= <- <- <-]|].
  destruct (collect_configs _); [|now intros [= <- <- <-]].
  unfold write_result.
  destruct (match all_typed _ _ with Some _ => _ | None => _ end) as [[result|e] w];
    [|now intros [= <- <- <-]].
  intros [= <- <- <-] H. now contradiction H.
Qed.

Lemma fatal_conditions_abort_core
      args fs options inputPath outputPath inputDocument :
  getOptions args = Ok options ->
  require_path resolve_cwd (input options) = Ok inputPath ->
  require_path resolve_cwd (output options) = Ok outputPath ->
  dereference inputPath = Ok inputDocument ->
  is_object inputDocument = true ->
  (truthy (read inputDocument "paths") = false ->
   run args fs = (Aborted (Error "No paths"), fs, [])) /\
  (forall path method operation,
      truthy (read inputDocument "paths") = true ->
      walked (read inputDocument "paths") path method operation ->
      fatal_entry operation ->
      exists e,
        run args fs = (Aborted e, fs, []) /\
        raised_by_walk (read inputDocument "paths") e).
Proof.
  intros Ho Hi Hout Hd Hobj.
  unfold execute. rewrite Ho, Hi, Hout, Hd.
  assert (Hn : nullish inputDocument = false)
    by (destruct inputDocument; try discriminate Hobj; reflexivity).
  rewrite Hn. split.
  - intros Hp. now rewrite Hp.
  - intros path method operation Hp Hw Hf. rewrite Hp. cbn [negb].
    destruct (collect_configs_fatal _ _ _ _ Hw Hf) as [e He].
    exists e. rewrite He. split; [reflexivity|].
    destruct (collect_configs_throw _ _ He) as [Hnames|Hr]; [|exact Hr].
    destruct (truthy_names _ Hp) as [names Hnames']. congruence.
Qed.

(** C8.  Each fatal condition ends the run with an error and with the file
    system untouched: an odd-length argument list is rejected by
    [getOptions]; with well-formed arguments and a resolved document, a
    missing or falsy [paths] gives [No paths], and an entry of the walk that
    is an array, a string or an object without [operationId] stops the
    collection of the operations, however many well-formed operations the
    document has, with an error thrown at an entry of the walk; and a run
    that does not complete, for whatever reason, has written nothing. *)
Theorem fatal_conditions_abort (args : list string) (fs : FileSystem) :
  (Nat.odd (length args) = true ->
   run args fs = (Aborted (Error "Invalid number of arguments"), fs, [])) /\
  (forall options inputPath outputPath inputDocument,
      getOptions args = Ok options ->
      require_path resolve_cwd (input options) = Ok inputPath ->
      require_path resolve_cwd (output options) = Ok outputPath ->
      dereference inputPath = Ok inputDocument ->
      is_object inputDocument = true ->
      (truthy (read inputDocument "paths") = false ->
       run args fs = (Aborted (Error "No paths"), fs, [])) /\
      (forall path method operation,
          truthy (read inputDocument "paths") = true ->
          walked (read inputDocument "paths") path method operation ->
          fatal_entry operation ->
          exists e,
            run args fs = (Aborted e, fs, []) /\
            raised_by_walk (read inputDocument "paths") e) /\
      (forall outcome fs' console,
          run args fs = (outcome, fs', console) ->
          outcome <> Completed -> fs' = fs)).
Proof.
  split.
  - intros Hodd. unfold execute. now rewrite (odd_length_rejected _ Hodd).
  - intros options inputPath outputPath inputDocument Ho Hi Hout Hd Hobj.
    split.
    + now apply fatal_conditions_abort_core with options inputPath outputPath.
    + split.
      * apply (fatal_conditions_abort_core args fs options inputPath outputPath
                 inputDocument Ho Hi Hout Hd Hobj).
      * apply run_writes_on_completion.
Qed.

(** C10.  The walk takes every key of a path item for a method: an
    object with an [operationId] under any key is configured with the
    upper-cased key as its method (unless it carries a [method] of its
    own), and a
    key whose value is an array or a string, such as a path-level
    [parameters] list or [summary] text, is an entry of the walk that the
    array check or the string check rejects; with such a key in the
    document the run aborts, writing nothing, on an error thrown at an
    entry of the walk. *)
Theorem path_level_keys_abort
        (args : list string) (fs : FileSystem) (options : Options)
        (inputPath outputPath : string) (inputDocument : json)
        (paths pathItem : obj json) (path key : string) (value : json) :
  getOptions args = Ok options ->
  require_path resolve_cwd (input options) = Ok inputPath ->
  require_path resolve_cwd (output options) = Ok outputPath ->
  dereference inputPath = Ok inputDocument ->
  is_object inputDocument = true ->
  read inputDocument "paths" = JObj paths ->
  obj_get path paths = Some (JObj pathItem) ->
  obj_get key pathItem = Some value ->
  (exists elements, value = JArr elements) \/ (exists s, value = JStr s) ->
  walked (JObj paths) path key value /\
  (check_operation value = Throw (Error "Operation is an array") \/
   check_operation value = Throw (Error "Operation is a string")) /\
  (exists e, run args fs = (Aborted e, fs, []) /\
             raised_by_walk (JObj paths) e) /\
  (forall key' members,
      obj_get "operationId" members <> None ->
      exists raw,
        operation_config path key' (JObj members) = Ok raw /\
        (obj_get "method" members = None ->
         obj_get "method" raw = Some (JStr (toUpperCase key')))).
Proof.
  intros Ho Hi Hout Hd Hobj Hpaths Hitem Hkey Hvalue.
  assert (Hw : walked (JObj paths) path key value).
  { exists (map fst paths), (map fst pathItem). unfold read. cbn [get].
    rewrite Hitem. cbn [keys entries get]. rewrite Hkey.
    repeat split.
    - apply obj_get_in in Hitem. now apply (in_map fst) in Hitem.
    - apply obj_get_in in Hkey. now apply (in_map fst) in Hkey. }
  split; [exact Hw|]. split; [|split].
  - destruct Hvalue as [(elements & ->)|(s & ->)]; [now left|now right].
  - assert (Hf : fatal_entry value)
      by (destruct Hvalue as [H|H]; [now left|right; now left]).
    destruct (fatal_conditions_abort_core args fs options inputPath outputPath
                inputDocument Ho Hi Hout Hd Hobj) as [_ H].
    rewrite Hpaths in H. apply (H path key value); auto.
  - intros key' members Hid. unfold operation_config, check_operation.
    cbn [is_array js_in get entries].
    destruct (obj_get "operationId" members); [|contradiction Hid; reflexivity].
    eexists. split; [reflexivity|]. intros Hm.
    rewrite obj_get_assign, (last_value_none _ _ Hm). reflexivity.
Qed.

End Run.

Lemma fatal_conditions_abort_witness :
  exists e,
    execute (fun _ => false) (fun p => p) (fun p => p)
            (fun _ => Ok missing_id_document) (fun _ => "")
            (fun _ _ => (Ok "", [])) sample_args empty_fs = (Aborted e, empty_fs, []) /\
    raised_by_walk (read missing_id_document "paths") e.
Proof.
  destruct (fatal_conditions_abort (fun _ => false) (fun p => p) (fun p => p)
              (fun _ => Ok missing_id_document) (fun _ => "")
              (fun _ _ => (Ok "", [])) sample_args empty_fs) as [_ H].
  destruct (H {| input := Some "api.json"; output := Some "out/sdk.ts";
                 base_url := None |}
              "api.json" "out/sdk.ts" missing_id_document
              eq_refl eq_refl eq_refl eq_refl eq_refl) as (_ & H' & _).
  apply (H' "/b" "post" (JObj [("responses", JObj [])])).
  - reflexivity.
  - exists ["/a"; "/b"], ["post"]. cbn. intuition.
  - right. right. eexists. split; reflexivity.
Defined.

Example path_parameters_run :
  execute (fun _ => false) (fun p => p) (fun p => p)
          (fun _ => Ok path_parameters_document) (fun _ => "")
          (fun _ _ => (Ok "", [])) sample_args empty_fs =
  (Aborted (Error "Operation is an array"), empty_fs, []).
Proof. reflexivity. Qed.

Lemma path_level_keys_abort_witness :
  exists e,
    execute (fun _ => false) (fun p => p) (fun p => p)
            (fun _ => Ok path_parameters_document) (fun _ => "")
            (fun _ _ => (Ok "", [])) sample_args empty_fs = (Aborted e, empty_fs, []) /\
    raised_by_walk (read path_parameters_document "paths") e.
Proof.
  apply (path_level_keys_abort (fun _ => false) (fun p => p) (fun p => p)
           (fun _ => Ok path_parameters_document) (fun _ => "")
           (fun _ _ => (Ok "", [])) sample_args empty_fs
           {| input := Some "api.json"; output := Some "out/sdk.ts";
              base_url := None |}
           "api.json" "out/sdk.ts" path_parameters_document
           [("/items/{id}",
             JObj [("get", JObj [("operationId", JStr "getItem");
                                 ("responses", JObj [])]);
                   ("parameters",
                    JArr [JObj [("name", JStr "id"); ("in", JStr "path")]])])]
           [("get", JObj [("operationId", JStr "getItem");
                          ("responses", JObj [])]);
            ("parameters",
             JArr [JObj [("name", JStr "id"); ("in", JStr "path")]])]
           "/items/{id}" "parameters"
           (JArr [JObj [("name", JStr "id"); ("in", JStr "path")]]));
    try reflexivity.
  left. eexists. reflexivity.
Defined.

End WalkerClaims.

(* ===================================================================== *)
(** * Claims: the emitted code at run time *)
(* ===================================================================== *)

Module RuntimeClaims.
Import JS JSFacts PathTemplate Synthesizer Runtime RuntimeFacts HeadersFacts.
Import Vocabulary OperationFacts Samples.

Section Platform.
(** Whether [new URL(url, base)] returns, on the platform that runs the
    emitted code. *)
Variable URL_accepts : string -> value -> bool.

Local Abbreviation call := (Runtime.call URL_accepts).
Local Abbreviation eval := (Runtime.eval URL_accepts).

Example merge_precedence :
  call helper_program 12 "combineHeaders"
       [VObject [("Accept", VString "application/json")];
        VObject [("Accept", VString "text/plain")]] =
  mret (VHeaders [("accept", "text/plain")]).
Proof. reflexivity. Qed.

Example merge_pairs :
  call helper_program 12 "combineHeaders"
       [VObject [("Accept", VString "a")];
        VArray [VArray [VString "X-Extra"; VString "1"]]] =
  mret (VHeaders [("accept", "a"); ("x-extra", "1")]).
Proof. reflexivity. Qed.

(** C3.  Run on a [Headers] object, a list of pairs or a mapping for each
    argument, with enough fuel, the emitted helper builds a [Headers]
    collection from the defaults and, when overrides are given, sets each
    entry of the overrides into it in their natural order, whatever the
    shape; it throws exactly when the class rejects an entry.  Hence, the
    defaults being accepted: without overrides the result is the collection
    of the defaults' entries; with accepted overrides the value of a header
    is that of the last override entry of that name, compared without regard
    to case, or else what the defaults hold, and every override entry's name
    is in the result. *)
Theorem header_merge_helper
        (fuel : nat) (defaults : HeadersInit) (overrides : option HeadersInit) :
  let result :=
      call helper_program (12 + fuel) "combineHeaders"
           [init_value defaults; optional_init overrides] in
  result =
    match Headers.fill (natural_entries defaults) [] with
    | Throw e => mthrow e
    | Ok combined =>
        match overrides with
        | None => mret (VHeaders combined)
        | Some init =>
            match Headers.set_all (natural_entries init) combined with
            | Ok h => mret (VHeaders h)
            | Throw e => mthrow e
            end
        end
    end /\
  (forall combined,
      Headers.fill (natural_entries defaults) [] = Ok combined ->
      combined = map (fun kv => (Headers.toLowerCase (fst kv),
                                 Headers.normalize (snd kv)))
                     (natural_entries defaults) /\
      (overrides = None -> result = mret (VHeaders combined)) /\
      (forall init,
          overrides = Some init ->
          Forall acceptable (natural_entries init) ->
          exists h,
            result = mret (VHeaders h) /\
            (forall name,
                Headers.get name h =
                match last_entry name (natural_entries init) with
                | Some kv => Some (Headers.normalize (snd kv))
                | None => Headers.get name combined
                end) /\
            (forall name value,
                In (name, value) (natural_entries init) ->
                Headers.contains name h = true))).
Proof.
  cbv zeta. split; [apply run_helper|].
  intros combined Hfill. rewrite run_helper, Hfill.
  split; [exact (fill_entries _ _ _ Hfill)|]. split.
  - now intros ->.
  - intros init -> Hvalid.
    destruct (set_all_valid _ combined Hvalid) as [h Hh].
    exists h. rewrite Hh. split; [reflexivity|]. split.
    + intros name. now apply get_set_all.
    + intros name value Hin.
      destruct (last_entry_in _ _ _ Hin) as [kv Hkv].
      apply get_contains with (v := Headers.normalize (snd kv)).
      rewrite (get_set_all _ _ _ name Hh), Hkv. reflexivity.
Qed.

(** Whatever the method, the object handed to [fetch] holds under [headers]
    what the caller's [requestInit] holds there, when it holds something:
    the spread comes after the merged headers and overwrites them. *)
Lemma fetch_init_headers fuel method url (requestInit : obj value)
      (supplied : HeadersInit) merged :
  NoDup (map fst requestInit) ->
  obj_get "headers" requestInit = Some (init_value supplied) ->
  call helper_program (12 + fuel) "combineHeaders"
       [init_value (default_headers method); init_value supplied] = mret merged ->
  exists init,
    eval helper_program (16 + fuel)
         [("url", url); ("requestInit", VObject requestInit)] (fetch_call method) =
    mret (VFetch url (VObject init),
          [("url", url); ("requestInit", VObject requestInit)]) /\
    obj_get "headers" init = Some (init_value supplied).
Proof.
  intros Hnd Hh Hm.
  rewrite (fetch_call_run URL_accepts fuel method url requestInit (Some supplied) Hh).
  cbn [optional_init]. rewrite Hm. cbn [mbind mret].
  eexists. split; [reflexivity|].
  rewrite obj_get_assign.
  assert (last_value "headers" requestInit = Some (init_value supplied)) as ->;
    [|reflexivity].
  unfold last_value. clear Hm.
  induction requestInit as [|[k v] o IH]; [discriminate|].
  cbn [rev]. rewrite obj_get_app. cbn [map fst] in Hnd. inversion Hnd; subst.
  cbn [obj_get] in Hh. destruct (String.eqb_spec k "headers") as [->|Hk].
  - injection Hh as ->.
    assert (obj_get "headers" (rev o) = None) as ->.
    { apply obj_get_none. rewrite map_rev. intros Hin. now apply in_rev in Hin. }
    cbn [obj_get]. reflexivity.
  - rewrite (IH H2 Hh). reflexivity.
Qed.

(** C1, at an input that breaks it.  The function emitted for
    [GET /items/{id}] with the base URL [https://api.example.com], called
    with [requestInit = { headers: { 'X-Extra': '1' } }] on a platform that
    accepts the URL, hands [fetch] the caller's headers alone; the merge of
    the default [Accept] with them, which the helper computes, is not what
    the request carries. *)
Theorem caller_headers_replace_merged :
  URL_accepts "/items/42" (VString "https://api.example.com") = true ->
  call get_item_based_file 20 "getItem"
       [VObject [("params", VObject [("id", VString "42")])];
        VObject [("headers", VObject [("X-Extra", VString "1")])]] =
  mret (VFetch (VURL "/items/42" (VString "https://api.example.com") None)
          (VObject [("method", VString "GET");
                    ("headers", VObject [("X-Extra", VString "1")])])) /\
  call get_item_based_file 20 "combineHeaders"
       [VObject [("Accept", VString "application/json")];
        VObject [("X-Extra", VString "1")]] =
  mret (VHeaders [("accept", "application/json"); ("x-extra", "1")]).
Proof.
  intros Haccept. split; [|reflexivity].
  pose proof (operation_call_run URL_accepts get_item_based_file eq_refl
                (fun _ => true)
                get_item_based eq_refl eq_refl eq_refl eq_refl 3
                [("params", VObject [("id", VString "42")])]
                [("headers", VObject [("X-Extra", VString "1")])]
                [("id", VString "42")] ["42"]
                (VString "https://api.example.com")
                eq_refl eq_refl eq_refl eq_refl) as H.
  cbv zeta in H.
  change (fill_placeholders (split_path (path get_item_based)) ["42"])
    with "/items/42" in H.
  rewrite Haccept in H. apply H.
  - reflexivity.
  - change (extractParams (path get_item_based)) with ["id"].
    constructor; [reflexivity|constructor].
Qed.
End Platform.

Lemma header_merge_helper_witness :
  exists h,
    Runtime.call (fun _ _ => true) helper_program 12 "combineHeaders"
         [init_value (InitRecord [("Accept", "a")]);
          optional_init (Some (InitPairs [("X-Extra", "1")]))] =
    mret (VHeaders h) /\
    Headers.contains "X-Extra" h = true.
Proof.
  destruct (header_merge_helper (fun _ _ => true) 0 (InitRecord [("Accept", "a")])
              (Some (InitPairs [("X-Extra", "1")]))) as [_ H].
  destruct (H [("accept", "a")] eq_refl) as (_ & _ & H').
  destruct (H' (InitPairs [("X-Extra", "1")]) eq_refl) as (h & Hr & _ & Hc).
  - repeat constructor.
  - exists h. split; [exact Hr|]. apply (Hc "X-Extra" "1"). now left.
Defined.

(** A platform that accepts every URL given with a base. *)
Lemma caller_headers_replace_merged_witness :
  Runtime.call (fun _ base => match base with VString _ => true | _ => false end)
       get_item_based_file 20 "getItem"
       [VObject [("params", VObject [("id", VString "42")])];
        VObject [("headers", VObject [("X-Extra", VString "1")])]] =
  mret (VFetch (VURL "/items/42" (VString "https://api.example.com") None)
          (VObject [("method", VString "GET");
                    ("headers", VObject [("X-Extra", VString "1")])])).
Proof.
  apply (caller_headers_replace_merged
           (fun _ base => match base with VString _ => true | _ => false end)).
  reflexivity.
Defined.

End RuntimeClaims.
(* ===================================================================== *)
(** * Further properties: the command line *)
(* ===================================================================== *)

Module OptionsProperties.
Import JS JSFacts Walker WalkerFacts.

Lemma parsed_flags pairs (acc : obj string) k :
  k <> "__proto__" ->
  obj_get k (fold_left assign_flag pairs acc) =
  match last_value k pairs with
  | Some v => Some v
  | None => obj_get k acc
  end.
Proof.
  intros Hk. unfold last_value. revert acc.
  induction pairs as [|[flag value] pairs IH]; intros acc; cbn [fold_left rev]; [reflexivity|].
  rewrite IH, obj_get_app. cbn [obj_get].
  destruct (obj_get k (rev pairs)); [reflexivity|].
  unfold assign_flag. cbn [fst snd].
  destruct (String.eqb_spec flag "__proto__") as [->|Hf].
  - destruct (String.eqb_spec "__proto__" k); [congruence|reflexivity].
  - rewrite obj_get_set. now destruct (flag =? k).
Qed.

Lemma even_length_accepted (args : list string) :
  Nat.even (length args) = true ->
  Nat.eqb (Nat.modulo (length args) 2) 0 = true.
Proof.
  intros H. apply Nat.eqb_eq. apply Nat.even_spec in H as [k Hk].
  rewrite Hk, Nat.mul_comm. apply Nat.Div0.mod_mul.
Qed.

(** The options of an even number of arguments. *)
Lemma getOptions_even (args : list string) :
  Nat.even (length args) = true ->
  getOptions args =
  Ok {| input := last_value "--input" (flag_pairs args);
        output := last_value "--output" (flag_pairs args);
        base_url := last_value "--base-url" (flag_pairs args) |}.
Proof.
  intros E. unfold getOptions. rewrite (even_length_accepted _ E). cbn [negb].
  rewrite !parsed_flags by discriminate.
  now destruct (last_value "--input" _), (last_value "--output" _),
    (last_value "--base-url" _).
Qed.

(** X1.  [getOptions] rejects an odd number of arguments with the error
    [Invalid number of arguments] and otherwise reads the arguments as
    flag/value pairs by position: each of [input], [output] and [baseUrl] is
    the value paired with the last occurrence of its flag ([--input],
    [--output], [--base-url]); a flag name in a value position is not seen,
    other flags are ignored, and an option whose flag does not occur is
    [undefined]. *)
Theorem getOptions_last_flag_wins (args : list string) :
  getOptions args =
  if Nat.even (length args) then
    Ok {| input := last_value "--input" (flag_pairs args);
          output := last_value "--output" (flag_pairs args);
          base_url := last_value "--base-url" (flag_pairs args) |}
  else Throw (Error "Invalid number of arguments").
Proof.
  destruct (Nat.even (length args)) eqn:E.
  - now apply getOptions_even.
  - apply odd_length_rejected. unfold Nat.odd. now rewrite E.
Qed.

Section Run.
Variable URL_parses : string -> bool.
Variable resolve_cwd : string -> string.
Variable dirname : string -> string.
Variable dereference : string -> result json.
Variable printFile : list Declaration -> string.
Variable untyped_output : Options -> list (obj json) -> result string * list json.

(** X2.  With an even number of arguments among which [--input] or
    [--output] has no value, [execute] aborts with the [TypeError] that
    [resolve] throws for an argument that is not a string: before the
    document is read, whatever it holds, and with nothing written. *)
Theorem missing_path_flag_aborts (args : list string) (fs : FileSystem) :
  Nat.even (length args) = true ->
  last_value "--input" (flag_pairs args) = None \/
  last_value "--output" (flag_pairs args) = None ->
  execute URL_parses resolve_cwd dirname dereference printFile untyped_output
          args fs =
  (Aborted TypeError, fs, []).
Proof.
  intros Heven Hmissing. unfold execute.
  rewrite (getOptions_even _ Heven). cbn [input output].
  destruct (last_value "--input" (flag_pairs args)) as [i|]; [|reflexivity].
  destruct Hmissing as [Hm|Hm]; [discriminate|]. now rewrite Hm.
Qed.
End Run.

Lemma missing_path_flag_aborts_witness :
  execute (fun _ => true) (fun p => p) (fun p => p) (fun _ => Ok (JObj []))
          (fun _ => "") (fun _ _ => (Ok "", []))
          ["--input"; "api.json"; "--base-url"; "--output"]
          {| directories := []; files := [] |} =
  (Aborted TypeError, {| directories := []; files := [] |}, []).
Proof.
  apply missing_path_flag_aborts; [reflexivity|]. right. reflexivity.
Defined.

End OptionsProperties.

(* ===================================================================== *)
(** * Further properties: path templates *)
(* ===================================================================== *)

Module PathTemplateProperties.
Import JS PathTemplate PathTemplateFacts Synthesizer Runtime Vocabulary OperationFacts.

Lemma take_name_unclosed s :
  has_char "}" s = false -> take_name s = (s, "").
Proof.
  induction s as [|c s IH]; [reflexivity|]. cbn [has_char take_name].
  intros H. apply orb_false_iff in H as [Hc Hs]. now rewrite Hc, (IH Hs).
Qed.

Lemma regex_exec_unclosed s :
  has_char "}" s = false -> regex_exec s = None.
Proof.
  induction s as [|c s IH]; [reflexivity|]. cbn [has_char].
  intros H. apply orb_false_iff in H as [Hc Hs].
  cbn [regex_exec match_here]. rewrite (take_name_unclosed _ Hs), (IH Hs).
  destruct (c =? "{")%char; [|reflexivity]. now destruct s.
Qed.

(** X3.  A path in which no opening brace or no closing brace occurs has no
    placeholder: [extractParams] finds no name, the split gives the path as
    its one segment, the template is the string literal of the path (an
    unclosed brace is ordinary text in it), and the parameter list declares
    no [params] keys. *)
Theorem braceless_path_is_literal (path : string) :
  has_char "{" path = false \/ has_char "}" path = false ->
  extractParams path = [] /\
  split_path path = [path] /\
  makeTemplateExpressionFromPath path = StringLiteral path /\
  declared_param_keys (operation_parameters (extractParams path)) = [].
Proof.
  intros H.
  assert (Hnone : regex_exec path = None)
    by (destruct H; [now apply regex_exec_none|now apply regex_exec_unclosed]).
  assert (He : extractParams path = [])
    by (unfold extractParams; now rewrite extractParams_loop_unfold, Hnone).
  repeat split.
  - exact He.
  - unfold split_path. now rewrite split_loop_unfold, Hnone.
  - unfold makeTemplateExpressionFromPath. now rewrite He.
  - now rewrite He.
Qed.

Lemma braceless_path_is_literal_witness :
  makeTemplateExpressionFromPath "/items/{id" = StringLiteral "/items/{id".
Proof.
  apply (braceless_path_is_literal "/items/{id"). right. reflexivity.
Defined.

Section Evaluation.
Variable URL_accepts : string -> value -> bool.
Variable program : list Declaration.

(** X5.  Where the template of a path reads back from the printed file as
    it was built (the names of its placeholders are identifiers and its
    segments hold no backslash, backtick, carriage return or [${]), and
    [params] is an object (needed only when the path has a placeholder),
    the template, evaluated with enough fuel, gives the path with each
    placeholder replaced, in order, by the text of the member of [params] it
    names: the string the member holds, or [undefined] spelled out when the
    member is undefined or is absent and not a name that every object
    inherits (such as [toString]); the scope is left as it was.  Members
    that hold other values are not covered. *)
Theorem template_substitutes_params
        (fuel : nat) (env : Env) (params : obj value) (path : string)
        (texts : list string) :
  template_reads_back path = true ->
  (extractParams path <> [] -> obj_get "params" env = Some (VObject params)) ->
  Forall2 (fun name t => param_text params name = Some t)
          (extractParams path) texts ->
  eval URL_accepts program (3 + fuel) env (makeTemplateExpressionFromPath path) =
  mret (VString (fill_placeholders (split_path path) texts), env).
Proof. apply eval_template. Qed.
End Evaluation.

Lemma template_substitutes_params_witness :
  eval (fun _ _ => true) [] 3 [("params", VObject [("id", VString "42")])]
       (makeTemplateExpressionFromPath "/items/{id}/tags/{tag}") =
  mret (VString "/items/42/tags/undefined",
        [("params", VObject [("id", VString "42")])]).
Proof.
  apply (template_substitutes_params (fun _ _ => true) [] 0 _
           [("id", VString "42")] "/items/{id}/tags/{tag}" ["42"; "undefined"]);
    [reflexivity|reflexivity|].
  change (extractParams "/items/{id}/tags/{tag}") with ["id"; "tag"].
  constructor; [reflexivity|]. constructor; [reflexivity|]. constructor.
Defined.

End PathTemplateProperties.

(* ===================================================================== *)
(** * Further properties: the Type Mapper *)
(* ===================================================================== *)

Module TypeMapperProperties.
Import JS JSFacts TypeMapper TypeMapperFacts Vocabulary.

Lemma chars_strings s x : In x (chars s) -> exists c, x = JStr c.
Proof.
  induction s as [|c s IH]; cbn [chars]; [intros []|].
  intros [<-|H]; eauto.
Qed.

Lemma arrays_null_free_member j k v :
  is_object j = true -> arrays_null_free j = true -> get j k = Some v ->
  arrays_null_free v = true.
Proof.
  destruct j as [| | | | |l|o]; try discriminate; intros _ Hj; cbn [get].
  - destruct (k =? "length"); [now intros [= <-]|].
    intros H. apply obj_get_in, indexed_from_in in H.
    cbn [arrays_null_free] in Hj. rewrite forallb_forall in Hj.
    specialize (Hj _ H). now apply andb_true_iff in Hj.
  - intros H. apply obj_get_in in H.
    cbn [arrays_null_free] in Hj. rewrite forallb_forall in Hj. exact (Hj _ H).
Qed.

Lemma arrays_null_free_read j k :
  is_object j = true -> arrays_null_free j = true ->
  arrays_null_free (read j k) = true.
Proof.
  intros Ho Hj. unfold read. destruct (get j k) eqn:E; [|reflexivity].
  exact (arrays_null_free_member j k _ Ho Hj E).
Qed.

Lemma entries_null_free part :
  nullish part = false -> arrays_null_free part = true ->
  exists es, entries part = Ok es /\
             forall kv, In kv es -> arrays_null_free (snd kv) = true.
Proof.
  destruct part as [| | | |s|l|o]; try discriminate; intros _ Hp; cbn [entries].
  - exists []. split; [reflexivity|intros ? []].
  - exists []. split; [reflexivity|intros ? []].
  - eexists. split; [reflexivity|]. intros [k v] H.
    apply indexed_from_in, chars_strings in H as [c ->]. reflexivity.
  - eexists. split; [reflexivity|]. intros [k v] H. apply indexed_from_in in H.
    cbn [arrays_null_free] in Hp. rewrite forallb_forall in Hp.
    specialize (Hp _ H). now apply andb_true_iff in Hp.
  - eexists. split; [reflexivity|]. intros kv H.
    cbn [arrays_null_free] in Hp. rewrite forallb_forall in Hp. exact (Hp _ H).
Qed.

Lemma merge_null_free allOf :
  arrays_null_free (JArr allOf) = true ->
  exists merged, merge_allOf allOf = Ok merged /\ arrays_null_free merged = true.
Proof.
  intros H. unfold merge_allOf.
  assert (exists parts, mapR entries allOf = Ok parts /\
            forall kv, In kv (concat parts) -> arrays_null_free (snd kv) = true)
    as (parts & -> & Hparts).
  { cbn [arrays_null_free] in H. induction allOf as [|p allOf IH].
    - exists []. split; [reflexivity|intros ? []].
    - cbn [forallb] in H. apply andb_true_iff in H as [Hp Hrest].
      apply andb_true_iff in Hp as [Hn Hp]. apply negb_true_iff in Hn.
      destruct (entries_null_free p Hn Hp) as (es & He & Hes).
      destruct (IH Hrest) as (parts & Hm & Hparts).
      exists (es :: parts). cbn [mapR]. rewrite He, Hm. split; [reflexivity|].
      cbn [concat]. intros kv Hin. apply in_app_or in Hin as [Hin|Hin]; auto. }
  eexists. split; [reflexivity|]. cbn [arrays_null_free]. apply forallb_forall.
  intros kv Hin. apply obj_assign_in in Hin as [Hin|[]]. auto.
Qed.

Lemma own_names_of_object properties :
  is_object properties = true -> exists names, getOwnPropertyNames properties = Ok names.
Proof. destruct properties; try discriminate; cbn; eauto. Qed.

Lemma body_returns (self : json -> gen TypeNode) schema :
  (forall v, depth v < depth schema -> arrays_null_free v = true ->
             exists t w, self v = (Ok t, w)) ->
  arrays_null_free schema = true ->
  exists t w, makeTypeFromSchema_body self schema = (Ok t, w).
Proof.
  intros Hself Hs. unfold makeTypeFromSchema_body.
  destruct (is_object schema) eqn:Ho; [|unfold unknown_fallback; cbn; eauto].
  destruct (object_member schema "properties") as [properties|] eqn:Ep.
  - destruct (object_member_depth _ _ _ Ho Ep) as [Hobj Hd].
    assert (Hprops : arrays_null_free properties = true).
    { unfold object_member in Ep. destruct (get schema "properties") eqn:E; [|discriminate].
      destruct (is_object j); [|discriminate]. injection Ep as ->.
      exact (arrays_null_free_member schema "properties" _ Ho Hs E). }
    destruct (own_names_of_object _ Hobj) as [names ->]. rewrite bind_lift_ok.
    destruct (mapM_ok_all
                (fun propertyName =>
                   fmap (PropertySignature propertyName
                           (negb (is_required schema propertyName)))
                        (self (read properties propertyName))) names)
      as (fields & w & ->).
    + intros name _.
      destruct (Hself (read properties name)) as (t & w & ->).
      * pose proof (read_depth properties name Hobj). lia.
      * now apply arrays_null_free_read.
      * rewrite fmap_ok. eauto.
    + rewrite fmap_ok. eauto.
  - destruct (get schema "type") as [type|] eqn:Et.
    + destruct (json_eqb_str "object" type); [unfold ret; eauto|].
      destruct (json_eqb_str "array" type).
      * destruct (object_member schema "items") as [items|] eqn:Ei; [|unfold ret; eauto].
        destruct (object_member_depth _ _ _ Ho Ei) as [_ Hd].
        destruct (Hself items Hd) as (t & w & ->).
        -- unfold object_member in Ei. destruct (get schema "items") eqn:E; [|discriminate].
           destruct (is_object j); [|discriminate]. injection Ei as ->.
           exact (arrays_null_free_member schema "items" _ Ho Hs E).
        -- rewrite fmap_ok. eauto.
      * destruct (_ || _); [unfold ret; eauto|].
        destruct (json_eqb_str "string" type); [unfold ret; eauto|].
        destruct (json_eqb_str "boolean" type); [unfold ret; eauto|].
        unfold unknown_fallback; cbn; eauto.
    + destruct (get schema "allOf") as [[| | | | |allOf|]|] eqn:Ea;
        try (unfold unknown_fallback; cbn; eauto; fail).
      pose proof (get_depth _ _ _ Ho Ea) as Hd.
      pose proof (arrays_null_free_member _ _ _ Ho Hs Ea) as Hparts.
      destruct (merge_null_free _ Hparts) as (merged & Hm & Hmerged).
      rewrite Hm, bind_lift_ok. apply Hself; [|exact Hmerged].
      pose proof (merge_allOf_depth _ _ Hm). lia.
Qed.

(** The mapper returns on a schema without [null] array elements. *)
Lemma mapper_returns (schema : json) :
  arrays_null_free schema = true ->
  exists t w, makeTypeFromSchema schema = (Ok t, w).
Proof.
  unfold makeTypeFromSchema. generalize (Nat.lt_succ_diag_r (depth schema)).
  generalize (S (depth schema)) as n. intros n. revert schema.
  induction n as [|n IH]; intros schema Hd Hs; [lia|].
  cbn [makeTypeFromSchema_rec]. apply body_returns; [|exact Hs].
  intros v Hv Hnf. apply IH; [lia|exact Hnf].
Qed.

Lemma bind_throw_inv {A B} (m : gen A) (f : A -> gen B) e w :
  bind m f = (Throw e, w) ->
  (exists w', m = (Throw e, w')) \/
  (exists a w1 w2, m = (Ok a, w1) /\ f a = (Throw e, w2)).
Proof.
  destruct m as [[a|e'] w1]; cbn [bind].
  - destruct (f a) as [r w2] eqn:E. intros [= -> <-]. right. eauto.
  - intros [= -> <-]. left. eauto.
Qed.

Lemma fmap_throw_inv {A B} (g : A -> B) (m : gen A) e w :
  fmap g m = (Throw e, w) -> exists w', m = (Throw e, w').
Proof.
  unfold fmap. intros H.
  apply bind_throw_inv in H as [H|(a & w1 & w2 & _ & H)]; [exact H|discriminate H].
Qed.

Lemma mapM_throw_inv {A B} (f : A -> gen B) l e w :
  mapM f l = (Throw e, w) -> exists x w', In x l /\ f x = (Throw e, w').
Proof.
  revert w. induction l as [|x l IH]; intros w; cbn [mapM]; [discriminate|].
  intros H. apply bind_throw_inv in H as [(w' & H)|(y & w1 & w2 & _ & H)].
  - exists x, w'. split; [now left|exact H].
  - apply bind_throw_inv in H as [(w' & H)|(ys & w3 & w4 & _ & H)];
      [|discriminate H].
    destruct (IH _ H) as (x' & w'' & Hin & Hx). exists x', w''.
    split; [now right|exact Hx].
Qed.

(** On a schema without [null] array elements, an error of the body is an
    error of one of its recursive calls. *)
Lemma body_throws (self : json -> gen TypeNode) schema e w :
  arrays_null_free schema = true ->
  makeTypeFromSchema_body self schema = (Throw e, w) ->
  exists v w', arrays_null_free v = true /\ self v = (Throw e, w').
Proof.
  intros Hs. unfold makeTypeFromSchema_body.
  destruct (is_object schema) eqn:Ho; [|discriminate].
  destruct (object_member schema "properties") as [properties|] eqn:Ep.
  - destruct (object_member_depth _ _ _ Ho Ep) as [Hobj _].
    assert (Hprops : arrays_null_free properties = true).
    { unfold object_member in Ep. destruct (get schema "properties") eqn:E; [|discriminate].
      destruct (is_object j); [|discriminate]. injection Ep as ->.
      exact (arrays_null_free_member schema "properties" _ Ho Hs E). }
    destruct (own_names_of_object _ Hobj) as [names ->]. rewrite bind_lift_ok.
    intros H. apply fmap_throw_inv in H as [w1 H].
    apply mapM_throw_inv in H as (name & w2 & _ & H).
    apply fmap_throw_inv in H as [w3 H].
    exists (read properties name), w3. split; [|exact H].
    now apply arrays_null_free_read.
  - destruct (get schema "type") as [type|] eqn:Et.
    + destruct (json_eqb_str "object" type); [discriminate|].
      destruct (json_eqb_str "array" type).
      * destruct (object_member schema "items") as [items|] eqn:Ei; [|discriminate].
        intros H. apply fmap_throw_inv in H as [w1 H].
        exists items, w1. split; [|exact H].
        unfold object_member in Ei. destruct (get schema "items") eqn:E; [|discriminate].
        destruct (is_object j); [|discriminate]. injection Ei as ->.
        exact (arrays_null_free_member schema "items" _ Ho Hs E).
      * destruct (_ || _); [discriminate|].
        destruct (json_eqb_str "string" type); [discriminate|].
        destruct (json_eqb_str "boolean" type); discriminate.
    + destruct (get schema "allOf") as [[| | | | |allOf|]|] eqn:Ea;
        try discriminate.
      pose proof (arrays_null_free_member _ _ _ Ho Hs Ea) as Hparts.
      destruct (merge_null_free _ Hparts) as (merged & Hm & Hmerged).
      rewrite Hm, bind_lift_ok. intros H. exists merged, w. now split.
Qed.

(** With calls nested at most [fuel] deep, the only error on a schema
    without [null] array elements is the exhausted stack. *)
Lemma mapper_throws_RangeError fuel schema e w :
  arrays_null_free schema = true ->
  makeTypeFromSchema_rec fuel schema = (Throw e, w) -> e = RangeError.
Proof.
  revert schema w. induction fuel as [|fuel IH]; intros schema w Hs;
    cbn [makeTypeFromSchema_rec].
  - now intros [= <- _].
  - intros H. destruct (body_throws _ _ _ _ Hs H) as (v & w' & Hv & Hself).
    exact (IH v w' Hv Hself).
Qed.

Lemma mapper_returns_within fuel (schema : json) :
  arrays_null_free schema = true -> depth schema < fuel ->
  exists t w, makeTypeFromSchema_rec fuel schema = (Ok t, w).
Proof.
  revert schema. induction fuel as [|n IH]; intros schema Hs Hd; [lia|].
  cbn [makeTypeFromSchema_rec]. apply body_returns; [|exact Hs].
  intros v Hv Hnf. apply IH; [exact Hnf|lia].
Qed.

(** X6.  Let [schema] be a finite value (the document has no reference back
    to an enclosing schema) in which no array, at any depth, has [null] or
    [undefined] for an element, and let the calls of [makeTypeFromSchema]
    nest at most [fuel] deep.  Then the mapper returns a type, possibly with
    diagnostics, when [fuel] exceeds the depth of the value, and at any
    [fuel] it raises no error but the [RangeError] of the exhausted stack:
    in particular not the [TypeError] of [Object.entries], which needs a
    [null] part in an [allOf] list, while [null] anywhere else (a [default],
    an [example], a property value) does no harm.  A value that contains
    itself, which a reference back to an enclosing schema resolves to, has
    no depth and is not covered: there the calls nest without end. *)
Theorem mapper_returns_without_null_elements (fuel : nat) (schema : json) :
  arrays_null_free schema = true ->
  (depth schema < fuel ->
   exists t w, makeTypeFromSchema_rec fuel schema = (Ok t, w)) /\
  (forall e w, makeTypeFromSchema_rec fuel schema = (Throw e, w) ->
               e = RangeError) /\
  (exists t w, makeTypeFromSchema schema = (Ok t, w)).
Proof.
  intros Hs. split; [|split].
  - now apply mapper_returns_within.
  - intros e w. now apply mapper_throws_RangeError.
  - now apply mapper_returns.
Qed.

Lemma mapper_returns_without_null_elements_witness :
  (exists t w,
      makeTypeFromSchema_rec 5
        (JObj [("allOf", JArr [JObj [("type", JStr "string"); ("default", JNull)]])])
      = (Ok t, w)) /\
  makeTypeFromSchema_rec 1
    (JObj [("allOf", JArr [JObj [("type", JStr "string"); ("default", JNull)]])])
  = (Throw RangeError, []).
Proof.
  split; [|reflexivity].
  destruct (mapper_returns_without_null_elements 5
              (JObj [("allOf", JArr [JObj [("type", JStr "string");
                                           ("default", JNull)]])]) eq_refl)
    as [H _].
  apply H. cbn. lia.
Defined.

Lemma mapM_clean {A B} (f : A -> gen B) (Q : B -> Prop) l :
  (forall x, In x l -> exists y, f x = (Ok y, []) /\ Q y) ->
  exists ys, mapM f l = (Ok ys, []) /\ Forall Q ys.
Proof.
  induction l as [|x l IH]; intros H; cbn [mapM].
  - exists []. split; [reflexivity|constructor].
  - destruct (H x (or_introl eq_refl)) as (y & -> & Hy).
    destruct IH as (ys & -> & Hys); [intros; apply H; now right|].
    exists (y :: ys). split; [reflexivity|now constructor].
Qed.

Lemma obj_get_some {A} k (o : obj A) :
  In k (map fst o) -> exists v, obj_get k o = Some v /\ In (k, v) o.
Proof.
  intros H. destruct (obj_get k o) as [v|] eqn:E.
  - exists v. split; [reflexivity|now apply obj_get_in].
  - now apply obj_get_none in E.
Qed.

(** X7.  On a schema built only from objects with [properties], arrays with
    [items], and the types [string], [number], [integer] and [boolean],
    [makeTypeFromSchema] returns a type in which [unknown] does not occur,
    and warns about nothing. *)
Theorem recognised_schema_maps_cleanly (schema : json) :
  Recognised schema ->
  exists t, makeTypeFromSchema schema = (Ok t, []) /\ unknown_free t = true.
Proof.
  induction 1 as [schema properties Ho Hp Hvalues IH
                 |schema items Ho Hp Ht Hi Hitems IH
                 |schema type Ho Hp Ht Hin];
    rewrite makeTypeFromSchema_unfold; unfold makeTypeFromSchema_body;
    rewrite Ho, Hp.
  - cbn [getOwnPropertyNames]. rewrite bind_lift_ok.
    destruct (mapM_clean
                (fun propertyName =>
                   fmap (PropertySignature propertyName
                           (negb (is_required schema propertyName)))
                        (makeTypeFromSchema (read (JObj properties) propertyName)))
                (fun member => unknown_free_member member = true)
                (map fst properties)) as (fields & -> & Hfields).
    + intros name Hin. destruct (obj_get_some _ _ Hin) as (value & Hget & Hmem).
      unfold read. cbn [get]. rewrite Hget.
      destruct (IH _ _ Hmem) as (t & -> & Hfree). rewrite fmap_ok.
      eexists. split; [reflexivity|exact Hfree].
    + rewrite fmap_ok. eexists. split; [reflexivity|].
      cbn [unknown_free]. apply forallb_forall. now apply Forall_forall.
  - rewrite Ht, Hi. cbn [json_eqb_str String.eqb Ascii.eqb Bool.eqb].
    destruct IH as (t & -> & Hfree). rewrite fmap_ok.
    eexists. split; [reflexivity|exact Hfree].
  - rewrite Ht.
    destruct Hin as [<-|[<-|[<-|[<-|[]]]]]; cbn; eexists; split; reflexivity.
Qed.

Lemma recognised_schema_maps_cleanly_witness :
  exists t,
    makeTypeFromSchema
      (JObj [("type", JStr "array"); ("items", JObj [("type", JStr "integer")])])
    = (Ok t, []) /\ unknown_free t = true.
Proof.
  apply recognised_schema_maps_cleanly.
  apply Recognised_array with (items := JObj [("type", JStr "integer")]);
    try reflexivity.
  apply Recognised_primitive with (type := "integer"); try reflexivity.
  now left.
Defined.


(** X8.  The rules of [makeTypeFromSchema] apply in the order the source
    tests them, and each reads its own members only.  Two object schemas
    with the same [properties] object and the same [required] get the same
    type, whatever [type], [items] or [allOf] each declares; two schemas
    without a [properties] object that declare the same [type] and have the
    same [items] object get the same type, whatever [allOf] or other member
    each has. *)
Theorem mapper_rule_priority (s1 s2 : json) :
  is_object s1 = true -> is_object s2 = true ->
  object_member s1 "properties" = object_member s2 "properties" ->
  match object_member s1 "properties" with
  | Some _ => get s1 "required" = get s2 "required"
  | None =>
      get s1 "type" <> None /\ get s1 "type" = get s2 "type" /\
      object_member s1 "items" = object_member s2 "items"
  end ->
  fst (makeTypeFromSchema s1) = fst (makeTypeFromSchema s2).
Proof.
  intros Ho1 Ho2 Hp H.
  rewrite (makeTypeFromSchema_unfold s1), (makeTypeFromSchema_unfold s2).
  unfold makeTypeFromSchema_body. rewrite Ho1, Ho2, <- Hp.
  destruct (object_member s1 "properties") as [properties|].
  - unfold is_required. now rewrite H.
  - destruct H as (Hsome & Ht & Hi). rewrite <- Ht, <- Hi.
    destruct (get s1 "type") as [type|]; [|contradiction Hsome; reflexivity].
    destruct (json_eqb_str "object" type); [reflexivity|].
    destruct (json_eqb_str "array" type); [reflexivity|].
    destruct (_ || _); [reflexivity|].
    destruct (json_eqb_str "string" type); [reflexivity|].
    destruct (json_eqb_str "boolean" type); reflexivity.
Qed.

Lemma mapper_rule_priority_witness :
  fst (makeTypeFromSchema
         (JObj [("type", JStr "string");
                ("properties", JObj [("a", JObj [("type", JStr "string")])]);
                ("allOf", JArr [JNull])])) =
  fst (makeTypeFromSchema
         (JObj [("properties", JObj [("a", JObj [("type", JStr "string")])])])).
Proof. apply mapper_rule_priority; reflexivity. Defined.

End TypeMapperProperties.

(* ===================================================================== *)
(** * Further properties: the statements of the result file *)
(* ===================================================================== *)

Module LayoutProperties.
Import JS JSFacts PathTemplate TypeMapper TypeMapperFacts Synthesizer Walker.
Import Runtime Vocabulary.

Section Layout.
Variable URL_parses : string -> bool.

Lemma has_doc_tags config :
  negb (Nat.eqb (length (doc_tag "@summary" (summary config)
                           ++ doc_tag "@description" (description config))%list) 0)
  = has_doc config.
Proof.
  unfold has_doc, doc_tag.
  destruct (summary config) as [s|], (description config) as [d|];
    try destruct (s =? ""); try destruct (d =? ""); reflexivity.
Qed.

Lemma makeOperationFunction_parts config declaration w :
  makeOperationFunction URL_parses config = (Ok declaration, w) ->
  function_name declaration = Some (operationId config) /\
  function_parts declaration =
  Some (operation_parameters (extractParams (path config)),
        operation_body URL_parses config).
Proof.
  unfold makeOperationFunction.
  destruct (makeOperationFunctionReturnType (responses config)) as [[t|e] w'];
    cbn [TypeMapper.bind ret]; [|discriminate].
  intros [= <- _]. split; reflexivity.
Qed.

Local Abbreviation group_of := (operation_group URL_parses).

Lemma statements_groups configs nodes console :
  statements URL_parses configs = (Ok nodes, console) ->
  exists groups,
    nodes = makeTypedResponseType :: makeCombineHeadersFunction :: concat groups /\
    Forall2 group_of configs groups.
Proof.
  unfold statements. intros H.
  destruct (TypeMapper.mapM (operation_nodes URL_parses) configs)
    as [[groups|e] w] eqn:Em; cbn [TypeMapper.bind ret] in H; [|discriminate].
  injection H as <- _. exists groups. split; [reflexivity|].
  apply mapM_ok_inv in Em.
  induction Em as [|config group configs groups (w' & Hg) _ IH]; constructor; [|exact IH].
  unfold operation_nodes in Hg. rewrite has_doc_tags in Hg.
  destruct (makeOperationFunction URL_parses config) as [[declaration|e] w1] eqn:Ed;
    cbn [TypeMapper.bind ret] in Hg; [|discriminate].
  injection Hg as <- _. exists declaration, w1. split; [exact Ed|].
  now destruct (has_doc config).
Qed.

Lemma group_names configs groups :
  Forall2 group_of configs groups ->
  function_names (concat groups) = map operationId configs.
Proof.
  unfold function_names.
  induction 1 as [|config group configs groups (d & w & Hd & ->) _ IH]; [reflexivity|].
  cbn [concat map]. rewrite flat_map_app, IH.
  destruct (makeOperationFunction_parts _ _ _ Hd) as [Hn _].
  destruct (has_doc config); cbn [flat_map function_name app]; now rewrite Hn.
Qed.

Lemma statements_names configs nodes console :
  statements URL_parses configs = (Ok nodes, console) ->
  function_names nodes = "combineHeaders" :: map operationId configs.
Proof.
  intros H. destruct (statements_groups _ _ _ H) as (groups & -> & Hg).
  change (function_names (makeTypedResponseType :: makeCombineHeadersFunction
                            :: concat groups))
    with ("combineHeaders" :: function_names (concat groups)).
  now rewrite (group_names _ _ Hg).
Qed.

(** X9.  The statements of the result file are the [TypedResponse] type, the
    helper [combineHeaders], and then, for each operation in the order of
    the configurations, the function [makeOperationFunction] makes for it,
    preceded by one documentation comment exactly when its [summary] or its
    [description] is a non-empty string; the comment holds the [@summary]
    and [@description] lines of the non-empty ones, in that order.  So the
    functions of the file are [combineHeaders] and one per operation, named
    by its [operationId]. *)
Theorem statements_layout (configs : list OperationConfig)
        (nodes : list Declaration) (console : list json) :
  statements URL_parses configs = (Ok nodes, console) ->
  exists groups,
    nodes = makeTypedResponseType :: makeCombineHeadersFunction :: concat groups /\
    Forall2 group_of configs groups /\
    function_names nodes = "combineHeaders" :: map operationId configs.
Proof.
  intros H. destruct (statements_groups _ _ _ H) as (groups & Hn & Hg).
  exists groups. split; [exact Hn|]. split; [exact Hg|].
  exact (statements_names _ _ _ H).
Qed.

Lemma find_function_absent name nodes :
  ~ In name (function_names nodes) -> find_function name nodes = None.
Proof.
  unfold function_names.
  induction nodes as [|d nodes IH]; [reflexivity|]. cbn [flat_map find_function].
  intros Hn. assert (Hrest : find_function name nodes = None)
    by (apply IH; intros Hin; apply Hn, in_or_app; now right).
  destruct d as [exported f parameters type body| |]; try exact Hrest.
  rewrite Hrest. cbn [function_name app In] in Hn.
  destruct (String.eqb_spec f name) as [->|_]; [|reflexivity].
  exfalso. apply Hn. now left.
Qed.

Lemma find_function_declared name nodes d :
  NoDup (function_names nodes) -> In d nodes -> function_name d = Some name ->
  find_function name nodes = function_parts d.
Proof.
  unfold function_names.
  induction nodes as [|d0 nodes IH]; [intros _ []|]. cbn [flat_map find_function].
  intros Hnd Hin Hname.
  assert (Hrest : NoDup (function_names nodes))
    by (apply NoDup_app_remove_l in Hnd; exact Hnd).
  destruct Hin as [->|Hin].
  - destruct d as [exported f parameters type body| |]; try discriminate Hname.
    injection Hname as ->. cbn [function_name app] in Hnd.
    inversion Hnd as [|? ? Hfresh _]; subst.
    rewrite (find_function_absent _ _ Hfresh), String.eqb_refl. reflexivity.
  - specialize (IH Hrest Hin Hname).
    destruct d0 as [exported f parameters type body| |]; try exact IH.
    rewrite IH. destruct d; try discriminate Hname. reflexivity.
Qed.

(** X10.  When the operation ids are pairwise distinct and none of them is
    [combineHeaders], every call in the generated file reaches the
    declaration meant for it: [combineHeaders] is the helper, the id of an
    operation is the function synthesized for that operation, with the
    parameters for the placeholders of its path and the body for its
    configuration, and a name that is no operation id, such as [fetch], is
    not declared by the file. *)
Theorem generated_functions_resolve (configs : list OperationConfig)
        (nodes : list Declaration) (console : list json) :
  statements URL_parses configs = (Ok nodes, console) ->
  NoDup ("combineHeaders" :: map operationId configs) ->
  find_function "combineHeaders" nodes = function_parts makeCombineHeadersFunction /\
  (forall config,
      In config configs ->
      find_function (operationId config) nodes =
      Some (operation_parameters (extractParams (path config)),
            operation_body URL_parses config)) /\
  (forall name,
      ~ In name ("combineHeaders" :: map operationId configs) ->
      find_function name nodes = None).
Proof.
  intros Hs Hnd. pose proof (statements_names _ _ _ Hs) as Hnames.
  rewrite <- Hnames in Hnd.
  destruct (statements_groups _ _ _ Hs) as (groups & Hn & Hg).
  split; [|split].
  - apply find_function_declared; [exact Hnd| |reflexivity].
    rewrite Hn. right. now left.
  - intros config Hin.
    assert (exists d, In d (concat groups) /\
                      function_name d = Some (operationId config) /\
                      function_parts d =
                      Some (operation_parameters (extractParams (path config)),
                            operation_body URL_parses config)) as (d & Hd & Hname & <-).
    { clear Hn Hs Hnames Hnd. induction Hg as [|c group cs gs (d & w & Hd & ->) _ IH]; [destruct Hin|].
      cbn [concat]. destruct Hin as [->|Hin].
      - exists d. destruct (makeOperationFunction_parts _ _ _ Hd) as [H1 H2].
        split; [|now split]. apply in_or_app. left.
        destruct (has_doc config); [right|]; now left.
      - destruct (IH Hin) as (d' & Hd' & H'). exists d'.
        split; [apply in_or_app; now right|exact H']. }
    apply find_function_declared; [exact Hnd| |exact Hname].
    rewrite Hn. right. now right.
  - intros name Hname. apply find_function_absent. now rewrite Hnames.
Qed.
End Layout.

Lemma statements_layout_witness :
  function_names Samples.get_item_file = ["combineHeaders"; "getItem"].
Proof.
  destruct (statements_layout (fun _ => false) [Samples.get_item]
              Samples.get_item_file
              (snd (statements (fun _ => false) [Samples.get_item])) eq_refl)
    as (groups & _ & _ & H).
  exact H.
Defined.

Lemma generated_functions_resolve_witness :
  find_function "getItem" Samples.get_item_file =
  Some (operation_parameters (extractParams "/items/{id}"),
        operation_body (fun _ => false) Samples.get_item).
Proof.
  destruct (generated_functions_resolve (fun _ => false) [Samples.get_item]
              Samples.get_item_file
              (snd (statements (fun _ => false) [Samples.get_item])) eq_refl)
    as (_ & H & _).
  - repeat constructor; cbn; intuition discriminate.
  - apply (H Samples.get_item). now left.
Defined.

End LayoutProperties.

(* ===================================================================== *)
(** * Further properties: a call of an emitted operation function *)
(* ===================================================================== *)

Module OperationProperties.
Import JS JSFacts PathTemplate Synthesizer Runtime RuntimeFacts.
Import Vocabulary OperationFacts.

Section InProgram.
Variable URL_accepts : string -> value -> bool.
Variable program : list Declaration.
Hypothesis file_read : file_reads_back program = true.
Hypothesis helper_declared :
  find_function "combineHeaders" program = function_parts makeCombineHeadersFunction.
Hypothesis fetch_free : find_function "fetch" program = None.
Hypothesis URL_free : find_function "URL" program = None.
Hypothesis undefined_free : find_function "undefined" program = None.

Local Abbreviation call := (Runtime.call URL_accepts program).

Section Operation.
Variable URL_parses : string -> bool.
Variable config : OperationConfig.
Hypothesis operation_declared :
  find_function (operationId config) program =
  Some (operation_parameters (extractParams (path config)),
        operation_body URL_parses config).
Hypothesis operation_named : binding_identifier (operationId config) = true.
Hypothesis path_reads_back : template_reads_back (path config) = true.

(** X11.  A call of the function emitted for an operation, with an argument
    object and request options, in a file that reads back as a module
    (names are identifiers, no two functions share a name, no return type is
    an empty union, no comment holds the end of a comment), where
    [combineHeaders] is the helper and [fetch], [URL] and [undefined] are
    the platform's (no operation is named so).  The operation's name is an
    identifier that may name a function, and the template of its path reads
    back from the printed file as it was built (the placeholders are named
    by identifiers, the segments hold no backslash, backtick, carriage
    return or [${]).  The body first builds [new URL] of the path, with each
    placeholder replaced by the text of the member of [params] it names (a
    string, or [undefined] spelled out), and of the literal base (or
    [undefined] when there is none): where the platform rejects the two, as
    it does a relative path without a base, the call throws its
    [TypeError] and [fetch] is not called.  Where it accepts
    them, the call returns what [fetch(url, init)] returns: [url] is that
    [URL] with [search] assigned exactly when the argument's [search] is
    truthy, and [init] is the object [{ method, headers }] of the
    operation's method and of the result of [combineHeaders] on the method's
    default headers and [requestInit.headers], with every own member of
    [requestInit] then copied over it, [method] and [headers] included. *)
Theorem operation_call (fuel : nat) (arg requestInit params : obj value)
        (texts : list string) (base : value) :
  static_base URL_parses (baseUrl config) = Some base ->
  (extractParams (path config) <> [] ->
   obj_get "params" arg = Some (VObject params)) ->
  Forall2 (fun name t => param_text params name = Some t)
          (extractParams (path config)) texts ->
  call (17 + fuel) (operationId config) [VObject arg; VObject requestInit] =
  if URL_accepts (fill_placeholders (split_path (path config)) texts) base then
    merged <- call (12 + fuel) "combineHeaders"
                   [init_value (default_headers (method config));
                    member "headers" requestInit] ;;
    mret (VFetch
            (VURL (fill_placeholders (split_path (path config)) texts) base
                  (if truthy (member "search" arg)
                   then Some (member "search" arg) else None))
            (VObject (obj_assign requestInit
                        [("method", VString (method config));
                         ("headers", merged)])))
  else mthrow TypeError.
Proof.
  intros Hb Hp Ht.
  exact (operation_call_run URL_accepts program file_read URL_parses config
           operation_declared operation_named URL_free undefined_free fuel arg
           requestInit params texts base helper_declared fetch_free path_reads_back Hb Hp Ht).
Qed.

(** X12.  Both arguments are needed at run time, under the conditions of
    the call above.  Called without any argument, the emitted function
    throws the [TypeError] of destructuring [undefined].  Called with the
    argument object but without request options, it throws a [TypeError]
    as well, and [fetch] is not called: that of [new URL] where the
    platform rejects the path and the base, and otherwise that of reading
    [headers] of [undefined].  And where the platform rejects the path and
    the base, request options do not help: the call throws the [TypeError]
    of [new URL] whatever they are. *)
Theorem operation_requires_both_arguments (fuel : nat) (arg params : obj value)
        (texts : list string) (base : value) :
  static_base URL_parses (baseUrl config) = Some base ->
  (extractParams (path config) <> [] ->
   obj_get "params" arg = Some (VObject params)) ->
  Forall2 (fun name t => param_text params name = Some t)
          (extractParams (path config)) texts ->
  call (17 + fuel) (operationId config) [] = mthrow TypeError /\
  call (17 + fuel) (operationId config) [VObject arg] = mthrow TypeError /\
  (URL_accepts (fill_placeholders (split_path (path config)) texts) base = false ->
   forall options,
     call (17 + fuel) (operationId config) [VObject arg; VObject options] =
     mthrow TypeError).
Proof.
  intros Hb Hp Ht. split; [|split].
  - unfold Runtime.call, invoke.
    rewrite file_read, operation_declared, operation_named.
    reflexivity.
  - change (17 + fuel) with (S (S (S (S (S (S (S (10 + fuel)))))))).
    pose proof (operation_reaches_fetch URL_accepts program file_read URL_parses config
                  operation_declared operation_named URL_free undefined_free (10 + fuel) arg params
                  VUndefined texts base path_reads_back Hb Hp Ht) as H.
    cbv zeta in H. cbv iota in H. rewrite H.
    destruct (URL_accepts _ base); [|reflexivity].
    rewrite (fetch_call_without_options URL_accepts program file_read (10 + fuel));
      [reflexivity|exact helper_declared|exact fetch_free| |];
      apply scope_names; discriminate.
  - intros Hreject options.
    rewrite (operation_call_run URL_accepts program file_read URL_parses config
               operation_declared operation_named URL_free undefined_free fuel arg
               options params texts base helper_declared fetch_free path_reads_back Hb Hp Ht).
    cbv zeta. now rewrite Hreject.
Qed.
End Operation.
End InProgram.

Lemma operation_call_witness :
  Runtime.call (fun _ base => match base with VString _ => true | _ => false end)
       Samples.get_item_based_file 17 "getItem"
       [VObject [("params", VObject [("id", VString "42")]);
                 ("search", VString "?full=1")];
        VObject [("cache", VString "no-store")]] =
  mret (VFetch (VURL "/items/42" (VString "https://api.example.com")
                     (Some (VString "?full=1")))
          (VObject [("method", VString "GET");
                    ("headers", VHeaders [("accept", "application/json")]);
                    ("cache", VString "no-store")])).
Proof.
  assert (Ht : Forall2 (fun name t => param_text [("id", VString "42")] name = Some t)
                       (extractParams (path Samples.get_item_based)) ["42"]).
  { change (extractParams (path Samples.get_item_based)) with ["id"].
    constructor; [reflexivity|constructor]. }
  exact (operation_call
           (fun _ base => match base with VString _ => true | _ => false end)
           Samples.get_item_based_file eq_refl eq_refl eq_refl eq_refl eq_refl
           (fun _ => true)
           Samples.get_item_based eq_refl eq_refl eq_refl 0
           [("params", VObject [("id", VString "42")]);
            ("search", VString "?full=1")]
           [("cache", VString "no-store")] [("id", VString "42")] ["42"]
           (VString "https://api.example.com") eq_refl (fun _ => eq_refl) Ht).
Defined.

Lemma operation_requires_both_arguments_witness :
  Runtime.call (fun _ base => match base with VString _ => true | _ => false end)
       Samples.get_item_based_file 17 "getItem" [] = mthrow TypeError /\
  Runtime.call (fun _ base => match base with VString _ => true | _ => false end)
       Samples.get_item_based_file 17 "getItem"
       [VObject [("params", VObject [("id", VString "42")])]] = mthrow TypeError /\
  Runtime.call (fun _ _ => false)
       Samples.get_item_based_file 17 "getItem"
       [VObject [("params", VObject [("id", VString "42")])]; VObject []] =
  mthrow TypeError.
Proof.
  assert (Ht : Forall2 (fun name t => param_text [("id", VString "42")] name = Some t)
                       (extractParams (path Samples.get_item_based)) ["42"]).
  { change (extractParams (path Samples.get_item_based)) with ["id"].
    constructor; [reflexivity|constructor]. }
  destruct (operation_requires_both_arguments
              (fun _ base => match base with VString _ => true | _ => false end)
              Samples.get_item_based_file eq_refl eq_refl eq_refl eq_refl eq_refl
           (fun _ => true)
              Samples.get_item_based eq_refl eq_refl eq_refl 0
              [("params", VObject [("id", VString "42")])] [("id", VString "42")]
              ["42"] (VString "https://api.example.com") eq_refl (fun _ => eq_refl) Ht)
    as (H1 & H2 & _).
  destruct (operation_requires_both_arguments
              (fun _ _ => false)
              Samples.get_item_based_file eq_refl eq_refl eq_refl eq_refl eq_refl
           (fun _ => true)
              Samples.get_item_based eq_refl eq_refl eq_refl 0
              [("params", VObject [("id", VString "42")])] [("id", VString "42")]
              ["42"] (VString "https://api.example.com") eq_refl (fun _ => eq_refl) Ht)
    as (_ & _ & H3).
  split; [exact H1|]. split; [exact H2|]. apply H3. reflexivity.
Defined.

End OperationProperties.

(* ===================================================================== *)
(** * Further properties: the run on a whole document *)
(* ===================================================================== *)

Module WalkerProperties.
Import JS JSFacts TypeMapper TypeMapperFacts Synthesizer Walker WalkerFacts.
Import Vocabulary OptionsProperties TypeMapperProperties LayoutProperties.

Section Objects.
Context {A : Type}.
Implicit Types (o : obj A) (k : string) (v : A).

Lemma last_value_distinct k o :
  NoDup (map fst o) -> last_value k o = obj_get k o.
Proof.
  unfold last_value. induction o as [|[k0 v0] o IH]; [reflexivity|].
  cbn [map fst rev obj_get]. intros Hnd. inversion Hnd as [|? ? Hk Ho]; subst.
  rewrite obj_get_app, (IH Ho). cbn [obj_get].
  destruct (String.eqb_spec k0 k) as [->|_].
  - apply obj_get_none in Hk. now rewrite Hk.
  - now destruct (obj_get k o).
Qed.

Lemma obj_get_distinct k v o :
  NoDup (map fst o) -> In (k, v) o -> obj_get k o = Some v.
Proof.
  induction o as [|[k0 v0] o IH]; [intros _ []|].
  cbn [map fst obj_get]. intros Hnd. inversion Hnd as [|? ? Hk Ho]; subst.
  intros [[= -> ->]|Hin]; [now rewrite String.eqb_refl|].
  destruct (String.eqb_spec k0 k) as [->|_]; [|now apply IH].
  exfalso. apply Hk. apply in_map_iff. now exists (k, v).
Qed.

Lemma keys_replace k v o : map fst (obj_replace k v o) = map fst o.
Proof.
  induction o as [|[k0 v0] o IH]; [reflexivity|]. cbn [obj_replace].
  destruct (k0 =? k); cbn [map fst]; [reflexivity|now rewrite IH].
Qed.

Lemma keys_insert_index i k v o :
  ~ In k (map fst o) -> NoDup (map fst o) ->
  NoDup (map fst (obj_insert_index i k v o)).
Proof.
  intros Hk Hnd. induction o as [|[k0 v0] o IH]; cbn [obj_insert_index].
  - repeat constructor. intros [].
  - assert (Hcons : NoDup (map fst ((k, v) :: (k0, v0) :: o)))
      by (constructor; assumption).
    destruct (array_index k0) as [j|]; [|exact Hcons].
    destruct (j <? i)%N; [|exact Hcons].
    cbn [map fst] in *. inversion Hnd as [|? ? Hk0 Ho]; subst.
    constructor; [|apply IH; [intros H; apply Hk; now right|exact Ho]].
    intros Hin. apply in_map_iff in Hin as ([k1 v1] & Heq & Hin). cbn [fst] in Heq.
    subst k1. apply obj_insert_index_in in Hin as [[= -> ->]|Hin];
      [apply Hk; now left|].
    apply Hk0. apply in_map_iff. now exists (k0, v1).
Qed.

Lemma keys_set k v o : NoDup (map fst o) -> NoDup (map fst (obj_set k v o)).
Proof.
  intros Hnd. unfold obj_set, obj_has.
  destruct (obj_get k o) eqn:E; [now rewrite keys_replace|].
  apply obj_get_none in E.
  destruct (array_index k); [now apply keys_insert_index|].
  rewrite map_app. apply NoDup_app; [exact Hnd|repeat constructor; intros []|].
  intros x Hx [Hn|[]]. cbn [fst] in Hn. now subst x.
Qed.

Lemma keys_assign (es : list (string * A)) o :
  NoDup (map fst o) -> NoDup (map fst (obj_assign es o)).
Proof.
  unfold obj_assign. revert o. induction es as [|[k v] es IH]; intros o Hnd; [exact Hnd|].
  cbn [fold_left]. apply IH. now apply keys_set.
Qed.
End Objects.


Lemma merged_member (members : obj json) path method base k :
  NoDup (map fst members) ->
  obj_get k (obj_assign (obj_assign members [("path", path); ("method", method)])
                        [("baseUrl", base)]) =
  match obj_get k members with
  | Some v => Some v
  | None => obj_get k [("path", path); ("method", method); ("baseUrl", base)]
  end.
Proof.
  intros Hnd. rewrite obj_get_assign, last_value_distinct.
  - rewrite obj_get_assign, (last_value_distinct _ _ Hnd).
    destruct (obj_get k members); [reflexivity|]. cbn [obj_get].
    now destruct ("path" =? k), ("method" =? k).
  - apply keys_assign. repeat constructor; cbn; intuition discriminate.
Qed.

Lemma config_of_typed options path method operation :
  typed_operation operation ->
  exists raw,
    operation_config path method operation = Ok raw /\
    typed_config options raw = Some (config_of options path method operation).
Proof.
  intros (members & -> & Hnd & (id & Hid) & Htexts).
  exists (obj_assign members [("path", JStr path); ("method", JStr (toUpperCase method))]).
  split.
  - unfold operation_config, check_operation. cbn. now rewrite Hid.
  - unfold typed_config, required_string, optional_string, config_of, own_or, own_text, read.
    cbn [get]. rewrite !merged_member by exact Hnd. rewrite Hid.
    repeat match goal with
           | H : Forall _ (_ :: _) |- _ => inversion H; subst; clear H
           end.
    repeat match goal with
           | H : optional_text (obj_get ?k members) = true |- _ =>
               destruct (obj_get k members) as [[]|]; try discriminate H; clear H
           end;
      cbn [obj_get String.eqb Ascii.eqb Bool.eqb];
      destruct (base_url options), (obj_get "responses" members); reflexivity.
Qed.

Lemma read_null_free j k :
  arrays_null_free j = true -> arrays_null_free (read j k) = true.
Proof.
  intros Hj. destruct (is_object j) eqn:Ho;
    [now apply arrays_null_free_read|].
  unfold read. destruct j as [| | | |s| |]; try discriminate Ho; try reflexivity.
  cbn [get]. destruct (k =? "length"); [reflexivity|].
  destruct (obj_get k (indexed (chars s))) as [v|] eqn:E; [|reflexivity].
  apply obj_get_in, indexed_from_in, chars_strings in E as [c ->].
  reflexivity.
Qed.

Lemma return_type_returns responses :
  nullish responses = false -> arrays_null_free responses = true ->
  exists t w, makeOperationFunctionReturnType responses = (Ok t, w).
Proof.
  intros Hn Hr. unfold makeOperationFunctionReturnType, values.
  destruct (entries_null_free _ Hn Hr) as (es & -> & Hes).
  cbn [lift bind].
  destruct (mapM_ok_all
              (fun response => makeTypeFromSchema (response_schema response))
              (filter isJSONResponse (map snd es))) as (types & w & ->).
  - intros response Hin. apply filter_In in Hin as [Hin _].
    apply in_map_iff in Hin as (kv & <- & Hin).
    apply mapper_returns.
    unfold response_schema. do 3 apply read_null_free. now apply Hes.
  - cbn [bind ret]. eauto.
Qed.

Lemma return_type_outcome responses :
  value_or_TypeError (makeOperationFunctionReturnType responses).
Proof.
  unfold makeOperationFunctionReturnType.
  apply bind_value_or_TypeError.
  - unfold values, lift, value_or_TypeError.
    destruct responses; cbn; exact I.
  - intros all. apply bind_value_or_TypeError; [|intros; exact I].
    apply mapM_value_or_TypeError. intros response. apply makeTypeFromSchema_outcome.
Qed.

Lemma mapM_throws {A B} (f : A -> gen B) l :
  Exists (fun x => exists e w, f x = (Throw e, w)) l ->
  exists e w, mapM f l = (Throw e, w).
Proof.
  induction l as [|x l IH]; intros H; [inversion H|]. cbn [mapM].
  destruct (f x) as [[y|e] w] eqn:Ex; cbn [bind]; [|eauto].
  inversion H as [? ? (e & w' & Hx)|? ? Hl]; subst; [congruence|].
  destruct (IH Hl) as (e & w' & ->). cbn [bind]. eauto.
Qed.

Section Generation.
Variable URL_parses : string -> bool.

Lemma operation_nodes_return config :
  nullish (responses config) = false ->
  arrays_null_free (responses config) = true ->
  exists nodes w, operation_nodes URL_parses config = (Ok nodes, w).
Proof.
  intros Hn Hr. unfold operation_nodes, makeOperationFunction.
  destruct (return_type_returns _ Hn Hr) as (t & w & ->).
  cbn [bind ret]. eauto.
Qed.

Lemma statements_return configs :
  Forall (fun config => nullish (responses config) = false /\
                        arrays_null_free (responses config) = true) configs ->
  exists nodes console, statements URL_parses configs = (Ok nodes, console).
Proof.
  intros H. unfold statements.
  destruct (mapM_ok_all (operation_nodes URL_parses) configs) as (nested & w & ->).
  - intros config Hin. rewrite Forall_forall in H. destruct (H _ Hin).
    now apply operation_nodes_return.
  - cbn [bind ret]. eauto.
Qed.

Lemma statements_outcome configs :
  value_or_TypeError (statements URL_parses configs).
Proof.
  unfold statements. apply bind_value_or_TypeError; [|intros; exact I].
  apply mapM_value_or_TypeError. intros config. unfold operation_nodes.
  apply bind_value_or_TypeError; [|intros; exact I].
  unfold makeOperationFunction.
  apply bind_value_or_TypeError; [apply return_type_outcome|intros; exact I].
Qed.

Lemma statements_throw configs :
  Exists (fun config => nullish (responses config) = true) configs ->
  exists console, statements URL_parses configs = (Throw TypeError, console).
Proof.
  intros H. unfold statements.
  destruct (mapM_throws (operation_nodes URL_parses) configs) as (e & w & Hm).
  - eapply Exists_impl; [|exact H]. intros config Hn. cbv beta in Hn.
    exists TypeError, [].
    unfold operation_nodes, makeOperationFunction, makeOperationFunctionReturnType.
    destruct (responses config); try discriminate Hn; reflexivity.
  - pose proof (statements_outcome configs) as Ho. unfold statements in Ho.
    rewrite Hm in *. cbn [bind] in *. unfold value_or_TypeError in Ho. cbn [fst] in Ho.
    destruct e; try contradiction. eauto.
Qed.
End Generation.

Lemma mapR_map {A B C} (f : A -> result C) (h : B -> A) (g : B -> C) l :
  (forall x, In x l -> f (h x) = Ok (g x)) ->
  mapR f (map h l) = Ok (map g l).
Proof.
  induction l as [|x l IH]; intros H; [reflexivity|]. cbn [map mapR].
  rewrite (H x (or_introl eq_refl)), IH; [reflexivity|].
  intros y Hy. apply H. now right.
Qed.

(** The raw configurations of a [paths] object of typed operations. *)
Local Abbreviation raw_of entry :=
  (obj_assign match snd entry with JObj members => members | _ => [] end
              [("path", JStr (fst (fst entry)));
               ("method", JStr (toUpperCase (snd (fst entry))))]).

Local Abbreviation configs_of options paths :=
  (map (fun entry => config_of options (fst (fst entry)) (snd (fst entry)) (snd entry))
       (declared_operations paths)).

Lemma paths_of_impl (P Q : json -> Prop) paths :
  (forall operation, P operation -> Q operation) ->
  paths_of P paths -> paths_of Q paths.
Proof.
  intros HPQ [Hnd Hitems]. split; [exact Hnd|].
  eapply Forall_impl; [|exact Hitems].
  intros item (operations & Hi & Hnd' & Hops). exists operations.
  split; [exact Hi|]. split; [exact Hnd'|].
  eapply Forall_impl; [|exact Hops]. intros entry. apply HPQ.
Qed.

Lemma declared_satisfy (P : json -> Prop) paths :
  paths_of P paths ->
  Forall (fun entry => P (snd entry)) (declared_operations paths).
Proof.
  intros [_ Hitems]. unfold declared_operations. apply Forall_flat_map.
  eapply Forall_impl; [|exact Hitems]. intros item (operations & -> & _ & Hops).
  apply Forall_map. exact Hops.
Qed.

Lemma operation_config_typed path method operation :
  typed_operation operation ->
  operation_config path method operation = Ok (raw_of (path, method, operation)).
Proof.
  intros (members & -> & _ & (id & Hid) & _).
  unfold operation_config, check_operation. cbn. now rewrite Hid.
Qed.

Lemma mapR_first_throw {A B} (f : A -> result B) l1 x l2 e :
  (forall y, In y l1 -> exists z, f y = Ok z) -> f x = Throw e ->
  mapR f (l1 ++ x :: l2) = Throw e.
Proof.
  intros Hl Hx. induction l1 as [|y l1 IH]; cbn [app mapR]; [now rewrite Hx|].
  destruct (Hl y (or_introl eq_refl)) as [z ->].
  rewrite IH; [reflexivity|]. intros y' Hy'. apply Hl. now right.
Qed.

(** The configurations of a path item of typed operations. *)
Lemma path_configs_typed paths path operations :
  NoDup (map fst paths) -> In (path, JObj operations) paths ->
  NoDup (map fst operations) ->
  Forall (fun entry => typed_operation (snd entry)) operations ->
  path_configs (JObj paths) path =
  Ok (map (fun entry => raw_of (path, fst entry, snd entry)) operations).
Proof.
  intros Hnd Hin Hnd' Hops. unfold path_configs, read. cbn [get].
  rewrite (obj_get_distinct _ _ _ Hnd Hin). cbn [keys entries].
  apply mapR_map. intros [method operation] Hop. cbn [fst snd].
  cbn [get]. rewrite (obj_get_distinct _ _ _ Hnd' Hop).
  rewrite Forall_forall in Hops. apply operation_config_typed. exact (Hops _ Hop).
Qed.

Lemma collect_configs_typed paths :
  paths_of typed_operation paths ->
  collect_configs (JObj paths) =
  Ok (map (fun entry => raw_of entry) (declared_operations paths)).
Proof.
  intros [Hnd Hitems]. unfold collect_configs. cbn [getOwnPropertyNames].
  rewrite (mapR_map _ fst
             (fun item => map (fun entry => raw_of entry)
                              match snd item with
                              | JObj operations =>
                                  map (fun entry => (fst item, fst entry, snd entry))
                                      operations
                              | _ => []
                              end)).
  - f_equal. unfold declared_operations.
    clear. induction paths as [|item paths IH]; [reflexivity|].
    cbn [map concat flat_map]. now rewrite map_app, IH.
  - intros [path item] Hin. rewrite Forall_forall in Hitems.
    destruct (Hitems _ Hin) as (operations & Hitem & Hnd' & Hops).
    cbn [fst snd] in *. subst item.
    rewrite (path_configs_typed _ _ _ Hnd Hin Hnd' Hops), map_map. reflexivity.
Qed.

Lemma all_typed_declared options (declared : list (string * string * json)) :
  Forall (fun entry => typed_operation (snd entry)) declared ->
  all_typed options (map (fun entry => raw_of entry) declared) =
  Some (map (fun entry => config_of options (fst (fst entry)) (snd (fst entry))
                                    (snd entry)) declared).
Proof.
  induction 1 as [|[[path method] operation] declared Hop _ IH]; [reflexivity|].
  cbn [map all_typed fst snd] in *. rewrite IH.
  destruct (config_of_typed options path method operation Hop) as (raw & Hraw & Ht).
  destruct Hop as (members & -> & _ & (id & Hid) & _).
  unfold operation_config, check_operation in Hraw. cbn in Hraw. rewrite Hid in Hraw.
  injection Hraw as <-. now rewrite Ht.
Qed.

Lemma config_ids options paths :
  paths_of typed_operation paths ->
  map operationId (configs_of options paths) = operation_ids paths.
Proof.
  intros H. apply declared_satisfy in H. unfold operation_ids.
  induction H as [|[[path method] operation] declared Hop _ IH]; [reflexivity|].
  cbn [map flat_map fst snd] in *. rewrite IH.
  destruct Hop as (members & -> & _ & (id & Hid) & _).
  unfold config_of, own_or, own_text, read. cbn [operationId get]. now rewrite Hid.
Qed.

(** X14.  The configuration of a typed operation.  The walk gives it the
    key of the path item as [path] and the key of the operation in upper
    case as [method], the command line gives it [baseUrl], and the members
    of the operation are spread last: [operationId], [summary],
    [description] and [responses] are the operation's, and an own [path],
    [method] or [baseUrl] member of the operation replaces what the walk and
    the command line gave. *)
Theorem operation_members_override
        (options : Options) (path method : string) (operation : json) :
  typed_operation operation ->
  exists raw,
    operation_config path method operation = Ok raw /\
    typed_config options raw = Some (config_of options path method operation).
Proof. apply config_of_typed. Qed.

Lemma operation_members_override_witness :
  exists raw,
    operation_config "/items" "get"
      (JObj [("operationId", JStr "listItems"); ("baseUrl", JStr "https://b.example");
             ("responses", JObj [])]) = Ok raw /\
    typed_config {| input := None; output := None;
                    base_url := Some "https://a.example" |} raw =
    Some {| operationId := "listItems"; Synthesizer.path := "/items";
            Synthesizer.method := "GET"; baseUrl := Some "https://b.example";
            summary := None; description := None; responses := JObj [] |}.
Proof.
  apply (operation_members_override
           {| input := None; output := None; base_url := Some "https://a.example" |}
           "/items" "get").
  eexists. split; [reflexivity|].
  split; [repeat constructor; cbn; intuition discriminate|].
  split; [now exists "listItems"|]. repeat constructor.
Defined.

Section Run.
Variable URL_parses : string -> bool.
Variable resolve_cwd : string -> string.
Variable dirname : string -> string.
Variable dereference : string -> result json.
Variable printFile : list Declaration -> string.
Variable untyped_output : Options -> list (obj json) -> result string * list json.

Local Abbreviation run :=
  (execute URL_parses resolve_cwd dirname dereference printFile untyped_output).

(** A run on a document of typed operations comes down to the synthesis of
    the statements. *)
Lemma run_reaches_statements args fs inputFile outputFile document paths :
  Nat.even (length args) = true ->
  last_value "--input" (flag_pairs args) = Some inputFile ->
  last_value "--output" (flag_pairs args) = Some outputFile ->
  dereference (resolve_cwd inputFile) = Ok (JObj document) ->
  obj_get "paths" document = Some (JObj paths) ->
  paths_of typed_operation paths ->
  exists options,
    getOptions args = Ok options /\
    run args fs =
    match statements URL_parses (configs_of options paths) with
    | (Throw e, console) => (Aborted e, fs, console)
    | (Ok nodes, console) =>
        (Completed,
         {| directories := dirname (resolve_cwd outputFile) :: directories fs;
            files := (resolve_cwd outputFile, printFile nodes) :: files fs |},
         console)
    end.
Proof.
  intros Heven Hi Ho Hd Hp Hwf.
  pose proof (getOptions_even args Heven) as Hopt.
  rewrite Hi, Ho in Hopt.
  set (options := {| input := Some inputFile; output := Some outputFile;
                     base_url := last_value "--base-url" (flag_pairs args) |}) in *.
  exists options. split; [exact Hopt|].
  unfold execute. rewrite Hopt. cbn [input output require_path options].
  rewrite Hd. cbn [nullish]. unfold read at 1 2. cbn [get]. rewrite Hp.
  cbn [truthy negb]. rewrite (collect_configs_typed _ Hwf).
  rewrite (all_typed_declared options _ (declared_satisfy _ _ Hwf)).
  unfold write_result.
  destruct (statements URL_parses _) as [[nodes|e] console]; reflexivity.
Qed.

(** X15.  A run completes on every well-formed document that is a finite
    tree, as the parser returns when no schema of the document refers back
    to a schema that encloses it.  With [--input] and [--output] given among
    an even number of arguments, such a document that dereferences to an
    object whose [paths] is an object of path items, each an object of
    well-formed operations (typed, with [responses] present and no [null]
    among the elements of its arrays), makes [execute] complete: it
    synthesizes the statements for the configurations of the operations in
    document order (paths as listed, operations as listed in each), creates
    the directory of the output path, and writes there the one file the
    printer makes of these statements; the functions of the file are
    [combineHeaders] and then one per operation, named by the operation ids
    in document order.  A document with a schema that refers back to an
    enclosing one resolves to an object that contains itself; it is not
    covered, the calls of the mapper nest without end on it. *)
Theorem well_formed_document_generates
        (args : list string) (fs : FileSystem) (inputFile outputFile : string)
        (document paths : obj json) :
  Nat.even (length args) = true ->
  last_value "--input" (flag_pairs args) = Some inputFile ->
  last_value "--output" (flag_pairs args) = Some outputFile ->
  dereference (resolve_cwd inputFile) = Ok (JObj document) ->
  obj_get "paths" document = Some (JObj paths) ->
  paths_of well_formed_operation paths ->
  exists options nodes console,
    getOptions args = Ok options /\
    statements URL_parses (configs_of options paths) = (Ok nodes, console) /\
    run args fs =
    (Completed,
     {| directories := dirname (resolve_cwd outputFile) :: directories fs;
        files := (resolve_cwd outputFile, printFile nodes) :: files fs |},
     console) /\
    function_names nodes = "combineHeaders" :: operation_ids paths.
Proof.
  intros Heven Hi Ho Hd Hp Hwf.
  assert (Htyped : paths_of typed_operation paths)
    by (eapply paths_of_impl; [|exact Hwf]; now intros operation [H _]).
  destruct (run_reaches_statements args fs _ _ _ _ Heven Hi Ho Hd Hp Htyped)
    as (options & Hopt & Hrun).
  destruct (statements_return URL_parses (configs_of options paths))
    as (nodes & console & Hs).
  { apply Forall_map.
    eapply Forall_impl; [|exact (declared_satisfy _ _ Hwf)].
    intros [[path method] operation] ((members & -> & _) & Hn & Hr).
    split; assumption. }
  exists options, nodes, console. split; [exact Hopt|]. split; [exact Hs|]. split.
  - now rewrite Hrun, Hs.
  - rewrite (statements_names URL_parses _ _ _ Hs). now rewrite config_ids.
Qed.

(** X16.  An operation without [responses] is fatal.  On a document of typed
    operations one of which has no [responses] member (or [null] for it),
    [execute] aborts with a [TypeError] ([Object.values] of [undefined])
    and writes nothing, although the document passes every check of the
    walk. *)
Theorem operation_without_responses_aborts
        (args : list string) (fs : FileSystem) (inputFile outputFile : string)
        (document paths : obj json) :
  Nat.even (length args) = true ->
  last_value "--input" (flag_pairs args) = Some inputFile ->
  last_value "--output" (flag_pairs args) = Some outputFile ->
  dereference (resolve_cwd inputFile) = Ok (JObj document) ->
  obj_get "paths" document = Some (JObj paths) ->
  paths_of typed_operation paths ->
  Exists (fun entry => nullish (read (snd entry) "responses") = true)
         (declared_operations paths) ->
  exists console, run args fs = (Aborted TypeError, fs, console).
Proof.
  intros Heven Hi Ho Hd Hp Hwf Hmissing.
  destruct (run_reaches_statements args fs _ _ _ _ Heven Hi Ho Hd Hp Hwf)
    as (options & _ & Hrun).
  destruct (statements_throw URL_parses (configs_of options paths))
    as (console & Hs).
  { apply Exists_map. eapply Exists_impl; [|exact Hmissing].
    intros [[path method] operation] Hn. exact Hn. }
  exists console. now rewrite Hrun, Hs.
Qed.
(** X17.  The first fatal entry in document order decides the error.  When
    every operation listed before an entry is typed and the checks of the
    walk reject that entry, [execute] aborts with the error of that check
    ([Operation is an array], [Operation is a string], [No operationId], or
    the [TypeError] of [in] for [null]) and writes nothing, whatever the
    entries listed after it are: they are not looked at. *)
Theorem first_fatal_entry_decides
        (args : list string) (fs : FileSystem) (inputFile outputFile : string)
        (document before after earlier later : obj json)
        (path method : string) (operation : json) (e : error) :
  Nat.even (length args) = true ->
  last_value "--input" (flag_pairs args) = Some inputFile ->
  last_value "--output" (flag_pairs args) = Some outputFile ->
  dereference (resolve_cwd inputFile) = Ok (JObj document) ->
  obj_get "paths" document =
  Some (JObj (before ++ (path, JObj (earlier ++ (method, operation) :: later)%list)
                     :: after)%list) ->
  NoDup (map fst (before ++ (path, JObj (earlier ++ (method, operation) :: later)%list)
                         :: after)%list) ->
  NoDup (map fst (earlier ++ (method, operation) :: later)%list) ->
  paths_of typed_operation before ->
  Forall (fun entry => typed_operation (snd entry)) earlier ->
  check_operation operation = Throw e ->
  run args fs = (Aborted e, fs, []).
Proof.
  intros Heven Hi Ho Hd Hp Hnd Hnd' [_ Hbefore] Hearlier Hcheck.
  pose proof (getOptions_even args Heven) as Hopt. rewrite Hi, Ho in Hopt.
  unfold execute. rewrite Hopt. cbn [input output require_path].
  rewrite Hd. cbn [nullish]. unfold read at 1 2. cbn [get]. rewrite Hp.
  cbn [truthy negb].
  set (item := JObj (earlier ++ (method, operation) :: later)%list) in *.
  set (paths := (before ++ (path, item) :: after)%list) in *.
  assert (Hthrow : collect_configs (JObj paths) = Throw e); [|now rewrite Hthrow].
  unfold collect_configs. cbn [getOwnPropertyNames].
  subst paths. rewrite map_app. cbn [map fst].
  rewrite (mapR_first_throw _ _ _ _ e); [reflexivity| |].
  - intros name Hin. apply in_map_iff in Hin as ([name' pathItem] & <- & Hin).
    rewrite Forall_forall in Hbefore.
    destruct (Hbefore _ Hin) as (operations & Hitem & Hndo & Hops).
    cbn [fst snd] in *. subst pathItem. eexists.
    apply (path_configs_typed _ _ operations Hnd); [|exact Hndo|exact Hops].
    apply in_or_app. now left.
  - unfold path_configs, read. cbn [get].
    rewrite (obj_get_distinct path item _ Hnd)
      by (apply in_or_app; right; now left).
    subst item. cbn [keys entries]. rewrite map_app. cbn [map fst].
    rewrite (mapR_first_throw _ _ _ _ e); [reflexivity| |].
    + intros name Hin. apply in_map_iff in Hin as ([name' operation'] & <- & Hin).
      cbn [fst get].
      rewrite (obj_get_distinct name' operation' _ Hnd')
        by (apply in_or_app; now left).
      rewrite Forall_forall in Hearlier. eexists.
      apply operation_config_typed. exact (Hearlier _ Hin).
    + cbn [get].
      rewrite (obj_get_distinct method operation _ Hnd')
        by (apply in_or_app; right; now left).
      unfold operation_config. now rewrite Hcheck.
Qed.
End Run.

Lemma well_formed_document_generates_witness :
  exists options nodes console,
    getOptions Samples.sample_args = Ok options /\
    statements (fun _ => true)
      (configs_of options
         [("/items", JObj [("get", JObj [("operationId", JStr "listItems");
                                          ("responses", JObj [])])])])
    = (Ok nodes, console) /\
    execute (fun _ => true) (fun p => p) (fun p => p)
            (fun _ => Ok (JObj [("paths",
               JObj [("/items", JObj [("get", JObj [("operationId", JStr "listItems");
                                                   ("responses", JObj [])])])])]))
            (fun _ => "") (fun _ _ => (Ok "", []))
           Samples.sample_args Samples.empty_fs =
    (Completed,
     {| directories := ["out/sdk.ts"]; files := [("out/sdk.ts", "")] |}, console) /\
    function_names nodes = ["combineHeaders"; "listItems"].
Proof.
  apply (well_formed_document_generates (fun _ => true) (fun p => p) (fun p => p)
           _ (fun _ => "") (fun _ _ => (Ok "", []))
           Samples.sample_args Samples.empty_fs "api.json" "out/sdk.ts"
           [("paths", JObj [("/items",
               JObj [("get", JObj [("operationId", JStr "listItems");
                                   ("responses", JObj [])])])])]
           [("/items", JObj [("get", JObj [("operationId", JStr "listItems");
                                           ("responses", JObj [])])])]);
    try reflexivity.
  split; [repeat constructor; intros []|].
  repeat constructor. eexists. split; [reflexivity|].
  split; [repeat constructor; intros []|].
  repeat constructor.
  - eexists. split; [reflexivity|].
    split; [repeat constructor; cbn; intuition discriminate|].
    split; [now exists "listItems"|]. repeat constructor.
Defined.

Lemma operation_without_responses_aborts_witness :
  exists console,
    execute (fun _ => true) (fun p => p) (fun p => p)
            (fun _ => Ok (JObj [("paths",
               JObj [("/items", JObj [("get", JObj [("operationId", JStr "listItems")])])])]))
            (fun _ => "") (fun _ _ => (Ok "", []))
           Samples.sample_args Samples.empty_fs =
    (Aborted TypeError, Samples.empty_fs, console).
Proof.
  apply (operation_without_responses_aborts (fun _ => true) (fun p => p) (fun p => p)
           _ (fun _ => "") (fun _ _ => (Ok "", []))
           Samples.sample_args Samples.empty_fs "api.json" "out/sdk.ts"
           [("paths", JObj [("/items",
               JObj [("get", JObj [("operationId", JStr "listItems")])])])]
           [("/items", JObj [("get", JObj [("operationId", JStr "listItems")])])]);
    try reflexivity.
  - split; [repeat constructor; intros []|].
    repeat constructor. eexists. split; [reflexivity|].
    split; [repeat constructor; intros []|].
    repeat constructor. eexists. split; [reflexivity|].
    split; [repeat constructor; intros []|].
    split; [now exists "listItems"|]. repeat constructor.
  - left. reflexivity.
Defined.

Lemma first_fatal_entry_decides_witness :
  execute (fun _ => true) (fun p => p) (fun p => p)
          (fun _ => Ok (JObj [("paths",
             JObj [("/a", JObj [("get", JObj [("operationId", JStr "getA")]);
                                ("post", JStr "text");
                                ("put", JArr [])]);
                   ("/b", JNull)])]))
          (fun _ => "") (fun _ _ => (Ok "", []))
           Samples.sample_args Samples.empty_fs =
  (Aborted (Error "Operation is a string"), Samples.empty_fs, []).
Proof.
  apply (first_fatal_entry_decides (fun _ => true) (fun p => p) (fun p => p)
           _ (fun _ => "") (fun _ _ => (Ok "", []))
           Samples.sample_args Samples.empty_fs "api.json" "out/sdk.ts"
           [("paths",
             JObj [("/a", JObj [("get", JObj [("operationId", JStr "getA")]);
                                ("post", JStr "text");
                                ("put", JArr [])]);
                   ("/b", JNull)])]
           [] [("/b", JNull)]
           [("get", JObj [("operationId", JStr "getA")])] [("put", JArr [])]
           "/a" "post" (JStr "text"));
    try reflexivity.
  - repeat constructor; cbn; intuition discriminate.
  - repeat constructor; cbn; intuition discriminate.
  - split; constructor.
  - repeat constructor. eexists. split; [reflexivity|].
    split; [repeat constructor; intros []|].
    split; [now exists "getA"|]. repeat constructor.
Defined.

End WalkerProperties.

